(** * Fractal keystream generator: a shallow embedding of [cryptography.py]

    The development models the keystream pipeline of the repository
    ([bytes_to_complex], [generate_parameters], [fractal_function],
    [generate_keystream]) and its analyzers ([nist_randomness_tests],
    [shannon_entropy]) and proves properties of them.

    - Python [float] and [numpy.float64] are IEEE-754 binary64 values, taken
      from the standard library's executable specification [spec_float]
      (precision 53, exponent bound 1024, round to nearest even).  [int / int]
      is the correctly rounded quotient, an [int] operand of a float
      operation is converted first, and an [int] is compared with a float
      exactly, as CPython does.
    - A complex scalar is a Python [complex] or a [numpy.complex128]; the
      arithmetic of the first is CPython's (up to 3.13: a real operand is
      converted to a complex one), that of the second numpy's.
    - Python [int] is [Z]; [bytes] is [list byte]; a [str] is the [string]
      holding its UTF-8 encoding.
    - Exceptions are an error monad; [print] and [time.time] act on an
      explicit [world].
    - [abs] of a Python [complex] with a NaN part and no infinite part
      raises or returns according to the C variable [errno], which an
      earlier library call of the process may have left at [ERANGE].  What
      [abs] finds there is an input of the model: an [errno_view] for one
      call of [fractal_function], and in the [world] the views that the
      successive calls of a run get ([errno_seen]).  No assumption is made
      on them, so the model allows every behaviour of the interpreter and
      possibly more.
    - [hypot], the modulus behind [abs], is the correctly rounded function.
      The [hypot] of a C library may return the neighbouring double (for
      [0.5+0.3j] glibc 2.36 returns [0x1.2a8b73e294fb4p-1], the correctly
      rounded modulus is [0x1.2a8b73e294fb5p-1]); the theorems are proved
      for the correctly rounded function.
    - [hashlib] and the numpy functions [sin], [cos], [exp], [corrcoef] are
      interfaces ([Hashlib], [NumPy]): every theorem holds for all their
      implementations.

    - [math.log2], called by [shannon_entropy], is an interface as well
      ([MathLib]); [collections.Counter] is an association list in the
      order of first insertion.

    The plotting functions, [vulnerability_assessment] and the printing of
    [run_comprehensive_test] are not modelled. *)

From Stdlib Require Import ZArith Lia List Bool String Ascii QArith.
From Stdlib.Strings Require Import Byte.
From Stdlib Require Import SpecFloat.
Import ListNotations.
Open Scope Z_scope.

(* ================================================================= *)
(** * Exceptions *)

Inductive exn : Set :=
| OverflowError
| FloatingPointError
| ValueError
| ZeroDivisionError.

Inductive result (A : Type) : Type :=
| Ok (a : A)
| Raise (e : exn).

Arguments Ok {A} a.
Arguments Raise {A} e.

Definition bind {A B} (m : result A) (k : A -> result B) : result B :=
  match m with
  | Ok a => k a
  | Raise e => Raise e
  end.

Declare Scope py_scope.
Delimit Scope py_scope with py.
Notation "x <- m ;; k" := (bind m (fun x => k))
  (at level 61, m at next level, right associativity) : py_scope.
Open Scope py_scope.

(** [try: body except (E1, E2): handler] *)
Definition try_except {A} (body : result A) (caught : exn -> bool)
    (handler : result A) : result A :=
  match body with
  | Ok a => Ok a
  | Raise e => if caught e then handler else Raise e
  end.

Definition overflow_or_fpe (e : exn) : bool :=
  match e with
  | OverflowError | FloatingPointError => true
  | _ => false
  end.

(* ================================================================= *)
(** * binary64 arithmetic *)

Module Float.

Definition float : Set := spec_float.

Definition DBL_MANT_DIG : Z := 53.
Definition DBL_MAX_EXP : Z := 1024.

(** Rounding of [(-1)^s * m * 2^e], located by [l] inside its unit
    interval, to the nearest binary64 value (ties to even). *)
Definition round_float : bool -> Z -> Z -> location -> float :=
  binary_round_aux DBL_MANT_DIG DBL_MAX_EXP.

Definition add : float -> float -> float := SFadd DBL_MANT_DIG DBL_MAX_EXP.
Definition sub : float -> float -> float := SFsub DBL_MANT_DIG DBL_MAX_EXP.
Definition mul : float -> float -> float := SFmul DBL_MANT_DIG DBL_MAX_EXP.
Definition div : float -> float -> float := SFdiv DBL_MANT_DIG DBL_MAX_EXP.
Definition neg : float -> float := SFopp.
Definition fabs : float -> float := SFabs.
Definition ltb : float -> float -> bool := SFltb.
Definition leb : float -> float -> bool := SFleb.
Definition eqb : float -> float -> bool := SFeqb.

Definition zero : float := S754_zero false.
Definition nan : float := S754_nan.

Definition is_nan (x : float) : bool :=
  match x with S754_nan => true | _ => false end.

Definition is_finite (x : float) : bool :=
  match x with S754_zero _ | S754_finite _ _ _ => true | _ => false end.

Definition is_infinite (x : float) : bool :=
  match x with S754_infinity _ => true | _ => false end.

(** The correctly rounded quotient of two integers, [b <> 0]. *)
Definition of_ratio (a b : Z) : float :=
  match a with
  | Z0 => S754_zero (b <? 0)
  | _ =>
      let '(q, e, l) :=
        SFdiv_core_binary DBL_MANT_DIG DBL_MAX_EXP (Z.abs a) 0 (Z.abs b) 0 in
      round_float (xorb (a <? 0) (b <? 0)) q e l
  end.

(** A decimal literal [num / den] of the source text. *)
Definition literal (num den : Z) : float := of_ratio num den.

Definition of_Z (n : Z) : float :=
  binary_normalize DBL_MANT_DIG DBL_MAX_EXP n 0 false.

(** The exact value of a finite float as a rational; 0 for the others. *)
Definition to_Q (x : float) : Q :=
  match x with
  | S754_finite s m e =>
      let n := if s then Zneg m else Zpos m in
      match e with
      | Z0 => inject_Z n
      | Zpos p => inject_Z (n * 2 ^ Zpos p)
      | Zneg p => Qmake n (2 ^ p)
      end
  | _ => 0%Q
  end.

(** [|x| <= 2^k], for a zero or a finite [x]. *)
Definition mag_le (x : float) (k : Z) : Prop :=
  match x with
  | S754_zero _ => True
  | S754_finite _ m e => Zpos m <= 2 ^ (k - e)
  | _ => False
  end.

(** C's [fmod]: the remainder [x - n*y] with [n] the quotient truncated
    toward zero; exact, with the sign of [x]. *)
Definition fmod (x y : float) : float :=
  match x, y with
  | S754_nan, _ | _, S754_nan => S754_nan
  | S754_infinity _, _ => S754_nan
  | _, S754_zero _ => S754_nan
  | S754_zero _, _ => x
  | S754_finite _ _ _, S754_infinity _ => x
  | S754_finite sx mx ex, S754_finite _ my ey =>
      let ez := Z.min ex ey in
      let X := Zpos mx * 2 ^ (ex - ez) in
      let Y := Zpos my * 2 ^ (ey - ez) in
      match X mod Y with
      | Zpos r => binary_round DBL_MANT_DIG DBL_MAX_EXP sx r ez
      | _ => S754_zero sx
      end
  end.

(** C's [hypot], taken as the correctly rounded function: [sqrt (x*x + y*y)]
    rounded once, so that it overflows only when the result does.  The
    function of a C library agrees with it on infinities, NaNs and zeros and
    may differ from it in the last bit of a finite result. *)
Definition hypot (x y : float) : float :=
  match x, y with
  | S754_infinity _, _ | _, S754_infinity _ => S754_infinity false
  | S754_nan, _ | _, S754_nan => S754_nan
  | S754_zero _, _ => SFabs y
  | _, S754_zero _ => SFabs x
  | S754_finite _ mx ex, S754_finite _ my ey =>
      let ez := Z.min ex ey in
      let X := Zpos mx * 2 ^ (ex - ez) in
      let Y := Zpos my * 2 ^ (ey - ez) in
      let '(q, e, l) :=
        SFsqrt_core_binary DBL_MANT_DIG DBL_MAX_EXP (X * X + Y * Y) (2 * ez) in
      round_float false q e l
  end.

(** Exact comparison of an integer with a float ([None] for NaN). *)
Definition compare_Z (n : Z) (x : float) : option comparison :=
  match x with
  | S754_nan => None
  | S754_infinity s => Some (if s then Gt else Lt)
  | S754_zero _ => Some (n ?= 0)
  | S754_finite s m e =>
      let v := if s then Zneg m else Zpos m in
      Some (if 0 <=? e then n ?= v * 2 ^ e else n * 2 ^ (- e) ?= v)
  end.

(** What the rounding steps keep of the bits they shift out. *)
Definition sticky (x : shr_record) : bool := shr_r x || shr_s x.

Definition inexact (l : location) : Z :=
  match l with loc_Exact => 0 | _ => 1 end.

(** [mag_le] together with the sign of a finite result. *)
Definition mag_le_signed (s : bool) (x : float) (k : Z) : Prop :=
  match x with
  | S754_zero _ => True
  | S754_finite s' m e => s' = s /\ Zpos m <= 2 ^ (k - e)
  | _ => False
  end.

(** [0 <= x <= 2^k] *)
Definition nonneg_le (x : float) (k : Z) : Prop := mag_le_signed false x k.

End Float.

Import Float.

(* ================================================================= *)
(** * Python numbers *)

(** [float(n)] and the implicit conversion of an [int] operand. *)
Definition py_float_of_int (n : Z) : result float :=
  match of_Z n with
  | S754_infinity _ => Raise OverflowError
  | x => Ok x
  end.

(** [a / b] on two [int]s: the correctly rounded quotient. *)
Definition py_int_truediv (a b : Z) : result float :=
  if b =? 0 then Raise ZeroDivisionError
  else match of_ratio a b with
       | S754_infinity _ => Raise OverflowError
       | x => Ok x
       end.

(** [int(x)]: truncation toward zero. *)
Definition py_int_of_float (x : float) : result Z :=
  match x with
  | S754_nan => Raise ValueError
  | S754_infinity _ => Raise OverflowError
  | S754_zero _ => Ok 0
  | S754_finite s m e =>
      let t := if 0 <=? e then Zpos m * 2 ^ e else Zpos m / 2 ^ (- e) in
      Ok (if s then - t else t)
  end.

(** [x % y] on floats: [fmod], moved to the sign of the divisor. *)
Definition py_float_mod (x y : float) : result float :=
  if eqb y zero then Raise ZeroDivisionError
  else
    let m := fmod x y in
    if eqb m zero then
      Ok (S754_zero (match y with
                     | S754_finite s _ _ | S754_infinity s => s
                     | _ => false
                     end))
    else if negb (Bool.eqb (ltb y zero) (ltb m zero)) then Ok (add m y)
    else Ok m.

(** [n < x] and [x < n] for an [int] [n] and a float [x]. *)
Definition py_int_lt_float (n : Z) (x : float) : bool :=
  match compare_Z n x with Some Lt => true | _ => false end.

Definition py_float_lt_int (x : float) (n : Z) : bool :=
  match compare_Z n x with Some Gt => true | _ => false end.

(** A complex scalar is either a Python [complex] or a [numpy.complex128]:
    the two differ in [abs] (the first raises on overflow) and in division. *)
Inductive cnum : Set :=
| PyComplex (re im : float)
| NpComplex128 (re im : float).

Definition real (z : cnum) : float :=
  match z with PyComplex re _ | NpComplex128 re _ => re end.

Definition imag (z : cnum) : float :=
  match z with PyComplex _ im | NpComplex128 _ im => im end.

Definition is_numpy (z : cnum) : bool :=
  match z with NpComplex128 _ _ => true | PyComplex _ _ => false end.

(** The scalar type of a binary operation: numpy wins. *)
Definition mk_like (a b : cnum) (re im : float) : cnum :=
  if is_numpy a || is_numpy b then NpComplex128 re im else PyComplex re im.

(** A real operand of a complex operation. *)
Definition of_float (x : float) : cnum := PyComplex x zero.
Definition of_float64 (x : float) : cnum := NpComplex128 x zero.

Definition c_add (a b : cnum) : cnum :=
  mk_like a b (add (real a) (real b)) (add (imag a) (imag b)).

Definition c_mul (a b : cnum) : cnum :=
  mk_like a b
    (sub (mul (real a) (real b)) (mul (imag a) (imag b)))
    (add (mul (real a) (imag b)) (mul (imag a) (real b))).

(** CPython's [_Py_c_quot]. *)
Definition py_c_quot (a b : cnum) : result cnum :=
  let abs_breal := fabs (real b) in
  let abs_bimag := fabs (imag b) in
  if leb abs_bimag abs_breal then
    if eqb abs_breal zero then Raise ZeroDivisionError
    else
      let ratio := div (imag b) (real b) in
      let denom := add (real b) (mul (imag b) ratio) in
      Ok (PyComplex (div (add (real a) (mul (imag a) ratio)) denom)
                    (div (sub (imag a) (mul (real a) ratio)) denom))
  else if leb abs_breal abs_bimag then
    let ratio := div (real b) (imag b) in
    let denom := add (mul (real b) ratio) (imag b) in
    Ok (PyComplex (div (add (mul (real a) ratio) (imag a)) denom)
                  (div (sub (mul (imag a) ratio) (real a)) denom))
  else Ok (PyComplex nan nan).

(** numpy's complex quotient (Smith's method with a reciprocal). *)
Definition np_c_quot (a b : cnum) : cnum :=
  let one := of_Z 1 in
  let abs_br := fabs (real b) in
  let abs_bi := fabs (imag b) in
  if leb abs_bi abs_br then
    if eqb abs_br zero && eqb abs_bi zero then
      NpComplex128 (div (real a) abs_br) (div (imag a) abs_br)
    else
      let rat := div (imag b) (real b) in
      let scl := div one (add (real b) (mul (imag b) rat)) in
      NpComplex128 (mul (add (real a) (mul (imag a) rat)) scl)
                   (mul (sub (imag a) (mul (real a) rat)) scl)
  else
    let rat := div (real b) (imag b) in
    let scl := div one (add (imag b) (mul (real b) rat)) in
    NpComplex128 (mul (add (mul (real a) rat) (imag a)) scl)
                 (mul (sub (mul (imag a) rat) (real a)) scl).

Definition c_div (a b : cnum) : result cnum :=
  if is_numpy a || is_numpy b then Ok (np_c_quot a b) else py_c_quot a b.

(** [abs(z)].  For a Python [complex], CPython's [complex_abs] raises
    [OverflowError] when the C variable [errno] holds [ERANGE] after
    [_Py_c_abs].  That function sets [errno] from its result when both
    parts are finite ([ERANGE] exactly when the modulus is not finite) and
    clears it when a part is infinite; when a part is a NaN and none is
    infinite it returns NaN and leaves [errno] as an earlier library call
    left it.  On that path the outcome depends on [erange]: whether [errno]
    held [ERANGE] when [abs] was entered.  numpy's [abs] of a [complex128]
    reads no [errno] and returns the value of [hypot], an infinity when it
    overflows (numpy's default error state). *)
Definition c_abs (erange : bool) (z : cnum) : result float :=
  let r := hypot (real z) (imag z) in
  match z with
  | PyComplex re im =>
      if is_finite re && is_finite im then
        if is_finite r then Ok r else Raise OverflowError
      else if is_infinite re || is_infinite im then Ok r
      else if erange then Raise OverflowError else Ok r
  | NpComplex128 _ _ => Ok r
  end.

(** The real modulus as an operand: a Python float for a Python complex, a
    [numpy.float64] for a numpy one. *)
Definition modulus_operand (z : cnum) (r : float) : cnum :=
  if is_numpy z then of_float64 r else of_float r.

(* ================================================================= *)
(** * The libraries the program calls *)

(** [hashlib]: two digest functions of fixed output size. *)
Class Hashlib : Type := {
  sha256 : list byte -> list byte;
  sha512 : list byte -> list byte;
  sha256_digest_size : forall m, List.length (sha256 m) = 32%nat;
  sha512_digest_size : forall m, List.length (sha512 m) = 64%nat
}.

(** [numpy]: the functions the program calls.  Each returns a value or
    raises.  An instance stands for numpy in one error state
    ([numpy.seterr]), which the program never changes: in the default state
    an overflow returns an infinity, under [errstate(all='raise')] it
    raises [FloatingPointError].  [np_sin] and [np_cos] take and return the
    two parts of a [complex128]; [np_corrcoef xs ys] is the entry [[0,1]]
    of the correlation matrix. *)
Class NumPy : Type := {
  np_sin : float * float -> result (float * float);
  np_cos : float * float -> result (float * float);
  np_exp : float -> result float;
  np_corrcoef : list Z -> list Z -> result float
}.

Definition np_pi : float := literal 3141592653589793 1000000000000000.

Definition np_complex (r : result (float * float)) : result cnum :=
  p <- r ;; Ok (NpComplex128 (fst p) (snd p)).

(* ================================================================= *)
(** * Strings and bytes of the Python runtime *)

(** [int.from_bytes(bs, byteorder='big')] *)
Definition int_from_bytes_big (bs : list byte) : Z :=
  fold_left (fun acc b => acc * 256 + Z.of_N (Byte.to_N b)) bs 0.

(** [password.encode()] *)
Definition encode (password : string) : list byte :=
  list_byte_of_string password.

(** [l[lo:hi]] for [0 <= lo <= hi], and [l[lo:]] *)
Definition slice {A} (lo hi : nat) (l : list A) : list A :=
  firstn (hi - lo) (skipn lo l).

Definition slice_from {A} (lo : nat) (l : list A) : list A := skipn lo l.

Fixpoint bin_digits (p : positive) (acc : string) : string :=
  match p with
  | xH => String "1" acc
  | xO q => bin_digits q (String "0" acc)
  | xI q => bin_digits q (String "1" acc)
  end.

(** [bin(n)] *)
Definition bin (n : Z) : string :=
  match n with
  | Z0 => "0b0"
  | Zpos p => "0b" ++ bin_digits p ""
  | Zneg p => "-0b" ++ bin_digits p ""
  end.

(** [s[n:]] *)
Fixpoint str_from (n : nat) (s : string) : string :=
  match n, s with
  | O, _ => s
  | S n', String _ s' => str_from n' s'
  | S _, EmptyString => EmptyString
  end.

Fixpoint zeros (n : nat) (s : string) : string :=
  match n with
  | O => s
  | S n' => String "0" (zeros n' s)
  end.

(** [s.zfill(width)]: zeros go after a leading sign. *)
Definition zfill (width : nat) (s : string) : string :=
  let pad := (width - String.length s)%nat in
  match s with
  | String c s' =>
      if (Ascii.eqb c "+" || Ascii.eqb c "-")%bool
      then String c (zeros pad s') else zeros pad s
  | EmptyString => zeros pad s
  end.

(** [int(c)] for a one-character string. *)
Definition int_of_char (c : ascii) : result Z :=
  let n := Z.of_nat (nat_of_ascii c) in
  if (48 <=? n) && (n <=? 57) then Ok (n - 48) else Raise ValueError.

(** [[int(b) for b in s]] *)
Fixpoint ints_of_string (s : string) : result (list Z) :=
  match s with
  | EmptyString => Ok []
  | String c s' =>
      d <- int_of_char c ;;
      ds <- ints_of_string s' ;;
      Ok (d :: ds)
  end.

(** [range(n)] and [range(a, b)] *)
Definition range (n : Z) : list Z := map Z.of_nat (seq 0 (Z.to_nat n)).

Definition range_from (a b : Z) : list Z :=
  map (fun k => a + Z.of_nat k) (seq 0 (Z.to_nat (b - a))).

(* ================================================================= *)
(** * Parameter derivation *)

Section Program.

Context {hashlib : Hashlib} {numpy : NumPy}.

Definition bytes_to_complex (byte_list : list byte) : result cnum :=
  let int_val := int_from_bytes_big byte_list in
  normalized <- py_int_truediv int_val (2 ^ 64 - 1) ;;
  let real := sub (mul normalized (literal 4 1)) (literal 2 1) in
  q <- py_int_truediv (Z.land int_val 0xFFFF) (2 ^ 16 - 1) ;;
  let imag := sub (mul q (literal 4 1)) (literal 2 1) in
  Ok (PyComplex real imag).

Definition generate_parameters (password : string)
    : result (cnum * cnum * cnum) :=
  let h256 := sha256 (encode password) in
  let h512 := sha512 (encode password) in
  alpha <- bytes_to_complex (slice 0 8 h256) ;;
  beta <- bytes_to_complex (slice 16 24 h512) ;;
  gamma <- bytes_to_complex (slice_from 24 h256) ;;
  Ok (alpha, beta, gamma).

(* ================================================================= *)
(** * One map step *)

Definition default_max_mag : float := literal 100 1.

(** What one call of [fractal_function] sees of [errno]: whether it holds
    [ERANGE] when [abs] is entered in the input clamp (line 56), in the
    [try] block (line 62) and in the output clamp (line 66). *)
Record errno_view : Set := {
  erange_in : bool;
  erange_try : bool;
  erange_out : bool
}.

(** [if abs(z) > max_mag: z = z / abs(z) * max_mag].  The second [abs(z)]
    is evaluated only after the first has returned a value above
    [max_mag]: [z] has then two finite parts or an infinite one, and the
    call returns that value again, whatever [errno] holds. *)
Definition clamp (erange : bool) (z : cnum) (max_mag : float) : result cnum :=
  a <- c_abs erange z ;;
  if ltb max_mag a then
    q <- c_div z (modulus_operand z a) ;;
    Ok (c_mul q (of_float max_mag))
  else Ok z.

Definition two_pi : float := mul (of_Z 2) np_pi.

(** The body of the [try] block. *)
Definition map_body (erange : bool) (z alpha beta gamma : cnum)
    : result cnum :=
  zr <- py_float_mod (real z) two_pi ;;
  zi <- py_float_mod (imag z) two_pi ;;
  let z_safe := PyComplex zr zi in
  let w := c_add z_safe alpha in
  term1 <- np_complex (np_sin (real w, imag w)) ;;
  let h := c_mul (of_float (literal 5 10)) z_safe in
  c <- np_complex (np_cos (real h, imag h)) ;;
  let term2 := c_mul beta c in
  a <- c_abs erange z_safe ;;
  e <- np_exp (neg a) ;;
  let term3 := c_mul (c_mul gamma z_safe) (of_float64 e) in
  Ok (c_add (c_add term1 term2) term3).

Definition fractal_function (errno : errno_view)
    (z alpha beta gamma : cnum) (max_mag : float) : result cnum :=
  z <- clamp (erange_in errno) z max_mag ;;
  result <- try_except (map_body (erange_try errno) z alpha beta gamma)
              overflow_or_fpe (Ok (PyComplex (of_Z 0) (of_Z 0))) ;;
  clamp (erange_out errno) result max_mag.

(* ================================================================= *)
(** * The keystream generator *)

(** What [print] writes. *)
Inductive line : Set :=
| Generating (length : Z)
| Generated (i length : Z) (elapsed : float).

(** The part of the process state the generator touches: the clock read by
    [time.time()], the standard output, and [errno].  [errno] is written by
    the library calls between two calls of [abs], which the model does not
    follow: the world gives, for every call of [fractal_function] made in
    the process, what that call sees of it ([errno_seen k] for the call
    that [k] calls precede). *)
Record world : Type := {
  clock : nat -> float;
  clock_reads : nat;
  stdout : list line;
  errno_seen : nat -> errno_view;
  map_calls : nat
}.

Definition IO (A : Type) : Type := world -> result A * world.

Definition io_ret {A} (a : A) : IO A := fun w => (Ok a, w).

Definition io_lift {A} (r : result A) : IO A := fun w => (r, w).

Definition io_bind {A B} (m : IO A) (k : A -> IO B) : IO B :=
  fun w =>
    match m w with
    | (Ok a, w') => k a w'
    | (Raise e, w') => (Raise e, w')
    end.

Notation "x <~ m ;; k" := (io_bind m (fun x => k))
  (at level 61, m at next level, right associativity) : py_scope.

Definition time_time : IO float :=
  fun w => (Ok (clock w (clock_reads w)),
            {| clock := clock w; clock_reads := S (clock_reads w);
               stdout := stdout w;
               errno_seen := errno_seen w; map_calls := map_calls w |}).

Definition print (l : line) : IO unit :=
  fun w => (Ok tt,
            {| clock := clock w; clock_reads := clock_reads w;
               stdout := stdout w ++ [l];
               errno_seen := errno_seen w; map_calls := map_calls w |}).

(** What the next call of [fractal_function] sees of [errno]. *)
Definition observe_errno : IO errno_view :=
  fun w => (Ok (errno_seen w (map_calls w)),
            {| clock := clock w; clock_reads := clock_reads w;
               stdout := stdout w;
               errno_seen := errno_seen w; map_calls := S (map_calls w) |}).

(** [for i in xs: s = body(i, s)] *)
Fixpoint for_each {S} (xs : list Z) (body : Z -> S -> IO S) (s : S) : IO S :=
  match xs with
  | [] => io_ret s
  | i :: xs' => s' <~ body i s ;; for_each xs' body s'
  end.

(** Lines 81-85: the byte read off the state. *)
Definition extract_byte (z : cnum) : result Z :=
  let a_re := fabs (real z) in
  n_re <- py_int_of_float a_re ;;
  f_re <- py_float_of_int n_re ;;
  let re_frac := sub a_re f_re in
  let a_im := fabs (imag z) in
  n_im <- py_int_of_float a_im ;;
  f_im <- py_float_of_int n_im ;;
  let im_frac := sub a_im f_im in
  k <- py_float_of_int (2 ^ 20) ;;
  r <- py_int_of_float (mul re_frac k) ;;
  let re_int := Z.land r 0xFFFFFF in
  k <- py_float_of_int (2 ^ 20) ;;
  i <- py_int_of_float (mul im_frac k) ;;
  let im_int := Z.land i 0xFFFFFF in
  Ok (Z.land (Z.lxor re_int im_int) 0xFF).

(** The loop body, lines 77-86, on the pair of the state and the list. *)
Definition keystream_step (alpha beta gamma : cnum) (start_time : float)
    (length i : Z) (s : cnum * list Z) : IO (cnum * list Z) :=
  _ <~ (if i mod 5000 =? 0 then
          now <~ time_time ;;
          print (Generated i length (sub now start_time))
        else io_ret tt) ;;
  errno <~ observe_errno ;;
  z <~ io_lift (fractal_function errno (fst s) alpha beta gamma
                  default_max_mag) ;;
  byte_val <~ io_lift (extract_byte z) ;;
  io_ret (z, snd s ++ [byte_val]).

Definition default_seed : cnum := PyComplex (literal 5 10) (literal 3 10).

Definition generate_keystream (password : string) (length : Z) (seed : cnum)
    : IO (list Z) :=
  p <~ io_lift (generate_parameters password) ;;
  let '(alpha, beta, gamma) := p in
  _ <~ print (Generating length) ;;
  start_time <~ time_time ;;
  s <~ for_each (range length)
         (keystream_step alpha beta gamma start_time length) (seed, []) ;;
  io_ret (snd s).

(* ================================================================= *)
(** * The randomness analyzer *)

Record report : Set := {
  frequency_test : bool;
  runs_test : bool;
  autocorrelation : bool
}.

(** [[int(b) for b in bin(byte)[2:].zfill(8)]] *)
Definition byte_bits (byte : Z) : result (list Z) :=
  ints_of_string (zfill 8 (str_from 2 (bin byte))).

(** Lines 101-103 *)
Fixpoint expand_bits (keystream : list Z) (bits : list Z) : result (list Z) :=
  match keystream with
  | [] => Ok bits
  | byte :: rest =>
      bs <- byte_bits byte ;;
      expand_bits rest (bits ++ bs)
  end.

Definition sum (l : list Z) : Z := fold_left Z.add l 0.

Definition len {A} (l : list A) : Z := Z.of_nat (List.length l).

(** Lines 107-110 *)
Definition count_runs (bits : list Z) : Z :=
  fold_left
    (fun runs i =>
       if nth (Z.to_nat i) bits 0 =? nth (Z.to_nat (i - 1)) bits 0
       then runs else runs + 1)
    (range_from 1 (len bits)) 1.

(** [c * n / 2] for a float literal [c] and an [int] [n] *)
Definition runs_bound (c : float) (n : Z) : result float :=
  x <- py_float_of_int n ;;
  two <- py_float_of_int 2 ;;
  Ok (div (mul c x) two).

(** [abs(autocorr) < 0.02], where [autocorr] is a [float64] or the [int] 0 *)
Definition small_autocorr (autocorr : float + Z) : bool :=
  match autocorr with
  | inl c => ltb (fabs c) (literal 2 100)
  | inr n => py_int_lt_float (Z.abs n) (literal 2 100)
  end.

Definition nist_randomness_tests (keystream : list Z) : result report :=
  bits <- expand_bits keystream [] ;;
  let ones := sum bits in
  freq <- py_int_truediv ones (len bits) ;;
  let freq_test_passed :=
    ltb (literal 486 1000) freq && ltb freq (literal 514 1000) in
  let runs := count_runs bits in
  lo <- runs_bound (literal 9 10) (len bits) ;;
  runs_test_passed <-
    (if py_float_lt_int lo runs then
       hi <- runs_bound (literal 11 10) (len bits) ;;
       Ok (py_int_lt_float runs hi)
     else Ok false) ;;
  autocorr <-
    (if 1 <? len bits then
       c <- np_corrcoef (removelast bits) (tl bits) ;; Ok (inl c)
     else Ok (inr 0)) ;;
  Ok {| frequency_test := freq_test_passed;
        runs_test := runs_test_passed;
        autocorrelation := small_autocorr autocorr |}.

End Program.


(* ================================================================= *)
(** * The entropy estimate *)

(** [math]: the one function of it the estimate calls.  [math.log2]
    returns a float or raises ([ValueError] outside its domain); the
    theorems hold for every implementation. *)
Class MathLib : Type := {
  math_log2 : float -> result float
}.

(** [collections.Counter]: a dict from the elements to their counts, kept
    in the order of first insertion. *)
Fixpoint counter_add (x : Z) (c : list (Z * Z)) : list (Z * Z) :=
  match c with
  | [] => [(x, 1)]
  | (k, n) :: rest =>
      if k =? x then (k, n + 1) :: rest else (k, n) :: counter_add x rest
  end.

(** [collections.Counter(data)] *)
Definition Counter (data : list Z) : list (Z * Z) :=
  fold_left (fun c x => counter_add x c) data [].

(** [d.values()] *)
Definition values (d : list (Z * Z)) : list Z := map snd d.

Section Entropy.

Context {mathlib : MathLib}.

(** The loop of lines 95-97 on the counts that are left. *)
Fixpoint entropy_loop (counts : list Z) (length : Z) (entropy : float)
    : result float :=
  match counts with
  | [] => Ok entropy
  | count :: rest =>
      p <- py_int_truediv count length ;;
      l <- math_log2 p ;;
      entropy_loop rest length (sub entropy (mul p l))
  end.

Definition shannon_entropy (data : list Z) : result float :=
  match data with
  | [] => Ok (literal 0 1)
  | _ =>
      let freq := Counter data in
      let length := len data in
      entropy_loop (values freq) length (literal 0 1)
  end.

End Entropy.

(* ================================================================= *)
(** * The vocabulary of the specification *)

(** The unsigned big-endian value of a byte string, as the specification
    words it: the first byte is the most significant. *)
Fixpoint be_uint (bs : list byte) : Z :=
  match bs with
  | [] => 0
  | b :: rest => Z.of_N (Byte.to_N b) * 256 ^ Z.of_nat (List.length rest)
                 + be_uint rest
  end.

(** The complex number the specification assigns to an 8-byte window. *)
Definition window_to_complex (bs : list byte) : cnum :=
  let v := be_uint bs in
  PyComplex
    (sub (mul (of_ratio v (2 ^ 64 - 1)) (literal 4 1)) (literal 2 1))
    (sub (mul (of_ratio (Z.land v 0xFFFF) (2 ^ 16 - 1)) (literal 4 1))
         (literal 2 1)).

(** A finite complex number of the square [[-2,2] x [-2,2]]. *)
Definition in_square (c : cnum) : Prop :=
  (is_finite (real c) = true /\ (-2 <= to_Q (real c) <= 2)%Q) /\
  (is_finite (imag c) = true /\ (-2 <= to_Q (imag c) <= 2)%Q).

(** An element of a keystream: an integer of [[0,255]]. *)
Definition is_byte (b : Z) : Prop := 0 <= b <= 255.

(** The 8-bit big-endian expansion of a byte, most significant bit first. *)
Definition byte_bits_be (b : Z) : list Z :=
  map (fun k => Z.b2z (Z.testbit b k)) [7; 6; 5; 4; 3; 2; 1; 0].

(** The concatenated expansions of a keystream. *)
Definition bit_expansion (keystream : list Z) : list Z :=
  flat_map byte_bits_be keystream.

(** The number of positions where two consecutive bits differ. *)
Fixpoint changes (bits : list Z) : Z :=
  match bits with
  | a :: (b :: _) as rest => (if a =? b then 0 else 1) + changes rest
  | _ => 0
  end.

(** The two bounds of the runs test as the code evaluates them, in binary64:
    the product is rounded, then halved. *)
Definition runs_lower (N : Z) : float :=
  div (mul (literal 9 10) (of_Z N)) (of_Z 2).

Definition runs_upper (N : Z) : float :=
  div (mul (literal 11 10) (of_Z N)) (of_Z 2).

(** The bounds read over the rationals: [0.9 * N / 2 < runs < 1.1 * N / 2],
    cleared of denominators. *)
Definition strictly_between_exact (runs N : Z) : bool :=
  (9 * N <? 20 * runs) && (20 * runs <? 11 * N).

(** The largest length of a list of the runtime ([sys.maxsize]). *)
Definition sys_maxsize : Z := 2 ^ 63 - 1.

(** Equality of the bits a byte yields with a given list. *)
Definition bits_eqb (r : result (list Z)) (l : list Z) : bool :=
  match r with
  | Ok l' => if list_eq_dec Z.eq_dec l' l then true else false
  | Raise _ => false
  end.

(** A bit: 0 or 1. *)
Definition is_bit (b : Z) : Prop := b = 0 \/ b = 1.

Section Reference.

Context {hashlib : Hashlib} {numpy : NumPy}.

(** The three windows of the two digests. *)
Definition alpha_window (password : string) : list byte :=
  slice 0 8 (sha256 (encode password)).

Definition beta_window (password : string) : list byte :=
  slice 16 24 (sha512 (encode password)).

Definition gamma_window (password : string) : list byte :=
  slice 24 32 (sha256 (encode password)).

(** The loop body without its output: what one iteration does to the pair
    of the state and the list, given what it sees of [errno]. *)
Definition pure_step (errno : errno_view) (alpha beta gamma : cnum)
    (s : cnum * list Z) : result (cnum * list Z) :=
  z <- fractal_function errno (fst s) alpha beta gamma default_max_mag ;;
  byte_val <- extract_byte z ;;
  Ok (z, snd s ++ [byte_val]).

(** [n] iterations, the first of which is the call of [fractal_function]
    that [k] calls precede. *)
Fixpoint iterate (errno : nat -> errno_view) (k : nat)
    (alpha beta gamma : cnum) (n : nat) (s : cnum * list Z)
    : result (cnum * list Z) :=
  match n with
  | O => Ok s
  | S n' =>
      s' <- pure_step (errno k) alpha beta gamma s ;;
      iterate errno (S k) alpha beta gamma n' s'
  end.

(** The keystream as a function of the password, the length, the seed and
    what the iterations see of [errno]. *)
Definition keystream_of (errno : nat -> errno_view) (k : nat)
    (password : string) (length : Z) (seed : cnum) : result (list Z) :=
  p <- generate_parameters password ;;
  let '(alpha, beta, gamma) := p in
  s <- iterate errno k alpha beta gamma (Z.to_nat length) (seed, []) ;;
  Ok (snd s).

End Reference.


(* ================================================================= *)
(** * Further vocabulary: floats, states, output, bits *)

(** [|x| <= mb * 2^eb], for a zero or a finite [x] of sign [s] whose
    exponent is at most [eb]. *)
Definition le_dyadic (s : bool) (x : float) (mb : positive) (eb : Z) : Prop :=
  match x with
  | S754_zero _ => True
  | S754_finite s' m e => s' = s /\ e <= eb /\ Zpos m <= Zpos mb * 2 ^ (eb - e)
  | _ => False
  end.

(** [|x| >= 2^k], for a finite [x] that is not zero, or an infinity. *)
Definition ge_pow2 (x : float) (k : Z) : Prop :=
  match x with
  | S754_finite _ m e => 2 ^ (k - e) <= Zpos m
  | S754_infinity _ => True
  | _ => False
  end.

(** What a rounding to nearest returns: a zero, an infinity or a finite
    float of the given sign whose mantissa has at most 53 bits. *)
Definition rounded (s : bool) (x : float) : Prop :=
  match x with
  | S754_finite s' m _ => s' = s /\ Zpos m < 2 ^ 53
  | S754_infinity s' => s' = s
  | S754_zero _ => True
  | S754_nan => False
  end.

(** A float within the range of binary64: a finite one has a mantissa of
    at most 53 bits and an exponent of at most 971, so that it is below
    [2^1024] in magnitude.  Every result of an arithmetic operation is one. *)
Definition machine_float (x : float) : Prop :=
  match x with
  | S754_finite _ m e => Zpos m < 2 ^ 53 /\ e <= 971
  | _ => True
  end.

(** The position of the leading bit of a finite float that is not zero. *)
Definition leading_bit (m : positive) (e : Z) : Z :=
  Zdigits2 (Zpos m) + e - 1.

(** A float as the runtime holds it: a finite one has a canonical mantissa
    and an exponent in range. *)
Definition valid_float (x : float) : bool :=
  valid_binary DBL_MANT_DIG DBL_MAX_EXP x.

(** Both parts of a state are finite floats. *)
Definition finite_state (z : cnum) : bool :=
  is_finite (real z) && is_finite (imag z).

Definition has_nan (z : cnum) : bool := is_nan (real z) || is_nan (imag z).

(** The exception [int()] raises in lines 81-82 on a state that is not
    finite: the real part is converted first; a NaN gives [ValueError], an
    infinity [OverflowError]. *)
Definition extract_byte_error (z : cnum) : exn :=
  if is_nan (real z) then ValueError
  else if is_infinite (real z) then OverflowError
  else if is_nan (imag z) then ValueError
  else OverflowError.

(** Lines 81 and 83 (82 and 84) on one part [x] of the state: the
    fractional part of [abs(x)], scaled by [2**20] and truncated. *)
Definition scaled_fraction (x : float) : result Z :=
  n <- py_int_of_float (fabs x) ;;
  f <- py_float_of_int n ;;
  k <- py_float_of_int (2 ^ 20) ;;
  py_int_of_float (mul (sub (fabs x) f) k).

(** A float of the interval [(0, 1]]. *)
Definition unit_positive (x : float) : Prop :=
  match x with
  | S754_finite false m e => Zpos m <= 2 ^ (0 - e)
  | _ => False
  end.

(** The imaginary part [bytes_to_complex] computes, as a function of the
    last two bytes of its argument. *)
Definition imag_of_low_bytes (b6 b7 : byte) : float :=
  sub (mul (of_ratio (256 * Z.of_N (Byte.to_N b6) + Z.of_N (Byte.to_N b7))
                     (2 ^ 16 - 1))
           (literal 4 1))
      (literal 2 1).

(** The [j]-th progress line of a run of [length] bytes started in the
    world [w]: its index is [5000 * j], and its time is the difference of
    the clock reading that follows the first [j + 1] ones and the first. *)
Definition progress_line (w : world) (length : Z) (j : nat) : line :=
  Generated (5000 * Z.of_nat j) length
    (sub (clock w (S (clock_reads w) + j)) (clock w (clock_reads w))).

(** What the loop prints over the indices [xs], when [k] clock readings
    have been made. *)
Fixpoint progress_lines (clock : nat -> float) (start_time : float)
    (length : Z) (k : nat) (xs : list Z) : list line :=
  match xs with
  | [] => []
  | i :: xs' =>
      if i mod 5000 =? 0
      then Generated i length (sub (clock k) start_time)
           :: progress_lines clock start_time length (S k) xs'
      else progress_lines clock start_time length k xs'
  end.

(** The number of multiples of 5000 in [range(length)]. *)
Definition progress_count (length : Z) : Z := (Z.max length 0 + 4999) / 5000.

(** The indices at which the loop prints. *)
Definition marks (xs : list Z) : list Z :=
  filter (fun i => i mod 5000 =? 0) xs.

(** [int(s, 2)] on a list of binary digits, most significant first. *)
Definition bits_value (bits : list Z) : Z :=
  fold_left (fun acc d => 2 * acc + d) bits 0.

(** The binary digits of a positive number, most significant first, put in
    front of [acc]. *)
Fixpoint pos_bits (p : positive) (acc : list Z) : list Z :=
  match p with
  | xH => 1 :: acc
  | xO q => pos_bits q (0 :: acc)
  | xI q => pos_bits q (1 :: acc)
  end.

(** [n.bit_length()] for [n >= 0] *)
Definition bit_length (n : Z) : Z :=
  match n with
  | Zpos p => Zpos (Pos.size p)
  | _ => 0
  end.

(** The bitwise complement of a byte, and of a bit. *)
Definition byte_complement (b : Z) : Z := 255 - b.

Definition bit_flip (d : Z) : Z := 1 - d.

(** The sum of the counts of a counter. *)
Definition total (c : list (Z * Z)) : Z :=
  fold_right (fun kv acc => snd kv + acc) 0 c.

(** Both parts of a state are within the range of binary64. *)
Definition machine_state (z : cnum) : Prop :=
  machine_float (real z) /\ machine_float (imag z).

(** A float that is zero or negative. *)
Definition nonpositive (x : float) : Prop :=
  match x with
  | S754_zero _ | S754_finite true _ _ => True
  | _ => False
  end.

(** [abs(z)] of a state with finite parts returns: the state is a numpy
    complex, or its modulus is a finite float. *)
Definition modulus_fits (z : cnum) : bool :=
  is_numpy z || is_finite (hypot (real z) (imag z)).


Section Assumptions.

Context {numpy : NumPy}.

(** The three numpy calls of the map step return, whatever they return. *)
Definition numpy_returns : Prop :=
  (forall p, exists q, np_sin p = Ok q) /\
  (forall p, exists q, np_cos p = Ok q) /\
  (forall x, exists y, np_exp x = Ok y).

(** One of the three numpy calls of the map step raises [e]. *)
Definition numpy_raises (e : exn) : Prop :=
  (exists p, np_sin p = Raise e) \/
  (exists p, np_cos p = Raise e) \/
  (exists x, np_exp x = Raise e).

(** [abs(z)] overflows: [z] is a Python [complex] with finite parts whose
    modulus is not a finite float. *)
Definition modulus_overflows (z : cnum) : Prop :=
  is_numpy z = false /\
  finite_state z = true /\
  is_finite (hypot (real z) (imag z)) = false.

(** [abs(z)] finds an [ERANGE] that it has not set: [errno] holds [ERANGE]
    on entry and [z] is a Python [complex] with a NaN part and no infinite
    one. *)
Definition stale_erange (erange : bool) (z : cnum) : Prop :=
  erange = true /\
  is_numpy z = false /\
  has_nan z = true /\
  is_infinite (real z) || is_infinite (imag z) = false.


(** What [sin], [cos] and [exp] return are binary64 values. *)
Definition numpy_floats : Prop :=
  (forall p q, np_sin p = Ok q ->
     valid_float (fst q) = true /\ valid_float (snd q) = true) /\
  (forall p q, np_cos p = Ok q ->
     valid_float (fst q) = true /\ valid_float (snd q) = true) /\
  (forall x y, np_exp x = Ok y -> valid_float y = true).

(** On the arguments the map step passes them, the three numpy calls return
    finite values: [sin] and [cos] of a complex number whose parts are at
    most 16 in magnitude is below [2^64] in both parts, and so is [exp] of
    a number that is not positive. *)
Definition numpy_bounded : Prop :=
  (forall p, mag_le (fst p) 4 -> mag_le (snd p) 4 ->
     exists q, np_sin p = Ok q /\ mag_le (fst q) 64 /\ mag_le (snd q) 64) /\
  (forall p, mag_le (fst p) 4 -> mag_le (snd p) 4 ->
     exists q, np_cos p = Ok q /\ mag_le (fst q) 64 /\ mag_le (snd q) 64) /\
  (forall x, nonpositive x -> exists y, np_exp x = Ok y /\ mag_le y 64).

End Assumptions.

(* ================================================================= *)
(** * Stand-ins for the libraries

    Concrete implementations of the two interfaces, used to run the model
    on concrete inputs.  They compute neither a cryptographic hash nor a
    trigonometric function: they only exercise the control flow around the
    library calls. *)

Module Fixture.

(** The message, cut or zero-padded to [n] bytes. *)
Definition pad_digest (n : nat) (m : list byte) : list byte :=
  map (fun i => nth i m x00) (seq 0 n).

Definition pad_hashlib : Hashlib := {|
  sha256 := pad_digest 32;
  sha512 := pad_digest 64;
  sha256_digest_size := fun m =>
    eq_trans (length_map _ (seq 0 32)) (length_seq 32 0);
  sha512_digest_size := fun m =>
    eq_trans (length_map _ (seq 0 64)) (length_seq 64 0)
|}.

(** Every call returns: the argument itself, or a zero correlation. *)
Definition quiet_numpy : NumPy := {|
  np_sin := fun p => Ok p;
  np_cos := fun p => Ok p;
  np_exp := fun x => Ok x;
  np_corrcoef := fun _ _ => Ok zero
|}.

(** Every call returns the same finite values, whatever its argument. *)
Definition steady_numpy : NumPy := {|
  np_sin := fun _ => Ok (literal 1 2, literal 1 4);
  np_cos := fun _ => Ok (literal 3 4, zero);
  np_exp := fun _ => Ok (literal 1 2);
  np_corrcoef := fun _ _ => Ok zero
|}.

(** [exp] raises, as under [numpy.errstate(all='raise')] on a range error. *)
Definition raising_numpy : NumPy := {|
  np_sin := fun p => Ok p;
  np_cos := fun p => Ok p;
  np_exp := fun _ => Raise FloatingPointError;
  np_corrcoef := fun _ _ => Ok zero
|}.

(** [errno] does not hold [ERANGE]. *)
Definition errno_clear : errno_view :=
  {| erange_in := false; erange_try := false; erange_out := false |}.

(** An earlier call has left [ERANGE] in [errno]. *)
Definition errno_stale : errno_view :=
  {| erange_in := true; erange_try := true; erange_out := true |}.

(** A world whose clock stands still, another that runs, and a third in
    which [errno] holds [ERANGE]. *)
Definition still_world : world :=
  {| clock := fun _ => zero; clock_reads := 0; stdout := [];
     errno_seen := fun _ => errno_clear; map_calls := 0 |}.

Definition running_world : world :=
  {| clock := fun n => of_Z (Z.of_nat n); clock_reads := 3;
     stdout := [Generating 7];
     errno_seen := fun _ => errno_clear; map_calls := 5 |}.


(** The largest finite double, [1.7976931348623157e308]. *)
Definition DBL_MAX : float := S754_finite false (2 ^ 53 - 1) 971.

(** Ten bytes [0x55] and fifteen bytes [0x0f]: 200 bits in 110 runs. *)
Definition ks110 : list Z := repeat 85 10 ++ repeat 15 15.

End Fixture.


(** Further stand-ins: a [sin] that returns the largest double in both
    parts, one that returns [1e6 + 1e6j], one that returns an infinity, and
    a [log2] that returns [0.0]. *)
Module Standins.

Definition huge_numpy : NumPy := {|
  np_sin := fun _ => Ok (Fixture.DBL_MAX, Fixture.DBL_MAX);
  np_cos := fun p => Ok p;
  np_exp := fun x => Ok x;
  np_corrcoef := fun _ _ => Ok zero
|}.

Definition wide_numpy : NumPy := {|
  np_sin := fun _ => Ok (of_Z 1000000, of_Z 1000000);
  np_cos := fun p => Ok p;
  np_exp := fun x => Ok x;
  np_corrcoef := fun _ _ => Ok zero
|}.

Definition infinite_numpy : NumPy := {|
  np_sin := fun _ => Ok (S754_infinity false, zero);
  np_cos := fun p => Ok p;
  np_exp := fun x => Ok x;
  np_corrcoef := fun _ _ => Ok zero
|}.

Definition flat_log2 : MathLib := {|
  math_log2 := fun _ => Ok zero
|}.

End Standins.

(* ================================================================= *)
(** * Facts: rounding never takes a value past a power of two *)

Module FloatFacts.

(** A bound on a literal, by evaluation. *)
Ltac literal_bound := vm_compute; split; [reflexivity|discriminate].

Lemma mag_le_signed_weaken s x k : mag_le_signed s x k -> mag_le x k.
Proof. destruct x; simpl; tauto. Qed.

Lemma fexp_eq x : fexp 53 1024 x = Z.max (x - 53) (-1074).
Proof. unfold fexp, emin. lia. Qed.

Lemma digits2_pos_size p : digits2_pos p = Pos.size p.
Proof. induction p; simpl; congruence. Qed.

Lemma pow2_pos_exponent m k : Zpos m <= 2 ^ k -> 0 <= k.
Proof.
  intros H. destruct (Z.lt_ge_cases k 0) as [Hn|]; [|assumption].
  rewrite Z.pow_neg_r in H by assumption. lia.
Qed.

Lemma Zdigits2_le m j : 0 <= m -> 0 <= j -> m <= 2 ^ j -> Zdigits2 m <= j + 1.
Proof.
  intros Hm Hj H. destruct m as [|p|p]; simpl; try lia.
  rewrite digits2_pos_size.
  pose proof (Pos.size_le p) as Hs.
  apply Pos2Z.pos_le_pos in Hs. rewrite Pos2Z.inj_pow in Hs.
  assert (Hp : 2 ^ Zpos (Pos.size p) <= 2 ^ (j + 1)).
  { rewrite Z.pow_add_r by lia. change (2 ^ 1) with 2.
    change (2 * 1) with 2 in Hs. lia. }
  apply Z.pow_le_mono_r_iff in Hp; lia.
Qed.

Lemma shr_1_m x : 0 <= shr_m x -> shr_m (shr_1 x) = shr_m x / 2.
Proof.
  destruct x as [m r s]; simpl. intros Hm.
  rewrite <- Z.div2_div.
  destruct m as [|[p|p|]|p]; simpl; try reflexivity; lia.
Qed.

Lemma shr_1_sticky x :
  0 <= shr_m x -> sticky (shr_1 x) = sticky x || Z.odd (shr_m x).
Proof.
  destruct x as [m r s]; unfold sticky; simpl. intros Hm.
  destruct m as [|[p|p|]|p]; simpl; try lia; destruct r, s; reflexivity.
Qed.

Lemma iter_pos_nat {A} (f : A -> A) n x :
  iter_pos f n x = Nat.iter (Pos.to_nat n) f x.
Proof.
  revert x. induction n; intros x; cbn [iter_pos].
  - rewrite !IHn, Pos2Nat.inj_xI.
    replace (S (2 * Pos.to_nat n))%nat
      with (Pos.to_nat n + (Pos.to_nat n + 1))%nat by lia.
    rewrite !Nat.iter_add. reflexivity.
  - rewrite !IHn, Pos2Nat.inj_xO.
    replace (2 * Pos.to_nat n)%nat with (Pos.to_nat n + Pos.to_nat n)%nat by lia.
    rewrite Nat.iter_add. reflexivity.
  - reflexivity.
Qed.

(** [n] one-bit shifts divide by [2^n]; the sticky flags are raised only by
    a flag already set or by a non-zero bit shifted out. *)
Lemma iter_shr_1 n x :
  0 <= shr_m x ->
  shr_m (Nat.iter n shr_1 x) = shr_m x / 2 ^ Z.of_nat n /\
  (sticky (Nat.iter n shr_1 x) = true ->
   sticky x = true \/ shr_m x mod 2 ^ Z.of_nat n <> 0).
Proof.
  intros Hx. induction n as [|n IH].
  - simpl. rewrite Z.div_1_r. auto.
  - change (Nat.iter (S n) shr_1 x) with (shr_1 (Nat.iter n shr_1 x)).
    destruct IH as [IHm IHs].
    set (y := Nat.iter n shr_1 x) in *.
    assert (Hp : 0 < 2 ^ Z.of_nat n) by (apply Z.pow_pos_nonneg; lia).
    assert (Hy : 0 <= shr_m y) by (rewrite IHm; apply Z.div_pos; lia).
    rewrite Nat2Z.inj_succ, Z.pow_succ_r by lia.
    pose proof (Z.mod_pos_bound (shr_m x) (2 ^ Z.of_nat n) Hp) as B1.
    pose proof (Z.mod_pos_bound (shr_m x / 2 ^ Z.of_nat n) 2 ltac:(lia)) as B2.
    split.
    + rewrite shr_1_m, IHm by assumption. rewrite Z.div_div by lia.
      f_equal. lia.
    + rewrite shr_1_sticky by assumption. intros H.
      rewrite Z.mul_comm, Z.rem_mul_r by lia.
      apply orb_true_iff in H. destruct H as [H|H].
      * destruct (IHs H) as [?|Hr]; [now left|right]. nia.
      * right. rewrite IHm in H.
        pose proof (Zmod_odd (shr_m x / 2 ^ Z.of_nat n)) as Ho.
        rewrite H in Ho. nia.
Qed.

Lemma shr_spec mrs e n :
  0 <= shr_m mrs ->
  snd (shr mrs e n) = e + Z.max n 0 /\
  shr_m (fst (shr mrs e n)) = shr_m mrs / 2 ^ Z.max n 0 /\
  (sticky (fst (shr mrs e n)) = true ->
   sticky mrs = true \/ shr_m mrs mod 2 ^ Z.max n 0 <> 0).
Proof.
  intros Hm. destruct n as [|p|p]; simpl shr; cbn [fst snd].
  - rewrite Z.div_1_r. repeat split; auto; lia.
  - rewrite iter_pos_nat.
    destruct (iter_shr_1 (Pos.to_nat p) mrs Hm) as [H1 H2].
    rewrite positive_nat_Z in H1, H2.
    replace (Z.max (Z.pos p) 0) with (Z.pos p) by lia.
    repeat split; auto.
  - replace (Z.max (Z.neg p) 0) with 0 by lia.
    rewrite Z.div_1_r. repeat split; auto; lia.
Qed.

Lemma sticky_of_loc m l : sticky (shr_record_of_loc m l) = negb (inexact l =? 0).
Proof. destruct l as [|[]]; reflexivity. Qed.

Lemma shr_m_of_loc m l : shr_m (shr_record_of_loc m l) = m.
Proof. destruct l as [|[]]; reflexivity. Qed.

Lemma inexact_range l : 0 <= inexact l <= 1.
Proof. destruct l; simpl; lia. Qed.

Lemma round_nearest_even_bounds x :
  shr_m x <= round_nearest_even (shr_m x) (loc_of_shr_record x)
          <= shr_m x + (if sticky x then 1 else 0).
Proof.
  destruct x as [m [] []]; unfold sticky; simpl; try lia.
  destruct (Z.even m); lia.
Qed.

(** One alignment step keeps a mantissa, counted with what was shifted out,
    below the power of two that bounded it. *)
Lemma shr_fexp_bound m e l k :
  0 <= m -> -1074 <= k ->
  m + inexact l <= 2 ^ (k - e) ->
  0 <= shr_m (fst (shr_fexp 53 1024 m e l)) /\
  shr_m (fst (shr_fexp 53 1024 m e l))
    + (if sticky (fst (shr_fexp 53 1024 m e l)) then 1 else 0)
    <= 2 ^ (k - snd (shr_fexp 53 1024 m e l)).
Proof.
  intros Hm Hk Hb. unfold shr_fexp. rewrite fexp_eq.
  set (n := Z.max (Zdigits2 m + e - 53) (-1074) - e).
  set (x := shr_record_of_loc m l).
  assert (Hx : 0 <= shr_m x) by (unfold x; now rewrite shr_m_of_loc).
  destruct (shr_spec x e n Hx) as (He & Hq & Hs).
  rewrite He, Hq. unfold x in Hq, Hs |- *. rewrite shr_m_of_loc in *.
  rewrite sticky_of_loc in Hs.
  pose proof (inexact_range l) as Hi.
  assert (Hpn : 0 < 2 ^ Z.max n 0) by (apply Z.pow_pos_nonneg; lia).
  split; [apply Z.div_pos; lia|].
  destruct (Z.eq_dec (m + inexact l) 0) as [Hz|Hz].
  - assert (m = 0) by lia. subst m.
    assert (Hl : inexact l = 0) by lia.
    rewrite Z.div_0_l, Z.mod_0_l in * by lia.
    destruct (sticky _) eqn:E.
    + destruct (Hs eq_refl) as [Hc|Hc]; [|lia].
      rewrite Hl in Hc. discriminate.
    + pose proof (Z.pow_nonneg 2 (k - (e + Z.max n 0))). lia.
  - assert (Hke : 0 <= k - e).
    { destruct (Z.lt_ge_cases (k - e) 0) as [Hn|]; [|assumption].
      rewrite Z.pow_neg_r in Hb by assumption. lia. }
    assert (Hd : Zdigits2 m <= k - e + 1) by (apply Zdigits2_le; lia).
    assert (Hn : Z.max n 0 <= k - e) by (unfold n; lia).
    replace (k - e) with ((k - (e + Z.max n 0)) + Z.max n 0) in Hb by lia.
    rewrite Z.pow_add_r in Hb by lia.
    set (P := 2 ^ (k - (e + Z.max n 0))) in *.
    set (Q := 2 ^ Z.max n 0) in *.
    pose proof (Z.div_mod m Q ltac:(lia)) as Hdm.
    pose proof (Z.mod_pos_bound m Q Hpn) as Hmb.
    destruct (sticky _) eqn:E.
    + destruct (Hs eq_refl) as [Hc|Hc].
      * assert (inexact l = 1) by (destruct l; simpl in *; [discriminate|lia]).
        nia.
      * nia.
    + nia.
Qed.

(** The rounding of a value of magnitude at most [2^k] is a zero or a
    finite float of magnitude at most [2^k]: it neither overflows nor
    crosses the bound. *)
Lemma round_float_mag_le s m e l k :
  0 <= m -> -1074 <= k <= 971 ->
  m + inexact l <= 2 ^ (k - e) ->
  mag_le_signed s (round_float s m e l) k.
Proof.
  intros Hm Hk Hb.
  unfold round_float, DBL_MANT_DIG, DBL_MAX_EXP, binary_round_aux.
  pose proof (shr_fexp_bound m e l k Hm (proj1 Hk) Hb) as H1.
  destruct (shr_fexp 53 1024 m e l) as [x1 e1]. cbn [fst snd] in H1.
  destruct H1 as [H1a H1b].
  pose proof (round_nearest_even_bounds x1) as Hr.
  set (m2 := round_nearest_even (shr_m x1) (loc_of_shr_record x1)) in *.
  assert (H2 : m2 + inexact loc_Exact <= 2 ^ (k - e1)) by (simpl; lia).
  pose proof (shr_fexp_bound m2 e1 loc_Exact k ltac:(lia) (proj1 Hk) H2) as H3.
  destruct (shr_fexp 53 1024 m2 e1 loc_Exact) as [x3 e3]. cbn [fst snd] in H3.
  destruct H3 as [H3a H3b].
  assert (H3c : shr_m x3 <= 2 ^ (k - e3)) by (destruct (sticky x3); lia).
  destruct (shr_m x3) as [|p|p] eqn:E3; simpl; try lia.
  pose proof (pow2_pos_exponent _ _ H3c).
  replace (e3 <=? 971) with true by (symmetry; apply Z.leb_le; lia).
  split; [reflexivity|exact H3c].
Qed.

Lemma pos_iter_xO m d : Zpos (Pos.iter xO m d) = Zpos m * 2 ^ Zpos d.
Proof.
  induction d as [|d IH] using Pos.peano_ind.
  - simpl. lia.
  - rewrite Pos.iter_succ, Pos2Z.inj_xO, IH, Pos2Z.inj_succ, Z.pow_succ_r; lia.
Qed.

Lemma shl_align_spec mx ex ex' :
  ex' <= ex ->
  Zpos (fst (shl_align mx ex ex')) = Zpos mx * 2 ^ (ex - ex') /\
  snd (shl_align mx ex ex') = ex'.
Proof.
  intros H. unfold shl_align.
  destruct (ex' - ex) as [|p|p] eqn:E; cbn [fst snd]; try lia.
  - replace (ex - ex') with 0 by lia. split; lia.
  - rewrite pos_iter_xO. replace (ex - ex') with (Zpos p) by lia. split; lia.
Qed.

Lemma binary_round_mag_le s mx ex k :
  -1074 <= k <= 971 -> Zpos mx <= 2 ^ (k - ex) ->
  mag_le_signed s (binary_round 53 1024 s mx ex) k.
Proof.
  intros Hk Hb. unfold binary_round. rewrite fexp_eq.
  set (e' := Z.max (Z.pos (digits2_pos mx) + ex - 53) (-1074)).
  pose proof (pow2_pos_exponent _ _ Hb) as Hke.
  destruct (Z.le_gt_cases e' ex) as [Hle|Hgt].
  - destruct (shl_align_spec mx ex e' Hle) as [Hm He].
    destruct (shl_align mx ex e') as [mz ez]. cbn [fst snd] in *. subst ez.
    apply (round_float_mag_le s (Zpos mz) e' loc_Exact k); try lia.
    change (inexact loc_Exact) with 0. rewrite Z.add_0_r, Hm.
    replace (k - e') with ((k - ex) + (ex - e')) by lia.
    rewrite Z.pow_add_r by lia.
    apply Z.mul_le_mono_nonneg_r; [apply Z.pow_nonneg; lia|assumption].
  - unfold shl_align. destruct (e' - ex) eqn:E; try lia.
    apply (round_float_mag_le s (Zpos mx) ex loc_Exact k); try lia.
    change (inexact loc_Exact) with 0. lia.
Qed.

(** [float(n)] is finite for an [int] of at most 971 bits. *)
Lemma of_Z_mag_le n k :
  0 <= k <= 971 -> Z.abs n <= 2 ^ k -> mag_le (of_Z n) k.
Proof.
  intros Hk Hn. unfold of_Z, binary_normalize, DBL_MANT_DIG, DBL_MAX_EXP.
  destruct n as [|p|p]; [exact I| |];
    (eapply mag_le_signed_weaken; apply binary_round_mag_le;
     [lia | rewrite Z.sub_0_r; simpl in Hn; lia]).
Qed.

Lemma py_float_of_int_ok n k :
  0 <= k <= 971 -> Z.abs n <= 2 ^ k ->
  py_float_of_int n = Ok (of_Z n) /\ mag_le (of_Z n) k.
Proof.
  intros Hk Hn. pose proof (of_Z_mag_le n k Hk Hn) as H.
  unfold py_float_of_int. destruct (of_Z n); simpl in H; try contradiction; auto.
Qed.

Lemma new_location_exact nb : new_location nb 0 = loc_Exact.
Proof. unfold new_location. destruct (Z.even nb); reflexivity. Qed.

(** The correctly rounded quotient of [0 <= a <= b * 2^k] is in
    [[0, 2^k]]. *)
Lemma of_ratio_nonneg_le a b k :
  0 <= a -> 0 < b -> 0 <= k <= 971 -> a <= b * 2 ^ k ->
  nonneg_le (of_ratio a b) k.
Proof.
  intros Ha Hb Hk Hab. unfold of_ratio.
  destruct a as [|p|p]; [exact I| |lia].
  replace (Z.pos p <? 0) with false by reflexivity.
  replace (b <? 0) with false by (symmetry; apply Z.ltb_ge; lia).
  rewrite (Z.abs_eq b) by lia. cbn [Z.abs xorb].
  unfold SFdiv_core_binary, DBL_MANT_DIG, DBL_MAX_EXP. rewrite fexp_eq.
  set (e' := Z.min _ (0 - 0)).
  assert (He : e' <= 0) by (unfold e'; lia).
  set (m' := match 0 - 0 - e' with
             | 0 => Z.pos p
             | Z.pos _ => Z.shiftl (Z.pos p) (0 - 0 - e')
             | Z.neg _ => 0
             end).
  assert (Hm' : m' = Zpos p * 2 ^ (- e')).
  { unfold m'. destruct (0 - 0 - e') as [|s|s] eqn:E; try lia.
    - replace (- e') with 0 by lia. lia.
    - rewrite Z.shiftl_mul_pow2 by lia. f_equal. f_equal. lia. }
  pose proof (Z_div_mod m' b ltac:(lia)) as Hdm.
  destruct (Z.div_eucl m' b) as [q r]. destruct Hdm as [Hdm Hr].
  assert (Hpe : 0 < 2 ^ (- e')) by (apply Z.pow_pos_nonneg; lia).
  assert (Hq : 0 <= q) by nia.
  apply round_float_mag_le; try lia.
  replace (k - e') with (k + - e') by lia.
  rewrite Z.pow_add_r by lia.
  assert (Hpk : 0 < 2 ^ k) by (apply Z.pow_pos_nonneg; lia).
  destruct (Z.eq_dec r 0) as [->|Hne].
  - rewrite new_location_exact. simpl. nia.
  - pose proof (inexact_range (new_location b r)). nia.
Qed.

Lemma py_int_truediv_ok a b k :
  0 <= a -> 0 < b -> 0 <= k <= 971 -> a <= b * 2 ^ k ->
  py_int_truediv a b = Ok (of_ratio a b) /\ nonneg_le (of_ratio a b) k.
Proof.
  intros Ha Hb Hk Hab.
  pose proof (of_ratio_nonneg_le a b k Ha Hb Hk Hab) as H.
  unfold py_int_truediv.
  replace (b =? 0) with false by (symmetry; apply Z.eqb_neq; lia).
  destruct (of_ratio a b); simpl in H; try contradiction; auto.
Qed.

Lemma mul_nonneg_le x y a b :
  -1074 <= a + b <= 971 ->
  nonneg_le x a -> nonneg_le y b -> nonneg_le (mul x y) (a + b).
Proof.
  intros Hk Hx Hy. unfold nonneg_le in *.
  destruct x as [sx| | |sx mx ex], y as [sy| | |sy my ey];
    simpl in Hx, Hy; try tauto; try exact I.
  destruct Hx as [-> Hx], Hy as [-> Hy].
  unfold mul, SFmul. cbn [xorb].
  apply (round_float_mag_le false); try lia.
  change (inexact loc_Exact) with 0. rewrite Z.add_0_r.
  pose proof (pow2_pos_exponent _ _ Hx). pose proof (pow2_pos_exponent _ _ Hy).
  replace (a + b - (ex + ey)) with ((a - ex) + (b - ey)) by lia.
  rewrite Z.pow_add_r by lia. rewrite Pos2Z.inj_mul. nia.
Qed.

(** Subtracting [2^k] from a value of [[0, 2^(k+1)]] leaves a magnitude of
    at most [2^k]. *)
Lemma sub_pow2_mag_le x my ey k :
  -1074 <= k <= 971 ->
  nonneg_le x (k + 1) -> Zpos my = 2 ^ (k - ey) ->
  mag_le (sub x (S754_finite false my ey)) k.
Proof.
  intros Hk Hx Hy. unfold nonneg_le in Hx.
  assert (Hke : 0 <= k - ey) by (apply (pow2_pos_exponent my); lia).
  destruct x as [sx| | |sx mx ex]; simpl in Hx; try tauto.
  - simpl. lia.
  - destruct Hx as [-> Hx].
    pose proof (pow2_pos_exponent _ _ Hx) as Hkx.
    unfold sub, SFsub, DBL_MANT_DIG, DBL_MAX_EXP. cbn [cond_Zopp].
    set (ez := Z.min ex ey).
    destruct (shl_align_spec mx ex ez ltac:(unfold ez; lia)) as [HX _].
    destruct (shl_align_spec my ey ez ltac:(unfold ez; lia)) as [HY _].
    rewrite HX, HY, Hy. rewrite <- Z.pow_add_r by lia.
    replace (k - ey + (ey - ez)) with (k - ez) by lia.
    assert (HXb : Zpos mx * 2 ^ (ex - ez) <= 2 ^ (k - ez) * 2).
    { replace (2 ^ (k - ez) * 2) with (2 ^ (k + 1 - ex) * 2 ^ (ex - ez)).
      - apply Z.mul_le_mono_nonneg_r; [apply Z.pow_nonneg; lia|assumption].
      - rewrite <- Z.pow_add_r by (unfold ez; lia).
        replace (k + 1 - ex + (ex - ez)) with (Z.succ (k - ez)) by lia.
        rewrite Z.pow_succ_r by (unfold ez; lia). lia. }
    assert (HXp : 0 < Zpos mx * 2 ^ (ex - ez)).
    { apply Z.mul_pos_pos; [lia|apply Z.pow_pos_nonneg; unfold ez; lia]. }
    set (X := Zpos mx * 2 ^ (ex - ez)) in *.
    set (Y := 2 ^ (k - ez)) in *.
    unfold binary_normalize.
    destruct (X - Y) as [|d|d] eqn:E; [exact I| |];
      (eapply mag_le_signed_weaken; apply binary_round_mag_le; [lia|];
       fold Y; lia).
Qed.

(** The magnitude bound, read on the rational value. *)
Lemma mag_le_1_to_Q x : mag_le x 1 -> (-2 <= to_Q x <= 2)%Q.
Proof.
  destruct x as [s| | |s m e]; cbn [mag_le to_Q]; try contradiction;
    try (intros _; split; discriminate).
  intros H. pose proof (pow2_pos_exponent _ _ H) as He.
  destruct e as [|p|p].
  - change (2 ^ (1 - 0)) with 2 in H.
    destruct s; unfold inject_Z, Qle; cbn [Qnum Qden]; lia.
  - assert (Hp : Zpos p = 1) by lia. rewrite Hp.
    replace (1 - Z.pos p) with 0 in H by lia. change (2 ^ 0) with 1 in H.
    destruct s; unfold inject_Z, Qle; cbn [Qnum Qden]; lia.
  - replace (1 - Z.neg p) with (Z.succ (Zpos p)) in H by lia.
    rewrite Z.pow_succ_r in H by lia.
    destruct s; unfold Qle; cbn [Qnum Qden]; rewrite Pos2Z.inj_pow; lia.
Qed.

End FloatFacts.

(* ================================================================= *)
(** * Facts: parameter derivation *)

Section ParameterFacts.

Import FloatFacts.

Lemma be_uint_range bs : 0 <= be_uint bs < 256 ^ Z.of_nat (List.length bs).
Proof.
  induction bs as [|b rest IH]; cbn [be_uint List.length]; [simpl; lia|].
  rewrite Nat2Z.inj_succ, Z.pow_succ_r by lia.
  pose proof (Byte.to_N_bounded b).
  assert (0 < 256 ^ Z.of_nat (List.length rest)) by (apply Z.pow_pos_nonneg; lia).
  nia.
Qed.

Lemma int_from_bytes_fold bs acc :
  fold_left (fun a b => a * 256 + Z.of_N (Byte.to_N b)) bs acc
  = acc * 256 ^ Z.of_nat (List.length bs) + be_uint bs.
Proof.
  revert acc. induction bs as [|b rest IH]; intros acc;
    cbn [fold_left be_uint List.length]; [simpl; lia|].
  rewrite IH, Nat2Z.inj_succ, Z.pow_succ_r by lia. ring.
Qed.

Lemma int_from_bytes_big_be bs : int_from_bytes_big bs = be_uint bs.
Proof. unfold int_from_bytes_big. rewrite int_from_bytes_fold. lia. Qed.

Lemma mag_le_finite x k : mag_le x k -> is_finite x = true.
Proof. destruct x; simpl; tauto. Qed.

(** [q * 4.0 - 2.0] for a quotient [q] of [[0,1]]. *)
Lemma scale_to_square q :
  nonneg_le q 0 ->
  mag_le (sub (mul q (literal 4 1)) (literal 2 1)) 1.
Proof.
  intros Hq.
  assert (H4 : nonneg_le (literal 4 1) 2) by literal_bound.
  pose proof (mul_nonneg_le q (literal 4 1) 0 2 ltac:(lia) Hq H4) as Hm.
  change (literal 2 1) with (S754_finite false 4503599627370496 (-51)).
  apply sub_pow2_mag_le; [lia|exact Hm|reflexivity].
Qed.

Lemma mag_le_1_in_square re im :
  mag_le re 1 -> mag_le im 1 -> in_square (PyComplex re im).
Proof.
  intros Hr Hi. unfold in_square; cbn [real imag].
  repeat split; eauto using mag_le_finite; now apply mag_le_1_to_Q.
Qed.

(** On eight bytes [bytes_to_complex] raises nothing, computes the number
    of the specification, and lands in the square. *)
Lemma bytes_to_complex_window bs :
  List.length bs = 8%nat ->
  bytes_to_complex bs = Ok (window_to_complex bs) /\
  0 <= be_uint bs < 2 ^ 64 /\
  in_square (window_to_complex bs).
Proof.
  intros Hlen. pose proof (be_uint_range bs) as Hv. rewrite Hlen in Hv.
  change (256 ^ Z.of_nat 8) with (2 ^ 64) in Hv.
  set (v := be_uint bs) in *.
  assert (Hlow : 0 <= Z.land v 0xFFFF <= 2 ^ 16 - 1).
  { change 0xFFFF with (Z.ones 16). rewrite Z.land_ones by lia.
    pose proof (Z.mod_pos_bound v (2 ^ 16) ltac:(lia)). lia. }
  destruct (py_int_truediv_ok v (2 ^ 64 - 1) 0) as [E1 B1]; try lia.
  destruct (py_int_truediv_ok (Z.land v 0xFFFF) (2 ^ 16 - 1) 0) as [E2 B2];
    try lia.
  repeat split; try lia.
  - unfold bytes_to_complex, window_to_complex.
    rewrite int_from_bytes_big_be. fold v. rewrite E1. cbn [bind].
    rewrite E2. reflexivity.
  - apply mag_le_finite with 1. cbn [real window_to_complex]. now apply scale_to_square.
  - apply mag_le_1_to_Q. cbn [real window_to_complex]. now apply scale_to_square.
  - apply mag_le_1_to_Q. cbn [real window_to_complex]. now apply scale_to_square.
  - apply mag_le_finite with 1. cbn [imag window_to_complex]. now apply scale_to_square.
  - apply mag_le_1_to_Q. cbn [imag window_to_complex]. now apply scale_to_square.
  - apply mag_le_1_to_Q. cbn [imag window_to_complex]. now apply scale_to_square.
Qed.

Context {hashlib : Hashlib}.

Lemma slice_length {A} lo hi (l : list A) :
  (hi <= List.length l)%nat -> List.length (slice lo hi l) = (hi - lo)%nat.
Proof.
  intros H. unfold slice. rewrite length_firstn, length_skipn. lia.
Qed.

Lemma slice_from_24 (l : list byte) :
  List.length l = 32%nat -> slice_from 24 l = slice 24 32 l.
Proof.
  intros H. unfold slice_from, slice. symmetry. apply firstn_all2.
  rewrite length_skipn. lia.
Qed.

Lemma windows_length password :
  List.length (alpha_window password) = 8%nat /\
  List.length (beta_window password) = 8%nat /\
  List.length (gamma_window password) = 8%nat.
Proof.
  unfold alpha_window, beta_window, gamma_window.
  rewrite !slice_length
    by (rewrite ?sha256_digest_size, ?sha512_digest_size; lia).
  auto.
Qed.

Lemma generate_parameters_ok password :
  generate_parameters password =
  Ok (window_to_complex (alpha_window password),
      window_to_complex (beta_window password),
      window_to_complex (gamma_window password)).
Proof.
  destruct (windows_length password) as (Ha & Hb & Hg).
  unfold generate_parameters.
  rewrite (slice_from_24 _ (sha256_digest_size _)).
  fold (alpha_window password) (beta_window password) (gamma_window password).
  rewrite (proj1 (bytes_to_complex_window _ Ha)). cbn [bind].
  rewrite (proj1 (bytes_to_complex_window _ Hb)). cbn [bind].
  rewrite (proj1 (bytes_to_complex_window _ Hg)). reflexivity.
Qed.

(** C4. For every password, [generate_parameters] returns the triple
    [bytes_to_complex] gives on SHA-256(p)[0:8], SHA-512(p)[16:24] and
    SHA-256(p)[24:32].  On an 8-byte window [bytes_to_complex] returns,
    for the big-endian unsigned 64-bit value [v] of the window, the complex
    number with real part [(v / (2^64-1)) * 4.0 - 2.0] and imaginary part
    [((v & 0xFFFF) / (2^16-1)) * 4.0 - 2.0], both finite and of the square
    [[-2,2] x [-2,2]]. *)
Theorem generate_parameters_windows (password : string) :
  (exists alpha beta gamma,
     generate_parameters password = Ok (alpha, beta, gamma) /\
     bytes_to_complex (slice 0 8 (sha256 (encode password))) = Ok alpha /\
     bytes_to_complex (slice 16 24 (sha512 (encode password))) = Ok beta /\
     bytes_to_complex (slice 24 32 (sha256 (encode password))) = Ok gamma /\
     in_square alpha /\ in_square beta /\ in_square gamma) /\
  (forall bs, List.length bs = 8%nat ->
     bytes_to_complex bs = Ok (window_to_complex bs) /\
     0 <= be_uint bs < 2 ^ 64 /\
     in_square (window_to_complex bs)).
Proof.
  split; [|exact bytes_to_complex_window].
  destruct (windows_length password) as (Ha & Hb & Hg).
  exists (window_to_complex (alpha_window password)),
         (window_to_complex (beta_window password)),
         (window_to_complex (gamma_window password)).
  split; [apply generate_parameters_ok|].
  destruct (bytes_to_complex_window _ Ha) as (Ea & _ & Sa).
  destruct (bytes_to_complex_window _ Hb) as (Eb & _ & Sb).
  destruct (bytes_to_complex_window _ Hg) as (Eg & _ & Sg).
  exact (conj Ea (conj Eb (conj Eg (conj Sa (conj Sb Sg))))).
Qed.

End ParameterFacts.

(* ================================================================= *)
(** * Facts: the keystream generator *)

Section GeneratorFacts.

Context {hashlib : Hashlib} {numpy : NumPy}.

Lemma io_bind_result {A B} (m : IO A) (k : A -> IO B) w :
  fst (io_bind m k w) =
  match fst (m w) with
  | Ok a => fst (k a (snd (m w)))
  | Raise e => Raise e
  end.
Proof. unfold io_bind. destruct (m w) as [[a|e] w']; reflexivity. Qed.

Lemma keystream_step_result alpha beta gamma start_time length i s w :
  fst (keystream_step alpha beta gamma start_time length i s w)
  = pure_step (errno_seen w (map_calls w)) alpha beta gamma s.
Proof.
  unfold keystream_step, pure_step.
  rewrite io_bind_result.
  assert (Hp : exists w1,
    (if i mod 5000 =? 0
     then io_bind time_time
            (fun now => print (Generated i length (sub now start_time)))
     else io_ret tt) w = (Ok tt, w1) /\
    errno_seen w1 = errno_seen w /\ map_calls w1 = map_calls w).
  { destruct (i mod 5000 =? 0); eexists; split; try reflexivity; auto. }
  destruct Hp as (w1 & -> & He & Hk). cbn [fst snd].
  rewrite io_bind_result. cbn [observe_errno fst snd]. rewrite He, Hk.
  rewrite io_bind_result. unfold io_lift at 1 2. cbn [fst snd].
  destruct (fractal_function _ _ _ _ _ _) as [z|e]; cbn [bind]; [|reflexivity].
  rewrite io_bind_result. unfold io_lift. cbn [fst snd].
  destruct (extract_byte z); reflexivity.
Qed.

(** Each iteration is one call of [fractal_function]. *)
Lemma keystream_step_errno alpha beta gamma start_time length i s w :
  errno_seen (snd (keystream_step alpha beta gamma start_time length i s w))
  = errno_seen w /\
  map_calls (snd (keystream_step alpha beta gamma start_time length i s w))
  = S (map_calls w).
Proof.
  unfold keystream_step, io_bind, io_lift, io_ret, time_time, print,
    observe_errno.
  destruct (i mod 5000 =? 0);
    destruct (fractal_function _ _ _ _ _ _) as [z|e]; try (split; reflexivity);
    destruct (extract_byte z); split; reflexivity.
Qed.

Lemma for_each_result alpha beta gamma start_time length xs s w :
  fst (for_each xs (keystream_step alpha beta gamma start_time length) s w)
  = iterate (errno_seen w) (map_calls w) alpha beta gamma (List.length xs) s.
Proof.
  revert s w. induction xs as [|i xs IH]; intros s w; [reflexivity|].
  cbn [for_each List.length iterate].
  rewrite io_bind_result, keystream_step_result.
  destruct (keystream_step_errno alpha beta gamma start_time length i s w)
    as [He Hk].
  destruct (pure_step _ alpha beta gamma s); cbn [bind]; [|reflexivity].
  rewrite IH, He, Hk. reflexivity.
Qed.

Lemma range_length n : List.length (range n) = Z.to_nat n.
Proof. unfold range. now rewrite length_map, length_seq. Qed.

(** The value [generate_keystream] returns, or the exception it raises,
    depends on the world through [errno] only: the clock and the output
    have no part in it. *)
Lemma generate_keystream_result password length seed w :
  fst (generate_keystream password length seed w)
  = keystream_of (errno_seen w) (map_calls w) password length seed.
Proof.
  unfold generate_keystream, keystream_of.
  rewrite io_bind_result. unfold io_lift at 1 2. cbn [fst snd].
  destruct (generate_parameters password) as [[[alpha beta] gamma]|e];
    cbn [bind]; [|reflexivity].
  rewrite io_bind_result. cbn [print fst snd].
  rewrite io_bind_result. cbn [time_time fst snd].
  rewrite io_bind_result, for_each_result, range_length.
  cbn [errno_seen map_calls].
  destruct (iterate _ _ alpha beta gamma (Z.to_nat length) (seed, []));
    reflexivity.
Qed.

Lemma keystream_of_eq errno k password length seed :
  keystream_of errno k password length seed =
  (s <- iterate errno k
                (window_to_complex (alpha_window password))
                (window_to_complex (beta_window password))
                (window_to_complex (gamma_window password))
                (Z.to_nat length) (seed, []) ;;
   Ok (snd s)).
Proof. unfold keystream_of. now rewrite generate_parameters_ok. Qed.

Lemma land_0xFF_is_byte x : is_byte (Z.land x 0xFF).
Proof.
  unfold is_byte.
  replace (Z.land x 0xFF) with (x mod 256)
    by (symmetry; apply (Z.land_ones x 8); lia).
  pose proof (Z.mod_pos_bound x 256 ltac:(lia)). lia.
Qed.

Lemma extract_byte_range z b : extract_byte z = Ok b -> is_byte b.
Proof.
  unfold extract_byte. intros H.
  repeat match type of H with
         | bind ?m _ = Ok _ => destruct m; cbn [bind] in H; [|discriminate]
         end.
  injection H as <-. apply land_0xFF_is_byte.
Qed.

Lemma pure_step_appends errno alpha beta gamma z ks z' ks' :
  pure_step errno alpha beta gamma (z, ks) = Ok (z', ks') ->
  exists b, ks' = ks ++ [b] /\ is_byte b.
Proof.
  unfold pure_step. cbn [fst snd]. intros H.
  destruct (fractal_function _ _ _ _ _ _) as [z1|]; cbn [bind] in H;
    [|discriminate].
  destruct (extract_byte z1) as [b|] eqn:E; cbn [bind] in H; [|discriminate].
  injection H as <- <-. exists b. split; [reflexivity|].
  eapply extract_byte_range; eassumption.
Qed.

(** [n] iterations append exactly [n] bytes. *)
Lemma iterate_appends errno k alpha beta gamma n z ks z' ks' :
  iterate errno k alpha beta gamma n (z, ks) = Ok (z', ks') ->
  exists bs, ks' = ks ++ bs /\ List.length bs = n /\ Forall is_byte bs.
Proof.
  revert k z ks. induction n as [|n IH]; intros k z ks H; cbn [iterate] in H.
  - injection H as <- <-. exists []. rewrite app_nil_r. auto.
  - destruct (pure_step (errno k) alpha beta gamma (z, ks)) as [[z1 ks1]|] eqn:E;
      cbn [bind] in H; [|discriminate].
    destruct (pure_step_appends _ _ _ _ _ _ _ _ E) as (b & -> & Hb).
    destruct (IH _ _ _ H) as (bs & -> & Hlen & Hall).
    exists (b :: bs). rewrite <- app_assoc. cbn. auto.
Qed.

Lemma iterate_add errno k alpha beta gamma n m s :
  iterate errno k alpha beta gamma (n + m) s =
  (s' <- iterate errno k alpha beta gamma n s ;;
   iterate errno (k + n) alpha beta gamma m s').
Proof.
  revert k s. induction n as [|n IH]; intros k s; cbn [iterate Nat.add bind].
  - now rewrite Nat.add_0_r.
  - destruct (pure_step (errno k) alpha beta gamma s); cbn [bind]; auto.
    rewrite IH. now replace (S k + n)%nat with (k + S n)%nat by lia.
Qed.


(** C6, as amended.  For a negative length the loop body never runs:
    [generate_keystream] returns the empty sequence and signals nothing. *)
Theorem generate_keystream_negative_length
    (password : string) (n : Z) (seed : cnum) (w : world) :
  n < 0 -> fst (generate_keystream password n seed w) = Ok [].
Proof.
  intros Hn. rewrite generate_keystream_result, keystream_of_eq.
  replace (Z.to_nat n) with 0%nat by lia. reflexivity.
Qed.

End GeneratorFacts.

(* ================================================================= *)
(** * Facts: the map step *)

Section MapStepFacts.

Context {hashlib : Hashlib} {numpy : NumPy}.

Import Fixture.

Lemma c_abs_DBL_MAX erange :
  c_abs erange (PyComplex DBL_MAX DBL_MAX) = Raise OverflowError.
Proof. destruct erange; vm_compute; reflexivity. Qed.

(** C3, at the input where the code leaves it.  On the finite input
    [DBL_MAX + DBL_MAX i] the map step returns no value: [abs(z)] of the
    input clamp, which stands before the [try], raises [OverflowError],
    whatever [errno] held before. *)
Theorem fractal_function_raises_at_DBL_MAX
    (errno : errno_view) (alpha beta gamma : cnum) :
  fractal_function errno (PyComplex DBL_MAX DBL_MAX) alpha beta gamma
    default_max_mag
  = Raise OverflowError.
Proof. unfold fractal_function, clamp. now rewrite c_abs_DBL_MAX. Qed.

(** The generator surfaces that exception on its first iteration. *)
Lemma generate_keystream_raises_at_DBL_MAX password n w :
  0 < n ->
  fst (generate_keystream password n (PyComplex DBL_MAX DBL_MAX) w)
  = Raise OverflowError.
Proof.
  intros Hn. rewrite generate_keystream_result, keystream_of_eq.
  destruct (Z.to_nat n) as [|k] eqn:E; [lia|].
  cbn [iterate]. unfold pure_step, fractal_function, clamp. cbn [fst].
  now rewrite c_abs_DBL_MAX.
Qed.

Lemma clamp_zero erange :
  clamp erange (PyComplex zero zero) default_max_mag
  = Ok (PyComplex zero zero).
Proof. destruct erange; vm_compute; reflexivity. Qed.

Lemma extract_byte_zero : extract_byte (PyComplex zero zero) = Ok 0.
Proof. vm_compute. reflexivity. Qed.

(** When a call of the [try] block does raise [OverflowError] or
    [FloatingPointError], [fractal_function] returns [0+0i] (the output
    clamp leaves it unchanged), nothing is raised to the caller, and the
    loop body of the generator goes on: it appends the byte 0 and keeps
    [0+0i] as its state. *)
Lemma fractal_function_catches
    (errno : errno_view) (z z1 alpha beta gamma : cnum) (e : exn) :
  clamp (erange_in errno) z default_max_mag = Ok z1 ->
  map_body (erange_try errno) z1 alpha beta gamma = Raise e ->
  overflow_or_fpe e = true ->
  fractal_function errno z alpha beta gamma default_max_mag
    = Ok (PyComplex zero zero) /\
  forall ks, pure_step errno alpha beta gamma (z, ks)
             = Ok (PyComplex zero zero, ks ++ [0]).
Proof.
  intros Hc Hb He.
  assert (Hf : fractal_function errno z alpha beta gamma default_max_mag
               = Ok (PyComplex zero zero)).
  { unfold fractal_function. rewrite Hc. cbn [bind]. rewrite Hb.
    cbn [try_except]. rewrite He. cbn [bind]. apply clamp_zero. }
  split; [exact Hf|]. intros ks.
  unfold pure_step. cbn [fst snd].
  rewrite Hf. cbn [bind]. now rewrite extract_byte_zero.
Qed.

(** An exception of another kind is not caught. *)
Lemma fractal_function_propagates errno z z1 alpha beta gamma e :
  clamp (erange_in errno) z default_max_mag = Ok z1 ->
  map_body (erange_try errno) z1 alpha beta gamma = Raise e ->
  overflow_or_fpe e = false ->
  fractal_function errno z alpha beta gamma default_max_mag = Raise e.
Proof.
  intros Hc Hb He. unfold fractal_function. rewrite Hc. cbn [bind].
  rewrite Hb. cbn [try_except]. now rewrite He.
Qed.

Lemma real_mk_like a b re im : real (mk_like a b re im) = re.
Proof. unfold mk_like. now destruct (is_numpy a || is_numpy b). Qed.

Lemma imag_mk_like a b re im : imag (mk_like a b re im) = im.
Proof. unfold mk_like. now destruct (is_numpy a || is_numpy b). Qed.

Lemma add_nan_r x : add x nan = nan.
Proof. destruct x; reflexivity. Qed.

Lemma mul_nan_l x : mul nan x = nan.
Proof. reflexivity. Qed.

Lemma mul_nan_r x : mul x nan = nan.
Proof. destruct x; reflexivity. Qed.

End MapStepFacts.

(* ================================================================= *)
(** * Facts: the randomness analyzer *)

Section AnalyzerFloatFacts.

Import FloatFacts.

Lemma Zdigits2_pow2 my j : Zpos my = 2 ^ j -> Zdigits2 (Zpos my) = j + 1.
Proof.
  intros H. pose proof (pow2_pos_exponent my j ltac:(lia)) as Hj.
  cbn [Zdigits2]. rewrite digits2_pos_size.
  pose proof (Pos.size_gt my) as Hgt. pose proof (Pos.size_le my) as Hle.
  apply Pos2Z.pos_lt_pos in Hgt. apply Pos2Z.pos_le_pos in Hle.
  rewrite Pos2Z.inj_pow in Hgt, Hle.
  rewrite H in Hgt. apply Z.pow_lt_mono_r_iff in Hgt; try lia.
  assert (Hle' : 2 ^ Z.pos (Pos.size my) <= 2 ^ (j + 1)).
  { rewrite Z.pow_add_r by lia. change (2 ^ 1) with 2. lia. }
  apply Z.pow_le_mono_r_iff in Hle'; lia.
Qed.

(** Dividing a value of [[0, 2^a]] by [2^b] gives a value of
    [[0, 2^(a-b)]]. *)
Lemma div_pow2_nonneg_le x my ey a b :
  -1074 <= a - b <= 971 ->
  nonneg_le x a -> Zpos my = 2 ^ (b - ey) ->
  nonneg_le (div x (S754_finite false my ey)) (a - b).
Proof.
  intros Hk Hx Hy. unfold nonneg_le in *.
  destruct x as [sx| | |sx mx ex]; simpl in Hx; try contradiction;
    [exact I|].
  destruct Hx as [-> Hx].
  pose proof (pow2_pos_exponent _ _ Hx) as Hax.
  assert (Hby : 0 <= b - ey) by (apply (pow2_pos_exponent my); lia).
  unfold div, SFdiv, SFdiv_core_binary, DBL_MANT_DIG, DBL_MAX_EXP.
  rewrite fexp_eq, (Zdigits2_pow2 my (b - ey) Hy).
  pose proof (Zdigits2_le (Zpos mx) (a - ex) ltac:(lia) Hax Hx) as Hd.
  set (e' := Z.min _ (ex - ey)).
  assert (He : e' <= ex - ey /\ e' <= a - b) by (unfold e'; lia).
  set (m' := match ex - ey - e' with
             | 0 => Z.pos mx
             | Z.pos _ => Z.shiftl (Z.pos mx) (ex - ey - e')
             | Z.neg _ => 0
             end).
  assert (Hm' : m' = Zpos mx * 2 ^ (ex - ey - e')).
  { unfold m'. destruct (ex - ey - e') as [|s|s] eqn:E; try lia.
    rewrite Z.shiftl_mul_pow2 by lia. reflexivity. }
  pose proof (Z_div_mod m' (Zpos my) ltac:(lia)) as Hdm.
  destruct (Z.div_eucl m' (Zpos my)) as [q r]. destruct Hdm as [Hdm Hr].
  assert (Hps : 0 < 2 ^ (ex - ey - e')) by (apply Z.pow_pos_nonneg; lia).
  assert (Hq : 0 <= q) by nia.
  cbn [xorb]. apply (round_float_mag_le false); try lia.
  assert (Hb : m' <= 2 ^ (a - b - e') * Zpos my).
  { rewrite Hm', Hy, <- Z.pow_add_r by lia.
    replace (a - b - e' + (b - ey)) with ((a - ex) + (ex - ey - e')) by lia.
    rewrite Z.pow_add_r by lia.
    apply Z.mul_le_mono_nonneg_r; lia. }
  assert (Hpk : 0 < 2 ^ (a - b - e')) by (apply Z.pow_pos_nonneg; lia).
  destruct (Z.eq_dec r 0) as [->|Hne].
  - rewrite new_location_exact. change (inexact loc_Exact) with 0. nia.
  - pose proof (inexact_range (new_location (Zpos my) r)). nia.
Qed.

Lemma nonneg_le_finite x k : nonneg_le x k -> is_finite x = true.
Proof. destruct x; simpl; tauto. Qed.

(** For a list length [N], the bound [c * N / 2] of the runs test is a
    finite float, whatever the literal [c] of [[0,2]]. *)
Lemma runs_bound_ok c N :
  nonneg_le c 1 -> 0 <= N <= sys_maxsize ->
  runs_bound c N = Ok (div (mul c (of_Z N)) (of_Z 2)) /\
  is_finite (div (mul c (of_Z N)) (of_Z 2)) = true.
Proof.
  intros Hc HN. unfold sys_maxsize in HN.
  destruct (py_float_of_int_ok N 63) as [E M]; [lia|lia|].
  assert (HNn : nonneg_le (of_Z N) 63).
  { unfold of_Z, binary_normalize, DBL_MANT_DIG, DBL_MAX_EXP in *.
    destruct N as [|p|p]; [exact I| |lia].
    apply binary_round_mag_le; [lia|]. rewrite Z.sub_0_r. lia. }
  unfold runs_bound. rewrite E. cbn [bind].
  change (py_float_of_int 2) with (Ok (of_Z 2)). cbn [bind].
  split; [reflexivity|].
  pose proof (mul_nonneg_le c (of_Z N) 1 63 ltac:(lia) Hc HNn) as Hm.
  change (of_Z 2) with (S754_finite false 4503599627370496 (-51)).
  apply nonneg_le_finite with (1 + 63 - 1).
  apply div_pow2_nonneg_le; [lia|exact Hm|reflexivity].
Qed.

(** The comparisons of an [int] with a finite float are those of the
    rationals. *)
Lemma py_int_lt_float_to_Q n x :
  is_finite x = true ->
  (py_int_lt_float n x = true <-> (inject_Z n < to_Q x)%Q) /\
  (py_float_lt_int x n = true <-> (to_Q x < inject_Z n)%Q).
Proof.
  intros Hx. unfold py_int_lt_float, py_float_lt_int, compare_Z.
  destruct x as [s| | |s m e]; try discriminate; cbn [to_Q].
  - unfold Qlt, inject_Z; cbn [Qnum Qden].
    destruct (Z.compare_spec n 0); split; split;
      intros; try discriminate; try reflexivity; lia.
  - set (v := if s then Z.neg m else Z.pos m).
    destruct e as [|p|p]; cbn [Z.leb Z.compare Z.opp].
    + change (2 ^ 0) with 1. rewrite Z.mul_1_r.
      unfold Qlt, inject_Z; cbn [Qnum Qden].
      destruct (Z.compare_spec n v); split; split;
        intros; try discriminate; try reflexivity; lia.
    + unfold Qlt, inject_Z; cbn [Qnum Qden].
      destruct (Z.compare_spec n (v * 2 ^ Z.pos p)); split; split;
        intros; try discriminate; try reflexivity; lia.
    + unfold Qlt, inject_Z; cbn [Qnum Qden]. rewrite Pos2Z.inj_pow.
      change (Z.pos 2) with 2.
      destruct (Z.compare_spec (n * 2 ^ Z.pos p) v); split; split;
        intros; try discriminate; try reflexivity; lia.
Qed.

End AnalyzerFloatFacts.

Section AnalyzerFacts.

Context {numpy : NumPy}.

Import FloatFacts.

Lemma byte_bits_table :
  forallb (fun b => bits_eqb (byte_bits b) (byte_bits_be b)) (range 256) = true.
Proof. vm_compute. reflexivity. Qed.

(** On a byte, the string manipulation of line 103 yields the 8-bit
    big-endian expansion. *)
Lemma byte_bits_is_byte b : is_byte b -> byte_bits b = Ok (byte_bits_be b).
Proof.
  intros Hb. pose proof byte_bits_table as H.
  rewrite forallb_forall in H. specialize (H b).
  assert (Hin : In b (range 256)).
  { unfold range. apply in_map_iff. exists (Z.to_nat b).
    split; [unfold is_byte in Hb; lia|]. apply in_seq. unfold is_byte in Hb. lia. }
  specialize (H Hin). unfold bits_eqb in H.
  destruct (byte_bits b) as [l|]; [|discriminate].
  destruct (list_eq_dec Z.eq_dec l (byte_bits_be b)); [now subst|discriminate].
Qed.

Lemma expand_bits_bytes ks acc :
  Forall is_byte ks -> expand_bits ks acc = Ok (acc ++ bit_expansion ks).
Proof.
  intros H. revert acc. induction H as [|b ks Hb _ IH]; intros acc;
    cbn [expand_bits bit_expansion flat_map].
  - now rewrite app_nil_r.
  - rewrite (byte_bits_is_byte b Hb). cbn [bind].
    rewrite IH, <- app_assoc. reflexivity.
Qed.

Lemma bit_expansion_length ks : len (bit_expansion ks) = 8 * len ks.
Proof.
  unfold len. induction ks as [|b ks IH]; [reflexivity|].
  cbn [bit_expansion flat_map]. rewrite length_app.
  change (flat_map byte_bits_be ks) with (bit_expansion ks).
  cbn [byte_bits_be map List.length]. lia.
Qed.

Lemma bit_expansion_bits ks : Forall is_bit (bit_expansion ks).
Proof.
  induction ks as [|b ks IH]; [constructor|].
  cbn [bit_expansion flat_map]. apply Forall_app. split; [|exact IH].
  unfold byte_bits_be.
  repeat (constructor; [unfold is_bit; destruct (Z.testbit b _); auto|]).
  constructor.
Qed.

Lemma sum_fold l acc : fold_left Z.add l acc = acc + sum l.
Proof.
  unfold sum. revert acc. induction l as [|x l IH]; intros acc;
    cbn [fold_left]; [lia|].
  rewrite IH, (IH (0 + x)). lia.
Qed.

Lemma sum_bits_range bits : Forall is_bit bits -> 0 <= sum bits <= len bits.
Proof.
  unfold len. induction 1 as [|b l Hb _ IH]; [unfold sum; simpl; lia|].
  unfold sum in *. cbn [fold_left List.length]. rewrite sum_fold.
  unfold sum. destruct Hb; subst; lia.
Qed.

(** The index loop of lines 107-110 counts the changes of the sequence. *)
Lemma count_runs_step bits a m acc :
  fold_left
    (fun runs i =>
       if nth (Z.to_nat i) (a :: bits) 0 =? nth (Z.to_nat (i - 1)) (a :: bits) 0
       then runs else runs + 1)
    (map (fun k => 2 + Z.of_nat k) (seq 0 m)) acc
  = fold_left
      (fun runs i =>
         if nth (Z.to_nat i) bits 0 =? nth (Z.to_nat (i - 1)) bits 0
         then runs else runs + 1)
      (map (fun k => 1 + Z.of_nat k) (seq 0 m)) acc.
Proof.
  revert acc. generalize (seq 0 m) as ks.
  induction ks as [|k ks IH]; intros acc; [reflexivity|].
  cbn [map fold_left]. rewrite <- IH.
  replace (Z.to_nat (2 + Z.of_nat k)) with (S (S k)) by lia.
  replace (Z.to_nat (2 + Z.of_nat k - 1)) with (S k) by lia.
  replace (Z.to_nat (1 + Z.of_nat k)) with (S k) by lia.
  replace (Z.to_nat (1 + Z.of_nat k - 1)) with k by lia.
  reflexivity.
Qed.

Lemma count_runs_fold bits acc :
  fold_left
    (fun runs i =>
       if nth (Z.to_nat i) bits 0 =? nth (Z.to_nat (i - 1)) bits 0
       then runs else runs + 1)
    (map (fun k => 1 + Z.of_nat k) (seq 0 (List.length bits - 1))) acc
  = acc + changes bits.
Proof.
  revert acc. induction bits as [|a bits IH]; intros acc; [simpl; lia|].
  destruct bits as [|b bits]; [simpl; lia|].
  replace (List.length (a :: b :: bits) - 1)%nat
    with (S (List.length (b :: bits) - 1)) by (cbn [List.length]; lia).
  rewrite <- cons_seq, <- seq_shift, map_cons, map_map.
  cbn [fold_left].
  rewrite (map_ext (fun x => 1 + Z.of_nat (S x)) (fun k => 2 + Z.of_nat k))
    by (intros; lia).
  rewrite count_runs_step, IH.
  change (Z.to_nat (1 + Z.of_nat 0)) with 1%nat.
  change (Z.to_nat (1 + Z.of_nat 0 - 1)) with 0%nat.
  cbn [nth changes]. destruct (b =? a) eqn:E1; destruct (a =? b) eqn:E2; lia.
Qed.

Lemma count_runs_changes bits : count_runs bits = 1 + changes bits.
Proof.
  unfold count_runs, range_from, len.
  replace (Z.to_nat (Z.of_nat (List.length bits) - 1))
    with (List.length bits - 1)%nat by lia.
  apply count_runs_fold.
Qed.

Lemma nist_empty : nist_randomness_tests [] = Raise ZeroDivisionError.
Proof. reflexivity. Qed.

(** On a non-empty keystream of bytes nothing before the call of
    [corrcoef] raises, and the three entries are the following. *)
Lemma nist_nonempty ks :
  ks <> [] -> Forall is_byte ks -> 8 * len ks <= sys_maxsize ->
  nist_randomness_tests ks =
  (c <- np_corrcoef (removelast (bit_expansion ks)) (tl (bit_expansion ks)) ;;
   Ok {| frequency_test :=
           ltb (literal 486 1000)
               (of_ratio (sum (bit_expansion ks)) (8 * len ks))
           && ltb (of_ratio (sum (bit_expansion ks)) (8 * len ks))
                  (literal 514 1000);
         runs_test :=
           py_float_lt_int (runs_lower (8 * len ks))
                           (1 + changes (bit_expansion ks))
           && py_int_lt_float (1 + changes (bit_expansion ks))
                              (runs_upper (8 * len ks));
         autocorrelation := ltb (fabs c) (literal 2 100) |}).
Proof.
  intros Hne Hb Hlen. unfold nist_randomness_tests.
  rewrite (expand_bits_bytes ks [] Hb). cbn [app bind].
  set (bits := bit_expansion ks).
  assert (HN : len bits = 8 * len ks) by apply bit_expansion_length.
  assert (Hpos : 0 < len ks).
  { unfold len. destruct ks; [congruence|cbn [List.length]; lia]. }
  pose proof (sum_bits_range bits (bit_expansion_bits ks)) as Hs.
  rewrite HN in *.
  destruct (py_int_truediv_ok (sum bits) (8 * len ks) 0) as [E _];
    try lia.
  rewrite E. cbn [bind].
  assert (H9 : nonneg_le (literal 9 10) 1) by literal_bound.
  assert (H11 : nonneg_le (literal 11 10) 1) by literal_bound.
  destruct (runs_bound_ok (literal 9 10) (8 * len ks) H9) as [E9 _]; [lia|].
  destruct (runs_bound_ok (literal 11 10) (8 * len ks) H11) as [E11 _]; [lia|].
  rewrite E9. cbn [bind]. rewrite E11. rewrite count_runs_changes.
  fold (runs_lower (8 * len ks)) (runs_upper (8 * len ks)).
  replace (1 <? 8 * len ks) with true by (symmetry; apply Z.ltb_lt; lia).
  destruct (py_float_lt_int _ _); cbn [bind andb];
    destruct (np_corrcoef _ _); reflexivity.
Qed.

Lemma nist_returns_nonempty ks r :
  nist_randomness_tests ks = Ok r -> ks <> [].
Proof. intros H ->. rewrite nist_empty in H. discriminate. Qed.

(** C7, as amended.  For every non-empty keystream of bytes, of [N = 8 *
    (number of bytes)] bits, the runs test counts [runs = 1 + ] the number
    of positions where consecutive bits of the concatenated big-endian
    8-bit expansions differ, and passes if and only if [runs] lies strictly
    between the values of the two doubles the code computes,
    [(0.9 * N) / 2] and [(1.1 * N) / 2] with the product rounded to the
    nearest double. *)
Theorem runs_test_float_bounds (ks : list Z) (r : report) :
  Forall is_byte ks -> 8 * len ks <= sys_maxsize ->
  nist_randomness_tests ks = Ok r ->
  len (bit_expansion ks) = 8 * len ks /\
  expand_bits ks [] = Ok (bit_expansion ks) /\
  count_runs (bit_expansion ks) = 1 + changes (bit_expansion ks) /\
  (runs_test r = true <->
   (to_Q (runs_lower (8 * len ks))
      < inject_Z (1 + changes (bit_expansion ks)))%Q /\
   (inject_Z (1 + changes (bit_expansion ks))
      < to_Q (runs_upper (8 * len ks)))%Q).
Proof.
  intros Hb Hlen H. pose proof (nist_returns_nonempty ks r H) as Hne.
  rewrite (nist_nonempty ks Hne Hb Hlen) in H.
  destruct (np_corrcoef _ _) as [c|]; cbn [bind] in H; [|discriminate].
  injection H as <-. cbn [runs_test].
  assert (Hpos : 0 <= 8 * len ks <= sys_maxsize) by (unfold len in *; lia).
  assert (H9 : nonneg_le (literal 9 10) 1) by literal_bound.
  assert (H11 : nonneg_le (literal 11 10) 1) by literal_bound.
  destruct (runs_bound_ok _ _ H9 Hpos) as [_ F9].
  destruct (runs_bound_ok _ _ H11 Hpos) as [_ F11].
  fold (runs_lower (8 * len ks)) in F9. fold (runs_upper (8 * len ks)) in F11.
  split; [apply bit_expansion_length|].
  split; [apply (expand_bits_bytes ks [] Hb)|].
  split; [apply count_runs_changes|].
  rewrite andb_true_iff.
  rewrite (proj2 (py_int_lt_float_to_Q _ _ F9)).
  rewrite (proj1 (py_int_lt_float_to_Q _ _ F11)).
  reflexivity.
Qed.

(** Every byte contributes at least eight entries to [bits]. *)
Lemma ints_of_string_length s l :
  ints_of_string s = Ok l -> List.length l = String.length s.
Proof.
  revert l. induction s as [|c s IH]; intros l H; cbn [ints_of_string] in H.
  - now injection H as <-.
  - destruct (int_of_char c); cbn [bind] in H; [|discriminate].
    destruct (ints_of_string s) as [ds|]; cbn [bind] in H; [|discriminate].
    injection H as <-. cbn. now rewrite (IH ds).
Qed.

Lemma zeros_length n s : String.length (zeros n s) = (n + String.length s)%nat.
Proof. induction n; cbn; auto. Qed.

Lemma zfill_length w s : (w <= String.length (zfill w s))%nat.
Proof.
  unfold zfill. destruct s as [|c s]; cbn [String.length].
  - rewrite zeros_length. cbn. lia.
  - destruct (_ || _)%bool; cbn [String.length]; rewrite zeros_length;
      cbn [String.length]; lia.
Qed.

Lemma byte_bits_length b bs : byte_bits b = Ok bs -> (8 <= List.length bs)%nat.
Proof.
  unfold byte_bits. intros H. apply ints_of_string_length in H.
  rewrite H. apply zfill_length.
Qed.

Lemma expand_bits_length ks acc bits :
  expand_bits ks acc = Ok bits ->
  (List.length acc + 8 * List.length ks <= List.length bits)%nat.
Proof.
  revert acc. induction ks as [|b ks IH]; intros acc H; cbn [expand_bits] in H.
  - injection H as <-. cbn. lia.
  - destruct (byte_bits b) as [bs|] eqn:E; cbn [bind] in H; [|discriminate].
    apply IH in H. apply byte_bits_length in E.
    rewrite length_app in H. cbn [List.length]. lia.
Qed.

(** C8, on the code.  Whenever the bit sequence has length at most 1, the
    analyzer raises [ZeroDivisionError] in the frequency test: the
    autocorrelation entry, and its guard for short sequences, is never
    reached, and no report is returned. *)
Theorem short_bit_sequence_raises (ks bits : list Z) :
  expand_bits ks [] = Ok bits -> len bits <= 1 ->
  nist_randomness_tests ks = Raise ZeroDivisionError.
Proof.
  intros H Hlen. apply expand_bits_length in H. unfold len in Hlen.
  destruct ks as [|b ks]; [apply nist_empty|].
  cbn [List.length] in H. lia.
Qed.

(** C10. On the empty keystream the analyzer raises [ZeroDivisionError]
    (the frequency test divides by [len(bits) = 0]) and returns no report.
    On every non-empty keystream of bytes the division [ones / len(bits)]
    is defined, and the report with its three boolean entries is returned
    once numpy's [corrcoef] has returned the coefficient. *)
Theorem nist_division_by_zero_iff_empty (ks : list Z) (c : float) :
  Forall is_byte ks -> 8 * len ks <= sys_maxsize ->
  np_corrcoef (removelast (bit_expansion ks)) (tl (bit_expansion ks)) = Ok c ->
  nist_randomness_tests [] = Raise ZeroDivisionError /\
  (ks <> [] ->
   (exists freq,
      py_int_truediv (sum (bit_expansion ks)) (len (bit_expansion ks))
      = Ok freq) /\
   (exists freq_passed runs_passed,
      nist_randomness_tests ks =
      Ok {| frequency_test := freq_passed;
            runs_test := runs_passed;
            autocorrelation := ltb (fabs c) (literal 2 100) |})).
Proof.
  intros Hb Hlen Hc.
  split; [apply nist_empty|].
  intros Hne. split.
  - assert (Hpos : 0 < len ks).
    { unfold len. destruct ks; [congruence|cbn [List.length]; lia]. }
    pose proof (sum_bits_range _ (bit_expansion_bits ks)) as Hs.
    rewrite bit_expansion_length in *.
    destruct (py_int_truediv_ok (sum (bit_expansion ks)) (8 * len ks) 0)
      as [E _]; try lia.
    eexists; exact E.
  - rewrite (nist_nonempty ks Hne Hb Hlen), Hc. cbn [bind].
    eexists; eexists; reflexivity.
Qed.

End AnalyzerFacts.


(* ================================================================= *)
(** * Facts: rounding is monotone against a representable bound *)


Module FloatOrder.

Import FloatFacts.

Lemma Zdigits2_bounds m : 0 < m -> 2 ^ (Zdigits2 m - 1) <= m < 2 ^ Zdigits2 m.
Proof.
  intros Hm. destruct m as [|p|p]; try lia. cbn [Zdigits2].
  rewrite digits2_pos_size.
  pose proof (Pos.size_le p) as Hs. pose proof (Pos.size_gt p) as Hg.
  apply Pos2Z.pos_le_pos in Hs. apply Pos2Z.pos_lt_pos in Hg.
  rewrite Pos2Z.inj_pow in Hs, Hg.
  replace (Z.pos (Pos.size p)) with (Z.succ (Z.pos (Pos.size p) - 1)) in Hs by lia.
  rewrite Z.pow_succ_r in Hs by lia.
  split; [|exact Hg].
  change (Z.pos p~0) with (2 * Z.pos p) in Hs. lia.
Qed.

Lemma Zdigits2_nonneg m : 0 <= Zdigits2 m.
Proof. destruct m; simpl; lia. Qed.

Lemma Zdigits2_mono a b : 0 <= a <= b -> Zdigits2 a <= Zdigits2 b.
Proof.
  intros [Ha Hab]. destruct (Z.eq_dec a 0) as [->|Hne].
  - apply Zdigits2_nonneg.
  - pose proof (Zdigits2_bounds a ltac:(lia)) as [Ha1 _].
    pose proof (Zdigits2_bounds b ltac:(lia)) as [_ Hb2].
    assert (H : 2 ^ (Zdigits2 a - 1) < 2 ^ Zdigits2 b) by lia.
    apply Z.pow_lt_mono_r_iff in H; [lia | lia | apply Zdigits2_nonneg].
Qed.

Lemma Zdigits2_unique m k : 0 < m -> 2 ^ (k - 1) <= m < 2 ^ k -> Zdigits2 m = k.
Proof.
  intros Hm [H1 H2].
  pose proof (Zdigits2_bounds m Hm) as [B1 B2].
  pose proof (Zdigits2_nonneg m) as Hd.
  assert (Hk : 0 <= k).
  { destruct (Z.lt_ge_cases k 0); [|assumption].
    rewrite Z.pow_neg_r in H2 by assumption. lia. }
  assert (A : 2 ^ (k - 1) < 2 ^ Zdigits2 m) by lia.
  assert (B : 2 ^ (Zdigits2 m - 1) < 2 ^ k) by lia.
  destruct (Z.eq_dec k 0) as [->|].
  - simpl in H2. lia.
  - apply Z.pow_lt_mono_r_iff in A; [|lia|lia].
    apply Z.pow_lt_mono_r_iff in B; [|lia|lia]. lia.
Qed.

Lemma Zdigits2_shift m j :
  0 < m -> 0 <= j -> Zdigits2 (m * 2 ^ j) = Zdigits2 m + j.
Proof.
  intros Hm Hj. pose proof (Zdigits2_bounds m Hm) as [B1 B2].
  assert (Hp : 0 < 2 ^ j) by (apply Z.pow_pos_nonneg; lia).
  assert (Hd : 1 <= Zdigits2 m).
  { destruct m; simpl; lia. }
  apply Zdigits2_unique; [nia|].
  replace (Zdigits2 m + j - 1) with ((Zdigits2 m - 1) + j) by lia.
  rewrite !Z.pow_add_r by lia. nia.
Qed.

(** One alignment step keeps a mantissa, counted with what was shifted out,
    below any integer bound of the new grid. *)
Lemma shr_fexp_le m e l P :
  0 <= m -> 0 <= P ->
  m + inexact l <= P * 2 ^ Z.max (fexp 53 1024 (Zdigits2 m + e) - e) 0 ->
  0 <= shr_m (fst (shr_fexp 53 1024 m e l)) /\
  shr_m (fst (shr_fexp 53 1024 m e l))
    + (if sticky (fst (shr_fexp 53 1024 m e l)) then 1 else 0) <= P /\
  snd (shr_fexp 53 1024 m e l)
    = e + Z.max (fexp 53 1024 (Zdigits2 m + e) - e) 0.
Proof.
  intros Hm HP Hb. unfold shr_fexp.
  set (n := fexp 53 1024 (Zdigits2 m + e) - e) in *.
  set (x := shr_record_of_loc m l).
  assert (Hx : 0 <= shr_m x) by (unfold x; now rewrite shr_m_of_loc).
  destruct (shr_spec x e n Hx) as (He & Hq & Hs).
  rewrite He, Hq. unfold x in Hq, Hs |- *. rewrite shr_m_of_loc in *.
  rewrite sticky_of_loc in Hs.
  pose proof (inexact_range l) as Hi.
  assert (Hpn : 0 < 2 ^ Z.max n 0) by (apply Z.pow_pos_nonneg; lia).
  set (Q := 2 ^ Z.max n 0) in *.
  pose proof (Z.div_mod m Q ltac:(lia)) as Hdm.
  pose proof (Z.mod_pos_bound m Q Hpn) as Hmb.
  split; [apply Z.div_pos; lia|]. split; [|reflexivity].
  destruct (sticky _) eqn:E.
  - destruct (Hs eq_refl) as [Hc|Hc].
    + assert (inexact l = 1) by (destruct l; simpl in *; [discriminate|lia]).
      nia.
    + nia.
  - nia.
Qed.

Lemma fexp_mono a b : a <= b -> fexp 53 1024 a <= fexp 53 1024 b.
Proof. rewrite !fexp_eq. lia. Qed.

(** Rounding is monotone against a representable bound: a value of at most
    [mb * 2^eb], a canonical float, is rounded to at most that float. *)
Lemma round_float_le s m e l mb eb :
  0 <= m ->
  e <= fexp 53 1024 (Zdigits2 m + e) ->
  fexp 53 1024 (Zdigits2 (Zpos mb) + eb) = eb -> eb <= 971 ->
  e <= eb ->
  m + inexact l <= Zpos mb * 2 ^ (eb - e) ->
  le_dyadic s (round_float s m e l) mb eb.
Proof.
  intros Hm Hprec Hcan Hmax Hee Hb.
  pose proof (inexact_range l) as Hi.
  assert (Hpos : forall j, 0 <= j -> 0 < Zpos mb * 2 ^ j).
  { intros j Hj. apply Z.mul_pos_pos; [lia|apply Z.pow_pos_nonneg; lia]. }
  assert (Hdig : forall x e', 0 <= x -> e' <= eb -> x <= Zpos mb * 2 ^ (eb - e') ->
            fexp 53 1024 (Zdigits2 x + e') <= eb).
  { intros x e' Hx He' Hxb.
    apply Z.le_trans with (fexp 53 1024 (Zdigits2 (Zpos mb) + eb)); [|lia].
    apply fexp_mono.
    pose proof (Zdigits2_mono x (Zpos mb * 2 ^ (eb - e')) (conj Hx Hxb)) as Hd.
    rewrite Zdigits2_shift in Hd by lia. lia. }
  unfold round_float, DBL_MANT_DIG, DBL_MAX_EXP, binary_round_aux.
  set (e1 := fexp 53 1024 (Zdigits2 m + e)) in *.
  assert (He1 : e1 <= eb) by (apply Hdig; lia).
  assert (H1 : m + inexact l <= (Zpos mb * 2 ^ (eb - e1)) * 2 ^ Z.max (e1 - e) 0).
  { rewrite <- Z.mul_assoc, <- Z.pow_add_r by lia.
    replace (eb - e1 + Z.max (e1 - e) 0) with (eb - e) by lia. exact Hb. }
  pose proof (shr_fexp_le m e l _ Hm (Z.lt_le_incl _ _ (Hpos (eb - e1) ltac:(lia))) H1)
    as (A1 & A2 & A3).
  fold e1 in A3.
  destruct (shr_fexp 53 1024 m e l) as [x1 e1']. cbn [fst snd] in A1, A2, A3.
  replace (e + Z.max (e1 - e) 0) with e1 in A3 by lia. subst e1'.
  pose proof (round_nearest_even_bounds x1) as Hr.
  set (m2 := round_nearest_even (shr_m x1) (loc_of_shr_record x1)) in *.
  assert (Hm2 : 0 <= m2) by lia.
  assert (Hm2b : m2 <= Zpos mb * 2 ^ (eb - e1)) by lia.
  set (e3 := e1 + Z.max (fexp 53 1024 (Zdigits2 m2 + e1) - e1) 0).
  assert (He3 : e3 <= eb).
  { pose proof (Hdig m2 e1 Hm2 He1 Hm2b). unfold e3. lia. }
  assert (H3 : m2 + inexact loc_Exact
               <= (Zpos mb * 2 ^ (eb - e3))
                  * 2 ^ Z.max (fexp 53 1024 (Zdigits2 m2 + e1) - e1) 0).
  { rewrite <- Z.mul_assoc, <- Z.pow_add_r by (unfold e3; lia).
    replace (eb - e3 + Z.max (fexp 53 1024 (Zdigits2 m2 + e1) - e1) 0)
      with (eb - e1) by (unfold e3; lia).
    change (inexact loc_Exact) with 0. lia. }
  pose proof (shr_fexp_le m2 e1 loc_Exact _ Hm2
                (Z.lt_le_incl _ _ (Hpos (eb - e3) ltac:(lia))) H3)
    as (B1 & B2 & B3).
  fold e3 in B3.
  destruct (shr_fexp 53 1024 m2 e1 loc_Exact) as [x3 e3']. cbn [fst snd] in B1, B2, B3.
  subst e3'.
  assert (B4 : shr_m x3 <= Zpos mb * 2 ^ (eb - e3)) by (destruct (sticky x3); lia).
  destruct (shr_m x3) as [|p|p] eqn:E3; simpl; try lia.
  replace (e3 <=? 971) with true by (symmetry; apply Z.leb_le; lia).
  simpl. auto.
Qed.

Lemma binary_round_le s mx ex mb eb :
  fexp 53 1024 (Zdigits2 (Zpos mb) + eb) = eb -> eb <= 971 ->
  ex <= eb -> Zpos mx <= Zpos mb * 2 ^ (eb - ex) ->
  le_dyadic s (binary_round 53 1024 s mx ex) mb eb.
Proof.
  intros Hcan Hmax Hee Hb. unfold binary_round.
  change (Z.pos (digits2_pos mx)) with (Zdigits2 (Zpos mx)).
  set (e' := fexp 53 1024 (Zdigits2 (Zpos mx) + ex)).
  destruct (Z.le_gt_cases e' ex) as [Hle|Hgt].
  - destruct (shl_align_spec mx ex e' Hle) as [Hm He].
    destruct (shl_align mx ex e') as [mz ez]. cbn [fst snd] in *. subst ez.
    apply round_float_le; try lia.
    + rewrite Hm, Zdigits2_shift by lia.
      replace (Zdigits2 (Z.pos mx) + (ex - e') + e')
        with (Zdigits2 (Z.pos mx) + ex) by lia.
      fold e'. lia.
    + change (inexact loc_Exact) with 0. rewrite Z.add_0_r, Hm.
      replace (eb - e') with ((eb - ex) + (ex - e')) by lia.
      rewrite Z.pow_add_r, Z.mul_assoc by lia.
      apply Z.mul_le_mono_nonneg_r; [apply Z.pow_nonneg; lia|assumption].
  - unfold shl_align. destruct (e' - ex) eqn:E; try lia.
    apply round_float_le; try lia.
    change (inexact loc_Exact) with 0. lia.
Qed.

End FloatOrder.

(* ================================================================= *)
(** * Facts: exact conversions and the byte extraction *)


Module FloatExact.

Import FloatFacts FloatOrder.

Lemma mag_le_weaken x k k' : k <= k' -> mag_le x k -> mag_le x k'.
Proof.
  intros Hk. destruct x as [s| | |s m e]; simpl; auto.
  intros H. pose proof (pow2_pos_exponent _ _ H).
  apply Z.le_trans with (1 := H). apply Z.pow_le_mono_r; lia.
Qed.

Lemma mul_mag_le x y a b :
  -1074 <= a + b <= 971 ->
  mag_le x a -> mag_le y b -> mag_le (mul x y) (a + b).
Proof.
  intros Hk Hx Hy.
  destruct x as [sx| | |sx mx ex], y as [sy| | |sy my ey];
    simpl in Hx, Hy; try tauto; try exact I.
  unfold mul, SFmul.
  apply (mag_le_signed_weaken (xorb sx sy)).
  apply round_float_mag_le; try lia.
  change (inexact loc_Exact) with 0. rewrite Z.add_0_r.
  pose proof (pow2_pos_exponent _ _ Hx). pose proof (pow2_pos_exponent _ _ Hy).
  replace (a + b - (ex + ey)) with ((a - ex) + (b - ey)) by lia.
  rewrite Z.pow_add_r by lia. rewrite Pos2Z.inj_mul. nia.
Qed.

Lemma sub_mag_le x y k :
  -1074 <= k + 1 <= 971 ->
  mag_le x k -> mag_le y k -> mag_le (sub x y) (k + 1).
Proof.
  intros Hk Hx Hy.
  destruct x as [sx| | |sx mx ex], y as [sy| | |sy my ey];
    simpl in Hx, Hy; try tauto.
  - destruct sx, sy; exact I.
  - apply (mag_le_weaken (S754_finite (negb sy) my ey) k); [lia|exact Hy].
  - apply (mag_le_weaken (S754_finite sx mx ex) k); [lia|exact Hx].
  - pose proof (pow2_pos_exponent _ _ Hx) as Hkx.
    pose proof (pow2_pos_exponent _ _ Hy) as Hky.
    unfold sub, SFsub, DBL_MANT_DIG, DBL_MAX_EXP.
    set (ez := Z.min ex ey).
    destruct (shl_align_spec mx ex ez ltac:(unfold ez; lia)) as [HX _].
    destruct (shl_align_spec my ey ez ltac:(unfold ez; lia)) as [HY _].
    assert (Hp : 2 ^ (k + 1 - ez) = 2 * 2 ^ (k - ez)).
    { replace (k + 1 - ez) with (Z.succ (k - ez)) by lia.
      apply Z.pow_succ_r. unfold ez; lia. }
    assert (HXb : Zpos (fst (shl_align mx ex ez)) <= 2 ^ (k - ez)).
    { rewrite HX. replace (k - ez) with ((k - ex) + (ex - ez)) by lia.
      rewrite Z.pow_add_r by (unfold ez; lia).
      apply Z.mul_le_mono_nonneg_r; [apply Z.pow_nonneg; lia|assumption]. }
    assert (HYb : Zpos (fst (shl_align my ey ez)) <= 2 ^ (k - ez)).
    { rewrite HY. replace (k - ez) with ((k - ey) + (ey - ez)) by lia.
      rewrite Z.pow_add_r by (unfold ez; lia).
      apply Z.mul_le_mono_nonneg_r; [apply Z.pow_nonneg; lia|assumption]. }
    set (X := Zpos (fst (shl_align mx ex ez))) in *.
    set (Y := Zpos (fst (shl_align my ey ez))) in *.
    assert (HX0 : 0 < X) by (unfold X; lia).
    assert (HY0 : 0 < Y) by (unfold Y; lia).
    clearbody X Y.
    unfold binary_normalize.
    destruct (cond_Zopp sx X - cond_Zopp sy Y) as [|d|d] eqn:E; [exact I| |];
      (eapply mag_le_signed_weaken; apply binary_round_mag_le; [lia|];
       rewrite Hp; destruct sx, sy; unfold cond_Zopp in E; lia).
Qed.

(** An alignment step that shifts out zeros only is exact. *)
Lemma shr_fexp_exact M E :
  0 <= M ->
  M mod 2 ^ Z.max (fexp 53 1024 (Zdigits2 M + E) - E) 0 = 0 ->
  shr_fexp 53 1024 M E loc_Exact
  = ({| shr_m := M / 2 ^ Z.max (fexp 53 1024 (Zdigits2 M + E) - E) 0;
        shr_r := false; shr_s := false |},
     E + Z.max (fexp 53 1024 (Zdigits2 M + E) - E) 0).
Proof.
  intros HM Hmod. unfold shr_fexp.
  set (n := fexp 53 1024 (Zdigits2 M + E) - E) in *.
  assert (Hx : 0 <= shr_m (shr_record_of_loc M loc_Exact)) by exact HM.
  destruct (shr_spec _ E n Hx) as (He & Hq & Hs).
  destruct (shr (shr_record_of_loc M loc_Exact) E n) as [[m r s] e'].
  cbn [fst snd shr_m] in *. subst e'.
  change (shr_m (shr_record_of_loc M loc_Exact)) with M in *.
  subst m. f_equal.
  unfold sticky in Hs. cbn [shr_r shr_s shr_record_of_loc] in Hs.
  destruct r, s; try reflexivity;
    (destruct (Hs eq_refl) as [Hc|Hc]; [discriminate|contradiction]).
Qed.

Lemma valid_float_finite s m e :
  valid_float (S754_finite s m e) = true ->
  fexp 53 1024 (Zdigits2 (Zpos m) + e) = e /\ e <= 971.
Proof.
  unfold valid_float, valid_binary, bounded, canonical_mantissa,
    DBL_MANT_DIG, DBL_MAX_EXP.
  intros H. apply andb_prop in H. destruct H as [H1 H2].
  apply Z.eqb_eq in H1. apply Z.leb_le in H2. split; [exact H1|lia].
Qed.

Lemma valid_float_digits s m e :
  valid_float (S754_finite s m e) = true ->
  Zdigits2 (Zpos m) <= 53 /\ -1074 <= e.
Proof.
  intros H. apply valid_float_finite in H. destruct H as [H _].
  rewrite fexp_eq in H. lia.
Qed.

(** [float(n)] is exact on the integer value of a float: [float(int(x))] is
    [x] for a float [x] of non-negative exponent. *)
Lemma of_Z_exact m e :
  valid_float (S754_finite false m e) = true -> 0 <= e ->
  of_Z (Zpos m * 2 ^ e) = S754_finite false m e.
Proof.
  intros Hv He. destruct (valid_float_finite _ _ _ Hv) as [Hcan Hmax].
  assert (Hp : 0 < 2 ^ e) by (apply Z.pow_pos_nonneg; lia).
  destruct (Zpos m * 2 ^ e) as [|p|p] eqn:Ep; try lia.
  unfold of_Z, binary_normalize, binary_round, DBL_MANT_DIG, DBL_MAX_EXP.
  change (Z.pos (digits2_pos p)) with (Zdigits2 (Zpos p)).
  assert (Hd : Zdigits2 (Zpos p) = Zdigits2 (Zpos m) + e).
  { rewrite <- Ep. apply Zdigits2_shift; lia. }
  assert (Hf : fexp 53 1024 (Zdigits2 (Zpos p) + 0) = e).
  { rewrite Z.add_0_r, Hd. exact Hcan. }
  rewrite Hf.
  assert (Hsh : shl_align p 0 e = (p, 0)).
  { unfold shl_align. destruct (e - 0) eqn:E0; try reflexivity. lia. }
  rewrite Hsh. unfold binary_round_aux.
  assert (Hmod : Zpos p mod 2 ^ e = 0).
  { rewrite <- Ep. apply Z.mod_mul. lia. }
  rewrite shr_fexp_exact; rewrite ?Hf; try lia;
    replace (Z.max (e - 0) 0) with e by lia; [|exact Hmod].
  cbn [shr_m loc_of_shr_record shr_r shr_s round_nearest_even].
  assert (Hq : Zpos p / 2 ^ e = Zpos m).
  { rewrite <- Ep. apply Z.div_mul. lia. }
  rewrite Hq, Z.add_0_l.
  rewrite shr_fexp_exact; rewrite ?Hcan; try lia;
    replace (Z.max (e - e) 0) with 0 by lia;
    [|apply Z.mod_1_r].
  cbn [shr_m]. rewrite Z.div_1_r, Z.add_0_r.
  replace (e <=? 1024 - 53) with true by (symmetry; apply Z.leb_le; lia).
  reflexivity.
Qed.

Lemma sub_diag s m e :
  sub (S754_finite s m e) (S754_finite s m e) = S754_zero false.
Proof.
  unfold sub, SFsub. rewrite Z.sub_diag. reflexivity.
Qed.

End FloatExact.

Lemma Ok_inj {A} (a b : A) : Ok a = Ok b -> a = b.
Proof. congruence. Qed.

Section ExtractFacts.

Import FloatFacts FloatOrder FloatExact.

(** The fractional part of a non-negative float, lines 81-82: the calls
    return and the difference is a finite float. *)
Lemma frac_part_ok x :
  is_finite x = true -> valid_float x = true ->
  exists n f,
    py_int_of_float (fabs x) = Ok n /\ py_float_of_int n = Ok f /\
    mag_le (sub (fabs x) f) 54.
Proof.
  intros Hf Hv. destruct x as [s| | |s m e]; try discriminate.
  - exists 0, (S754_zero false). repeat split; exact I.
  - assert (Hv' : valid_float (S754_finite false m e) = true) by exact Hv.
    destruct (valid_float_finite _ _ _ Hv') as [Hcan Hmax].
    destruct (valid_float_digits _ _ _ Hv') as [Hd Hmin].
    cbn [fabs SFabs py_int_of_float].
    destruct (Z.leb_spec 0 e) as [He|He].
    + exists (Zpos m * 2 ^ e), (S754_finite false m e).
      split; [reflexivity|]. split.
      * unfold py_float_of_int. now rewrite of_Z_exact.
      * rewrite sub_diag. exact I.
    + pose proof (Zdigits2_bounds (Zpos m) ltac:(lia)) as [_ Hb].
      assert (H53 : Zpos m < 2 ^ 53).
      { apply Z.lt_le_trans with (1 := Hb). apply Z.pow_le_mono_r; lia. }
      assert (Hp : 0 < 2 ^ (- e)) by (apply Z.pow_pos_nonneg; lia).
      assert (Ht : 0 <= Zpos m / 2 ^ (- e) <= Zpos m).
      { split; [apply Z.div_pos; lia|].
        apply Z.div_le_upper_bound; [lia|]. nia. }
      destruct (py_float_of_int_ok (Zpos m / 2 ^ (- e)) 53 ltac:(lia))
        as [E1 E2]; [rewrite Z.abs_eq; lia|].
      exists (Zpos m / 2 ^ (- e)), (of_Z (Zpos m / 2 ^ (- e))).
      split; [reflexivity|]. split; [exact E1|].
      apply (sub_mag_le _ _ 53); [lia| |exact E2].
      cbn [mag_le]. apply Z.le_trans with (2 ^ 53); [lia|].
      apply Z.pow_le_mono_r; lia.
Qed.

(** Lines 83-84: the scaled fractional part is converted without error. *)
Lemma scaled_int_ok fr :
  mag_le fr 54 ->
  py_float_of_int (2 ^ 20) = Ok (of_Z (2 ^ 20)) /\
  exists r, py_int_of_float (mul fr (of_Z (2 ^ 20))) = Ok r.
Proof.
  intros H. split; [reflexivity|].
  assert (Hk : mag_le (of_Z (2 ^ 20)) 20) by (vm_compute; discriminate).
  pose proof (mul_mag_le fr (of_Z (2 ^ 20)) 54 20 ltac:(lia) H Hk) as Hm.
  destruct (mul fr (of_Z (2 ^ 20))) as [s| | |s m e]; simpl in Hm;
    try contradiction; eexists; reflexivity.
Qed.

(** X5. On every state whose two parts are finite floats, the byte
    extraction of lines 81-86 raises nothing and returns an integer of
    [[0,255]]: [int()] is applied to finite values only and [float(int(x))]
    does not overflow. *)
Theorem extract_byte_finite_state (z : cnum) :
  is_finite (real z) = true -> valid_float (real z) = true ->
  is_finite (imag z) = true -> valid_float (imag z) = true ->
  exists b, extract_byte z = Ok b /\ is_byte b.
Proof.
  intros Hfr Hvr Hfi Hvi.
  destruct (frac_part_ok _ Hfr Hvr) as (n1 & f1 & A1 & A2 & A3).
  destruct (frac_part_ok _ Hfi Hvi) as (n2 & f2 & B1 & B2 & B3).
  destruct (scaled_int_ok _ A3) as (K & r1 & R1).
  destruct (scaled_int_ok _ B3) as (_ & r2 & R2).
  unfold extract_byte.
  rewrite A1. cbn [bind]. rewrite A2. cbn [bind].
  rewrite B1. cbn [bind]. rewrite B2. cbn [bind].
  rewrite K. cbn [bind]. rewrite R1. cbn [bind]. rewrite R2. cbn [bind].
  eexists. split; [reflexivity|]. apply land_0xFF_is_byte.
Qed.

Lemma low_byte_of_xor r i :
  Z.land (Z.lxor (Z.land r 0xFFFFFF) (Z.land i 0xFFFFFF)) 0xFF
  = Z.lxor (r mod 256) (i mod 256).
Proof.
  change 256 with (2 ^ 8). rewrite <- !Z.land_ones by lia.
  change 0xFFFFFF with (Z.ones 24). change 0xFF with (Z.ones 8).
  apply Z.bits_inj'. intros n Hn.
  rewrite !Z.land_spec, !Z.lxor_spec, !Z.land_spec.
  rewrite !Z.testbit_ones_nonneg by lia.
  destruct (Z.ltb_spec n 8), (Z.ltb_spec n 24); try lia;
    destruct (Z.testbit r n), (Z.testbit i n); reflexivity.
Qed.

(** X7. The byte of lines 83-86 is the XOR of the low bytes of the two
    scaled fractional parts: the 24-bit masks of lines 83 and 84 have no
    effect on it, and of each [int(frac * 2**20)] only the residue modulo
    256 is used. *)
Theorem extract_byte_low_bits (z : cnum) (b : Z) :
  extract_byte z = Ok b ->
  exists r i,
    scaled_fraction (real z) = Ok r /\
    scaled_fraction (imag z) = Ok i /\
    b = Z.lxor (r mod 256) (i mod 256).
Proof.
  unfold extract_byte, scaled_fraction. intros H.
  destruct (py_int_of_float (fabs (real z))) as [n1|]; cbn [bind] in *;
    [|discriminate H].
  destruct (py_float_of_int n1) as [f1|]; cbn [bind] in *; [|discriminate H].
  destruct (py_int_of_float (fabs (imag z))) as [n2|]; cbn [bind] in *;
    [|discriminate H].
  destruct (py_float_of_int n2) as [f2|]; cbn [bind] in *; [|discriminate H].
  destruct (py_float_of_int (2 ^ 20)) as [k|]; cbn [bind] in *;
    [|discriminate H].
  destruct (py_int_of_float (mul (sub (fabs (real z)) f1) k)) as [r|];
    cbn [bind] in *; [|discriminate H].
  destruct (py_int_of_float (mul (sub (fabs (imag z)) f2) k)) as [i|];
    cbn [bind] in *; [|discriminate H].
  apply Ok_inj in H. exists r, i. rewrite <- H, low_byte_of_xor. auto.
Qed.

End ExtractFacts.

(* ================================================================= *)
(** * Facts: the reduction modulo two pi *)


Section ReductionFacts.

Import FloatFacts FloatOrder FloatExact.

Lemma two_pi_eq : two_pi = S754_finite false 7074237752028440 (-50).
Proof. vm_compute. reflexivity. Qed.

Lemma two_pi_canonical :
  fexp 53 1024 (Zdigits2 (Zpos 7074237752028440) + -50) = -50.
Proof. vm_compute. reflexivity. Qed.

(** The dyadic bound, read on the rational value, for a bound of negative
    exponent. *)
Lemma le_dyadic_to_Q x mb p :
  le_dyadic false x mb (Zneg p) ->
  is_finite x = true /\
  (0 <= to_Q x <= to_Q (S754_finite false mb (Zneg p)))%Q.
Proof.
  destruct x as [s| | |s m e]; cbn [le_dyadic]; try contradiction.
  - intros _. split; [reflexivity|]. cbn [to_Q].
    split; unfold Qle; cbn [Qnum Qden]; lia.
  - intros (-> & He & Hm). split; [reflexivity|].
    destruct e as [|q|q]; try lia. cbn [to_Q].
    split; unfold Qle; cbn [Qnum Qden]; [lia|].
    rewrite !Pos2Z.inj_pow.
    assert (Hq : Zpos p <= Zpos q) by lia.
    replace (Z.neg p - Z.neg q) with (Zpos q - Zpos p) in Hm by lia.
    replace (2 ^ Zpos q) with (2 ^ (Zpos q - Zpos p) * 2 ^ Zpos p).
    + assert (0 < 2 ^ Z.pos p) by (apply Z.pow_pos_nonneg; lia). nia.
    + rewrite <- Z.pow_add_r by lia. f_equal. lia.
Qed.

Lemma py_float_mod_le x mb eb :
  fexp 53 1024 (Zdigits2 (Zpos mb) + eb) = eb -> eb <= 971 ->
  is_finite x = true ->
  exists m, py_float_mod x (S754_finite false mb eb) = Ok m /\
            le_dyadic false m mb eb.
Proof.
  intros Hcan Hmax Hx. unfold py_float_mod.
  change (eqb (S754_finite false mb eb) zero) with false.
  change (ltb (S754_finite false mb eb) zero) with false.
  destruct x as [s| | |sx mx ex]; try discriminate.
  - cbn [fmod]. change (eqb (S754_zero s) zero) with true. cbn [negb].
    eexists. split; [reflexivity|exact I].
  - cbn [fmod].
    set (ez := Z.min ex eb).
    set (X := Zpos mx * 2 ^ (ex - ez)).
    set (Y := Zpos mb * 2 ^ (eb - ez)).
    assert (HY : 0 < Y).
    { apply Z.mul_pos_pos; [lia|apply Z.pow_pos_nonneg; unfold ez; lia]. }
    pose proof (Z.mod_pos_bound X Y HY) as Hr.
    destruct (X mod Y) as [|r|r] eqn:Er; try lia.
    + change (eqb (S754_zero sx) zero) with true.
      eexists. split; [reflexivity|exact I].
    + pose proof (binary_round_le sx r ez mb eb Hcan Hmax
                    ltac:(unfold ez; lia) ltac:(fold Y; lia)) as Hb.
      unfold DBL_MANT_DIG, DBL_MAX_EXP.
      destruct (binary_round 53 1024 sx r ez) as [s'| | |s' m' e'];
        cbn [le_dyadic] in Hb; try contradiction.
      * change (eqb (S754_zero s') zero) with true.
        eexists. split; [reflexivity|exact I].
      * destruct Hb as (-> & He' & Hm').
        replace (eqb (S754_finite sx m' e') zero) with false
          by (destruct sx; reflexivity).
        replace (ltb (S754_finite sx m' e') zero) with sx
          by (destruct sx; reflexivity).
        destruct sx; cbn [Bool.eqb negb].
        -- eexists. split; [reflexivity|].
           unfold add, SFadd, DBL_MANT_DIG, DBL_MAX_EXP.
           replace (Z.min e' eb) with e' by lia.
           destruct (shl_align_spec m' e' e' ltac:(lia)) as [H1 _].
           destruct (shl_align_spec mb eb e' He') as [H2 _].
           rewrite H1, H2, Z.sub_diag, Z.mul_1_r. cbn [cond_Zopp].
           unfold binary_normalize.
           destruct (- Z.pos m' + Z.pos mb * 2 ^ (eb - e')) as [|d|d] eqn:Ed;
             try lia; [exact I|].
           apply binary_round_le; try assumption. lia.
        -- eexists. split; [reflexivity|]. cbn [le_dyadic]. auto.
Qed.

(** X3. The reduction of line 59: for every finite part [x] of the state,
    [x % (2*np.pi)] raises nothing and is a finite float of the closed
    interval [[0, 2*pi]]; the upper end is reached ([-1e-20 % (2*np.pi)] is
    [2*np.pi] itself, the sum [fmod + 2*pi] being rounded). *)
Theorem py_float_mod_two_pi_range (x : float) :
  is_finite x = true ->
  (exists m, py_float_mod x two_pi = Ok m /\ is_finite m = true /\
             (0 <= to_Q m <= to_Q two_pi)%Q) /\
  py_float_mod (literal (-1) (10 ^ 20)) two_pi = Ok two_pi.
Proof.
  intros Hx. split; [|vm_compute; reflexivity]. rewrite two_pi_eq.
  destruct (py_float_mod_le x _ _ two_pi_canonical ltac:(lia) Hx)
    as (m & Em & Hm).
  exists m. split; [exact Em|]. now apply le_dyadic_to_Q.
Qed.

End ReductionFacts.

(* ================================================================= *)
(** * Facts: states that are not finite *)


Section StateFacts.

Context {hashlib : Hashlib} {numpy : NumPy}.

Import FloatFacts FloatOrder FloatExact.

(** X6. On a state with a part that is not finite the byte extraction
    raises at [int(abs(...))]: [ValueError] for a NaN, [OverflowError] for
    an infinity, the real part (line 81) being converted before the
    imaginary one (line 82). *)
Theorem extract_byte_not_finite (z : cnum) :
  valid_float (real z) = true ->
  finite_state z = false ->
  extract_byte z = Raise (extract_byte_error z).
Proof.
  intros Hv Hf. unfold finite_state in Hf. unfold extract_byte_error.
  destruct (real z) as [s|s| |s m e] eqn:Er.
  - (* zero *)
    destruct (frac_part_ok (real z)) as (n & f & A1 & A2 & _);
      [now rewrite Er|now rewrite Er|].
    unfold extract_byte. rewrite A1. cbn [bind]. rewrite A2. cbn [bind].
    cbn [is_finite andb is_nan is_infinite] in *.
    destruct (imag z); try discriminate; reflexivity.
  - unfold extract_byte. rewrite Er. reflexivity.
  - unfold extract_byte. rewrite Er. reflexivity.
  - destruct (frac_part_ok (real z)) as (n & f & A1 & A2 & _);
      [now rewrite Er|now rewrite Er|].
    unfold extract_byte. rewrite A1. cbn [bind]. rewrite A2. cbn [bind].
    cbn [is_finite andb is_nan is_infinite] in *.
    destruct (imag z); try discriminate; reflexivity.
Qed.

(** [abs] reads [errno] on one path only: a Python [complex] with a NaN
    part and no infinite one. *)
Lemma c_abs_numpy erange a b :
  c_abs erange (NpComplex128 a b) = Ok (hypot a b).
Proof. reflexivity. Qed.


Lemma c_abs_clear z :
  finite_state z = false -> c_abs false z = Ok (hypot (real z) (imag z)).
Proof.
  unfold finite_state, c_abs. destruct z as [re im|re im]; cbn [real imag];
    [|reflexivity].
  intros ->. now destruct (is_infinite re || is_infinite im).
Qed.

(** The input clamp on a state that is not finite, when [errno] does not
    hold [ERANGE]: nothing is raised, and a NaN comes out (an infinite part
    makes [z / abs(z)] a NaN). *)
Lemma clamp_not_finite z :
  finite_state z = false ->
  match clamp false z default_max_mag with
  | Ok z' => has_nan z'
  | Raise _ => false
  end = true.
Proof.
  unfold finite_state.
  destruct z as [[s|s| |s m e] [s'|s'| |s' m' e']|[s|s| |s m e] [s'|s'| |s' m' e']];
    cbn [real imag is_finite andb]; try discriminate; intros _;
    vm_compute; reflexivity.
Qed.

Lemma py_float_mod_two_pi_returns x :
  exists m, py_float_mod x two_pi = Ok m /\ (is_nan x = true -> m = nan).
Proof.
  unfold py_float_mod.
  replace (eqb two_pi zero) with false by (vm_compute; reflexivity).
  destruct x as [s|s| |s mx ex].
  - destruct (eqb _ zero); [|destruct (negb _)]; eexists;
      (split; [reflexivity|discriminate]).
  - destruct (eqb _ zero); [|destruct (negb _)]; eexists;
      (split; [reflexivity|discriminate]).
  - exists nan. split; [vm_compute; reflexivity|reflexivity].
  - destruct (eqb _ zero); [|destruct (negb _)]; eexists;
      (split; [reflexivity|discriminate]).
Qed.


Lemma sub_nan_l x : sub nan x = nan.
Proof. reflexivity. Qed.

Lemma sub_nan_r x : sub x nan = nan.
Proof. destruct x; reflexivity. Qed.

Lemma add_nan_l x : add nan x = nan.
Proof. reflexivity. Qed.

Lemma c_mul_nan_r g z :
  has_nan z = true -> real (c_mul g z) = nan /\ imag (c_mul g z) = nan.
Proof.
  unfold has_nan, c_mul. rewrite real_mk_like, imag_mk_like.
  intros H. apply orb_true_iff in H. destruct H as [H|H].
  - destruct (real z); try discriminate.
    rewrite !mul_nan_r, sub_nan_l, add_nan_r. auto.
  - destruct (imag z); try discriminate.
    rewrite !mul_nan_r, sub_nan_r, add_nan_l. auto.
Qed.

Lemma c_mul_nan_l a b :
  real a = nan -> imag a = nan ->
  real (c_mul a b) = nan /\ imag (c_mul a b) = nan.
Proof.
  intros Hr Hi. unfold c_mul. rewrite real_mk_like, imag_mk_like, Hr, Hi.
  rewrite !mul_nan_l. auto.
Qed.

Lemma c_add_nan_r a b :
  real b = nan -> imag b = nan ->
  real (c_add a b) = nan /\ imag (c_add a b) = nan.
Proof.
  intros Hr Hi. unfold c_add. rewrite real_mk_like, imag_mk_like, Hr, Hi.
  rewrite !add_nan_r. auto.
Qed.


(** The result of the arithmetic of the [try] block on a reduced state
    with a NaN: both parts are NaN, whatever the numpy calls returned. *)
Lemma try_result_nan t1 t2 g zs y :
  has_nan zs = true ->
  real (c_add (c_add t1 t2) (c_mul (c_mul g zs) (of_float64 y))) = nan /\
  imag (c_add (c_add t1 t2) (c_mul (c_mul g zs) (of_float64 y))) = nan.
Proof.
  intros Hs. apply c_add_nan_r; apply c_mul_nan_l; apply c_mul_nan_r; exact Hs.
Qed.

(** A NaN in either part of the state makes both parts of the result NaN,
    whenever the numpy calls return and [errno] does not hold [ERANGE]. *)
Lemma map_body_nan z alpha beta gamma :
  numpy_returns -> has_nan z = true ->
  exists r, map_body false z alpha beta gamma = Ok r /\
            real r = nan /\ imag r = nan.
Proof.
  intros (Hsin & Hcos & Hexp) Hz. unfold map_body.
  destruct (py_float_mod_two_pi_returns (real z)) as (zr & Er & Nr).
  destruct (py_float_mod_two_pi_returns (imag z)) as (zi & Ei & Ni).
  rewrite Er. cbn [bind]. rewrite Ei. cbn [bind].
  assert (Hs : has_nan (PyComplex zr zi) = true).
  { unfold has_nan in *. cbn [real imag].
    apply orb_true_iff in Hz. destruct Hz as [H|H].
    - now rewrite (Nr H).
    - rewrite (Ni H). apply orb_true_r. }
  match goal with |- context [np_sin ?p] => destruct (Hsin p) as [q1 E1] end.
  rewrite E1. cbn [np_complex bind].
  match goal with |- context [np_cos ?p] => destruct (Hcos p) as [q2 E2] end.
  rewrite E2. cbn [np_complex bind].
  assert (Ha : c_abs false (PyComplex zr zi) = Ok (hypot zr zi)).
  { apply c_abs_clear. unfold finite_state, has_nan in *. cbn [real imag] in *.
    apply orb_true_iff in Hs. destruct Hs as [H|H];
      [destruct zr|destruct zi]; try discriminate H;
      cbn [is_finite andb]; auto using andb_false_r. }
  rewrite Ha. cbn [bind].
  destruct (Hexp (neg (hypot zr zi))) as [y E3]. rewrite E3. cbn [bind].
  eexists. split; [reflexivity|].
  now apply try_result_nan.
Qed.

Lemma clamp_nan erange z :
  is_numpy z = true ->
  real z = nan -> imag z = nan -> clamp erange z default_max_mag = Ok z.
Proof.
  destruct z as [re im|re im]; cbn [real imag is_numpy]; [discriminate|].
  intros _ -> ->. reflexivity.
Qed.

Lemma map_body_numpy erange z alpha beta gamma r :
  map_body erange z alpha beta gamma = Ok r ->
  exists a b, r = NpComplex128 a b.
Proof.
  unfold map_body. intros H.
  destruct (py_float_mod (real z) two_pi) as [zr|]; cbn [bind] in H;
    [|discriminate H].
  destruct (py_float_mod (imag z) two_pi) as [zi|]; cbn [bind] in H;
    [|discriminate H].
  destruct (np_sin _) as [q1|]; cbn [np_complex bind] in H; [|discriminate H].
  destruct (np_cos _) as [q2|]; cbn [np_complex bind] in H; [|discriminate H].
  destruct (c_abs _ _) as [m|]; cbn [bind] in H; [|discriminate H].
  destruct (np_exp _) as [e|]; cbn [bind] in H; [|discriminate H].
  apply Ok_inj in H. subst r.
  unfold c_add at 1. unfold mk_like.
  replace (is_numpy (c_add (NpComplex128 (fst q1) (snd q1))
                           (c_mul beta (NpComplex128 (fst q2) (snd q2)))))
    with true by reflexivity.
  cbn [orb]. eauto.
Qed.

Lemma pure_step_not_finite errno alpha beta gamma z ks :
  numpy_returns -> finite_state z = false ->
  erange_in errno = false -> erange_try errno = false ->
  pure_step errno alpha beta gamma (z, ks) = Raise ValueError.
Proof.
  intros Hnp Hz E1 E2. unfold pure_step, fractal_function. cbn [fst snd].
  rewrite E1, E2.
  pose proof (clamp_not_finite z Hz) as Hc.
  destruct (clamp false z default_max_mag) as [z1|]; [|discriminate].
  cbn [bind].
  destruct (map_body_nan z1 alpha beta gamma Hnp Hc) as (r & Eb & Hr & Hi).
  rewrite Eb. cbn [try_except bind].
  destruct (map_body_numpy _ _ _ _ _ _ Eb) as (a & b & ->).
  rewrite (clamp_nan _ (NpComplex128 a b) eq_refl Hr Hi). cbn [bind].
  unfold extract_byte. rewrite Hr. reflexivity.
Qed.

(** X8. A seed with a NaN or an infinite part makes the generator raise
    [ValueError] on its first iteration, for every password and every
    length [n >= 1], whenever the numpy calls of the map step return and
    the first iteration does not find [ERANGE] in [errno]: an infinite part
    becomes a NaN in the input clamp, a NaN goes through the map step, and
    [int()] of line 81 raises on it.  No byte is returned. *)
Theorem generate_keystream_seed_not_finite
    (password : string) (n : Z) (seed : cnum) (w : world) :
  0 < n -> numpy_returns -> finite_state seed = false ->
  erange_in (errno_seen w (map_calls w)) = false ->
  erange_try (errno_seen w (map_calls w)) = false ->
  fst (generate_keystream password n seed w) = Raise ValueError.
Proof.
  intros Hn Hnp Hs E1 E2. rewrite generate_keystream_result, keystream_of_eq.
  destruct (Z.to_nat n) as [|k] eqn:E; [lia|].
  cbn [iterate]. now rewrite pure_step_not_finite.
Qed.

Lemma clamp_numpy_overflow erange a b :
  is_finite a = true -> is_finite b = true ->
  hypot a b = S754_infinity false ->
  exists s1 s2,
    clamp erange (NpComplex128 a b) default_max_mag
    = Ok (NpComplex128 (S754_zero s1) (S754_zero s2)).
Proof.
  intros Ha Hb Hh. unfold clamp, c_abs. cbn [real imag bind]. rewrite Hh.
  replace (ltb default_max_mag (S754_infinity false)) with true
    by (vm_compute; reflexivity).
  destruct a as [sa| | |sa ma ea]; try discriminate;
    destruct b as [sb| | |sb mb eb]; try discriminate;
    try (cbn in Hh; discriminate).
  destruct sa, sb; vm_compute; do 2 eexists; reflexivity.
Qed.

(** X4. When the result of the [try] block is a numpy complex with finite
    parts whose modulus overflows ([abs] returns [inf]), the output clamp
    [result / abs(result) * max_mag] does not bring it to modulus
    [max_mag]: it returns a zero, and nothing is raised. *)
Theorem fractal_function_modulus_overflow_gives_zero
    (errno : errno_view) (z z1 alpha beta gamma : cnum) (a b : float) :
  clamp (erange_in errno) z default_max_mag = Ok z1 ->
  map_body (erange_try errno) z1 alpha beta gamma = Ok (NpComplex128 a b) ->
  is_finite a = true -> is_finite b = true ->
  hypot a b = S754_infinity false ->
  exists s1 s2,
    fractal_function errno z alpha beta gamma default_max_mag
    = Ok (NpComplex128 (S754_zero s1) (S754_zero s2)).
Proof.
  intros Hc Hm Ha Hb Hh. unfold fractal_function.
  rewrite Hc. cbn [bind]. rewrite Hm. cbn [try_except bind].
  now apply clamp_numpy_overflow.
Qed.

End StateFacts.


(* ================================================================= *)
(** * Facts: short inputs of the parameter derivation, and the output of the generator *)


Section MoreParameterFacts.

Import FloatFacts.

Lemma be_uint_app bs cs :
  be_uint (bs ++ cs)
  = be_uint bs * 256 ^ Z.of_nat (List.length cs) + be_uint cs.
Proof.
  induction bs as [|b rest IH]; cbn [be_uint app List.length]; [lia|].
  rewrite IH, length_app, Nat2Z.inj_add, Z.pow_add_r by lia. ring.
Qed.

Lemma bytes_to_complex_le8 bs :
  (List.length bs <= 8)%nat ->
  bytes_to_complex bs = Ok (window_to_complex bs) /\
  in_square (window_to_complex bs).
Proof.
  intros Hlen. pose proof (be_uint_range bs) as Hv.
  assert (Hp : 256 ^ Z.of_nat (List.length bs) <= 2 ^ 64).
  { change (2 ^ 64) with (256 ^ 8). apply Z.pow_le_mono_r; lia. }
  set (v := be_uint bs) in *.
  assert (Hlow : 0 <= Z.land v 0xFFFF <= 2 ^ 16 - 1).
  { change 0xFFFF with (Z.ones 16). rewrite Z.land_ones by lia.
    pose proof (Z.mod_pos_bound v (2 ^ 16) ltac:(lia)). lia. }
  destruct (py_int_truediv_ok v (2 ^ 64 - 1) 0) as [E1 B1]; try lia.
  destruct (py_int_truediv_ok (Z.land v 0xFFFF) (2 ^ 16 - 1) 0) as [E2 B2];
    try lia.
  split.
  - unfold bytes_to_complex, window_to_complex.
    rewrite int_from_bytes_big_be. fold v. rewrite E1. cbn [bind].
    rewrite E2. reflexivity.
  - apply mag_le_1_in_square; now apply scale_to_square.
Qed.

Lemma low_bytes_land pre b6 b7 :
  Z.land (be_uint (pre ++ [b6; b7])) 0xFFFF
  = 256 * Z.of_N (Byte.to_N b6) + Z.of_N (Byte.to_N b7).
Proof.
  rewrite be_uint_app. cbn [be_uint List.length].
  change 0xFFFF with (Z.ones 16). rewrite Z.land_ones by lia.
  pose proof (Byte.to_N_bounded b6). pose proof (Byte.to_N_bounded b7).
  change (256 ^ Z.of_nat 2) with (2 ^ 16).
  change (256 ^ Z.of_nat 1) with 256. change (256 ^ Z.of_nat 0) with 1.
  rewrite Z.add_comm, Z.mod_add by lia.
  rewrite Z.mod_small; lia.
Qed.

(** X1. [bytes_to_complex] on every byte string of at most 8 bytes, the
    empty one included, raises nothing and returns a number of the square
    [[-2,2] x [-2,2]]: the integer value is below [2**64]. *)
Theorem bytes_to_complex_short (bs : list byte) :
  (List.length bs <= 8)%nat ->
  bytes_to_complex bs = Ok (window_to_complex bs) /\
  in_square (window_to_complex bs).
Proof. apply bytes_to_complex_le8. Qed.

(** X2. The imaginary part [bytes_to_complex] returns depends on the last
    two bytes of its argument only: [int_val & 0xFFFF] is their big-endian
    value.  An 8-byte window therefore yields at most 65536 imaginary
    parts. *)
Theorem bytes_to_complex_imag_low_bytes (pre : list byte) (b6 b7 : byte) :
  (List.length pre <= 6)%nat ->
  exists re,
    bytes_to_complex (pre ++ [b6; b7])
    = Ok (PyComplex re (imag_of_low_bytes b6 b7)).
Proof.
  intros Hlen.
  destruct (bytes_to_complex_le8 (pre ++ [b6; b7])) as [E _].
  { rewrite length_app. cbn [List.length]. lia. }
  rewrite E. unfold window_to_complex. rewrite low_bytes_land.
  eexists. reflexivity.
Qed.

End MoreParameterFacts.

Section OutputFacts.

Context {hashlib : Hashlib} {numpy : NumPy}.

Lemma keystream_step_world alpha beta gamma start_time length i s w :
  snd (keystream_step alpha beta gamma start_time length i s w)
  = {| clock := clock w;
       clock_reads := if i mod 5000 =? 0 then S (clock_reads w)
                      else clock_reads w;
       stdout := stdout w
                 ++ progress_lines (clock w) start_time length (clock_reads w)
                      [i];
       errno_seen := errno_seen w;
       map_calls := S (map_calls w) |}.
Proof.
  unfold keystream_step, io_bind, io_lift, io_ret, time_time, print,
    observe_errno. cbn [progress_lines].
  destruct w as [c r o e k]. cbn [clock clock_reads stdout errno_seen map_calls].
  destruct (i mod 5000 =? 0);
    destruct (fractal_function _ _ _ _ _ _) as [z|x];
    cbn [fst snd clock clock_reads stdout errno_seen map_calls];
    rewrite ?app_nil_r; try reflexivity;
    destruct (extract_byte z); rewrite ?app_nil_r; reflexivity.
Qed.

Lemma for_each_world alpha beta gamma start_time length xs s w s' :
  fst (for_each xs (keystream_step alpha beta gamma start_time length) s w)
  = Ok s' ->
  snd (for_each xs (keystream_step alpha beta gamma start_time length) s w)
  = {| clock := clock w;
       clock_reads := (clock_reads w + List.length (marks xs))%nat;
       stdout := stdout w
                 ++ progress_lines (clock w) start_time length (clock_reads w)
                      xs;
       errno_seen := errno_seen w;
       map_calls := (map_calls w + List.length xs)%nat |}.
Proof.
  revert s w. induction xs as [|i xs IH]; intros s w H.
  - cbn. rewrite app_nil_r, !Nat.add_0_r. now destruct w.
  - cbn [for_each] in *. unfold io_bind in *.
    pose proof (keystream_step_world alpha beta gamma start_time length i s w)
      as Hw.
    destruct (keystream_step alpha beta gamma start_time length i s w)
      as [[s1|e] w1]; [|discriminate].
    cbn [snd] in Hw. rewrite (IH s1 w1 H), Hw.
    cbn [clock clock_reads stdout errno_seen map_calls].
    unfold marks. cbn [filter progress_lines List.length].
    destruct (i mod 5000 =? 0); cbn [List.length];
      rewrite <- ?app_assoc; cbn [app]; f_equal; lia.
Qed.

Lemma marks_range k :
  List.length (marks (map Z.of_nat (seq 0 k)))
  = Z.to_nat ((Z.of_nat k + 4999) / 5000).
Proof.
  induction k as [|k IH]; [reflexivity|].
  rewrite seq_S, map_app. unfold marks in *. rewrite filter_app, length_app, IH.
  cbn [map filter Nat.add].
  assert (H0 : 0 <= Z.of_nat k) by lia.
  assert (Hq : 0 <= (Z.of_nat k + 4999) / 5000) by (apply Z.div_pos; lia).
  destruct (Z.of_nat k mod 5000 =? 0) eqn:E; cbn [List.length].
  - apply Z.eqb_eq in E.
    replace ((Z.of_nat (S k) + 4999) / 5000)
      with ((Z.of_nat k + 4999) / 5000 + 1); [lia|].
    rewrite Nat2Z.inj_succ. clear IH. Z.div_mod_to_equations. lia.
  - apply Z.eqb_neq in E.
    replace ((Z.of_nat (S k) + 4999) / 5000)
      with ((Z.of_nat k + 4999) / 5000); [lia|].
    rewrite Nat2Z.inj_succ. clear IH. Z.div_mod_to_equations. lia.
Qed.

Lemma progress_lines_app clock start_time length k xs ys :
  progress_lines clock start_time length k (xs ++ ys)
  = progress_lines clock start_time length k xs
    ++ progress_lines clock start_time length (k + List.length (marks xs)) ys.
Proof.
  revert k. induction xs as [|i xs IH]; intros k; cbn [app progress_lines].
  - now rewrite Nat.add_0_r.
  - unfold marks. cbn [filter].
    destruct (i mod 5000 =? 0); cbn [List.length app]; rewrite IH;
      [|reflexivity].
    do 3 f_equal. unfold marks. lia.
Qed.

(** Over [range(n)] the loop prints at the indices 0, 5000, 10000, ... *)
Lemma progress_lines_range clock start_time length k n :
  progress_lines clock start_time length k (map Z.of_nat (seq 0 n))
  = map (fun j => Generated (5000 * Z.of_nat j) length
                    (sub (clock (k + j)%nat) start_time))
        (seq 0 (Z.to_nat ((Z.of_nat n + 4999) / 5000))).
Proof.
  induction n as [|n IH]; [reflexivity|].
  rewrite seq_S, map_app, progress_lines_app, IH, marks_range.
  cbn [map Nat.add progress_lines].
  assert (Hq : 0 <= (Z.of_nat n + 4999) / 5000) by (apply Z.div_pos; lia).
  destruct (Z.of_nat n mod 5000 =? 0) eqn:E.
  - apply Z.eqb_eq in E.
    assert (Hc : (Z.of_nat (S n) + 4999) / 5000
                 = (Z.of_nat n + 4999) / 5000 + 1).
    { rewrite Nat2Z.inj_succ. clear IH. Z.div_mod_to_equations. lia. }
    assert (Hn : Z.of_nat n = 5000 * ((Z.of_nat n + 4999) / 5000)).
    { clear IH Hc. Z.div_mod_to_equations. lia. }
    rewrite Hc, Z2Nat.inj_add by lia.
    change (Z.to_nat 1) with 1%nat. rewrite Nat.add_1_r, seq_S, map_app.
    cbn [map Nat.add]. rewrite Z2Nat.id by lia. rewrite <- Hn. reflexivity.
  - apply Z.eqb_neq in E.
    assert (Hc : (Z.of_nat (S n) + 4999) / 5000
                 = (Z.of_nat n + 4999) / 5000).
    { rewrite Nat2Z.inj_succ. clear IH. Z.div_mod_to_equations. lia. }
    rewrite Hc, app_nil_r. reflexivity.
Qed.

(** X9. What a returning call writes and reads.  [generate_keystream]
    prints the line [Generating <length> bytes...] and then one progress
    line for each multiple of 5000 below [length], in increasing order:
    the [j]-th one carries the index [5000 * j] and the time elapsed
    between the first reading of the clock and the reading made for that
    line.  There are [ceil(length / 5000)] progress lines (none for
    [length <= 0]); the clock is read once more than that, and the loop
    makes [length] calls of [fractal_function]. *)
Theorem generate_keystream_output
    (password : string) (length : Z) (seed : cnum) (w : world)
    (ks : list Z) :
  fst (generate_keystream password length seed w) = Ok ks ->
  snd (generate_keystream password length seed w)
  = {| clock := clock w;
       clock_reads := (S (clock_reads w)
                       + Z.to_nat (progress_count length))%nat;
       stdout := stdout w ++ Generating length
                 :: map (progress_line w length)
                        (seq 0 (Z.to_nat (progress_count length)));
       errno_seen := errno_seen w;
       map_calls := (map_calls w + Z.to_nat length)%nat |}.
Proof.
  unfold generate_keystream, io_bind, io_lift, io_ret. intros H.
  destruct (generate_parameters password) as [[[alpha beta] gamma]|e];
    [|discriminate].
  cbn [print time_time fst snd clock clock_reads stdout errno_seen map_calls]
    in *.
  set (w1 := {| clock := clock w; clock_reads := S (clock_reads w);
                stdout := stdout w ++ [Generating length];
                errno_seen := errno_seen w; map_calls := map_calls w |}) in *.
  set (step := keystream_step alpha beta gamma (clock w (clock_reads w)) length)
    in *.
  destruct (for_each (range length) step (seed, []) w1) as [[s'|e] w2] eqn:E;
    [|discriminate].
  pose proof (for_each_world alpha beta gamma (clock w (clock_reads w)) length
                (range length) (seed, []) w1 s') as Hw.
  fold step in Hw. rewrite E in Hw. cbn [fst snd] in Hw |- *.
  rewrite (Hw eq_refl). unfold w1, range, progress_count, progress_line.
  cbn [clock clock_reads stdout errno_seen map_calls].
  rewrite marks_range, progress_lines_range, length_map, length_seq.
  rewrite <- app_assoc. cbn [app].
  replace (Z.of_nat (Z.to_nat length)) with (Z.max length 0) by lia.
  reflexivity.
Qed.

End OutputFacts.

(* ================================================================= *)
(** * Facts: the bit expansion of the analyzer *)


Section ExpansionFacts.

Context {numpy : NumPy}.

Import FloatFacts.

Lemma ints_of_string_zeros n s l :
  ints_of_string s = Ok l ->
  ints_of_string (zeros n s) = Ok (repeat 0 n ++ l).
Proof.
  intros H. induction n as [|n IH]; [exact H|].
  cbn [zeros ints_of_string repeat app]. rewrite IH. reflexivity.
Qed.

Lemma ints_of_string_zeros_raise n s e :
  ints_of_string s = Raise e -> ints_of_string (zeros n s) = Raise e.
Proof.
  intros H. induction n as [|n IH]; [exact H|].
  cbn [zeros ints_of_string]. rewrite IH. reflexivity.
Qed.

Lemma ints_of_string_bin_digits p s l :
  ints_of_string s = Ok l ->
  ints_of_string (bin_digits p s) = Ok (pos_bits p l).
Proof.
  revert s l. induction p as [p IH|p IH|]; intros s l H;
    cbn [bin_digits pos_bits].
  - apply IH. cbn [ints_of_string]. rewrite H. reflexivity.
  - apply IH. cbn [ints_of_string]. rewrite H. reflexivity.
  - cbn [ints_of_string]. rewrite H. reflexivity.
Qed.

Lemma bin_digits_head p s : exists rest, bin_digits p s = String "1" rest.
Proof.
  revert s. induction p as [p IH|p IH|]; intros s; cbn [bin_digits]; eauto.
Qed.

Lemma bin_digits_length p s :
  String.length (bin_digits p s) = (Pos.to_nat (Pos.size p) + String.length s)%nat.
Proof.
  revert s. induction p as [p IH|p IH|]; intros s;
    cbn [bin_digits Pos.size]; rewrite ?IH; cbn [String.length]; lia.
Qed.

Lemma pos_bits_length p acc :
  List.length (pos_bits p acc) = (Pos.to_nat (Pos.size p) + List.length acc)%nat.
Proof.
  revert acc. induction p as [p IH|p IH|]; intros acc;
    cbn [pos_bits Pos.size]; rewrite ?IH; cbn [List.length]; lia.
Qed.

Lemma pos_bits_bits p acc : Forall is_bit acc -> Forall is_bit (pos_bits p acc).
Proof.
  revert acc. induction p as [p IH|p IH|]; intros acc H; cbn [pos_bits];
    [apply IH| apply IH|]; constructor; unfold is_bit; auto.
Qed.

Lemma bits_value_fold l a :
  fold_left (fun acc d => 2 * acc + d) l a
  = a * 2 ^ Z.of_nat (List.length l) + bits_value l.
Proof.
  unfold bits_value. revert a. induction l as [|d l IH]; intros a;
    cbn [fold_left List.length]; [simpl; lia|].
  rewrite IH, (IH (2 * 0 + d)), Nat2Z.inj_succ, Z.pow_succ_r by lia. ring.
Qed.

Lemma bits_value_cons d l :
  bits_value (d :: l) = d * 2 ^ Z.of_nat (List.length l) + bits_value l.
Proof.
  unfold bits_value at 1. cbn [fold_left]. rewrite bits_value_fold. ring.
Qed.

Lemma bits_value_pos_bits p acc :
  bits_value (pos_bits p acc)
  = Zpos p * 2 ^ Z.of_nat (List.length acc) + bits_value acc.
Proof.
  revert acc. induction p as [p IH|p IH|]; intros acc; cbn [pos_bits].
  - rewrite IH, bits_value_cons. cbn [List.length].
    rewrite Nat2Z.inj_succ, Z.pow_succ_r by lia. lia.
  - rewrite IH, bits_value_cons. cbn [List.length].
    rewrite Nat2Z.inj_succ, Z.pow_succ_r by lia. lia.
  - rewrite bits_value_cons. lia.
Qed.

Lemma bits_value_zeros n l : bits_value (repeat 0 n ++ l) = bits_value l.
Proof.
  induction n as [|n IH]; [reflexivity|].
  cbn [repeat app]. rewrite bits_value_cons, IH. lia.
Qed.

(** Line 103 on a positive integer. *)
Lemma byte_bits_pos p :
  byte_bits (Zpos p)
  = Ok (repeat 0 (8 - Pos.to_nat (Pos.size p)) ++ pos_bits p []).
Proof.
  unfold byte_bits. cbn [bin]. cbn [append str_from].
  unfold zfill. rewrite bin_digits_length. cbn [String.length].
  rewrite Nat.add_0_r.
  destruct (bin_digits_head p "") as [rest E].
  rewrite E at 1.
  change (Ascii.eqb "1" "+" || Ascii.eqb "1" "-")%bool with false. cbv iota.
  apply ints_of_string_zeros, ints_of_string_bin_digits. reflexivity.
Qed.

Lemma byte_bits_neg p : byte_bits (Zneg p) = Raise ValueError.
Proof.
  unfold byte_bits. cbn [bin]. cbn [append str_from].
  unfold zfill.
  change (Ascii.eqb "b" "+" || Ascii.eqb "b" "-")%bool with false. cbv iota.
  apply ints_of_string_zeros_raise. reflexivity.
Qed.

Lemma bit_length_log2 b : 0 < b -> bit_length b = Z.log2 b + 1.
Proof.
  destruct b as [|p|p]; try lia. intros _. cbn [bit_length].
  destruct p; cbn [Z.log2 Pos.size]; lia.
Qed.

(** X13. Line 103 on an element [b >= 0] of any size: the list of bits
    [[int(d) for d in bin(b)[2:].zfill(8)]] is returned, its entries are 0
    or 1, read as a binary numeral (most significant first) it is [b], and
    it has [max(8, b.bit_length())] entries: an element above 255
    contributes more than 8 bits. *)
Theorem byte_bits_round_trip (b : Z) :
  0 <= b ->
  exists bits,
    byte_bits b = Ok bits /\
    Forall is_bit bits /\
    bits_value bits = b /\
    len bits = Z.max 8 (bit_length b).
Proof.
  intros Hb. destruct b as [|p|p]; try lia.
  - exists (repeat 0 8). split; [reflexivity|].
    split; [repeat constructor|]. split; reflexivity.
  - eexists. split; [apply byte_bits_pos|].
    split; [|split].
    + apply Forall_app. split.
      * apply Forall_forall. intros x Hx. apply repeat_spec in Hx.
        left. exact Hx.
      * apply pos_bits_bits. constructor.
    + rewrite bits_value_zeros, bits_value_pos_bits. cbn. lia.
    + unfold len. rewrite length_app, repeat_length, pos_bits_length.
      cbn [List.length bit_length]. lia.
Qed.

Lemma expand_bits_negative ks acc :
  Exists (fun b => b < 0) ks -> expand_bits ks acc = Raise ValueError.
Proof.
  intros H. revert acc. induction H as [b ks Hb|b ks _ IH]; intros acc;
    cbn [expand_bits].
  - destruct b as [|p|p]; try lia. now rewrite byte_bits_neg.
  - destruct b as [|p|p].
    + change (byte_bits 0) with (Ok (repeat 0 8)). cbn [bind]. apply IH.
    + rewrite byte_bits_pos. cbn [bind]. apply IH.
    + now rewrite byte_bits_neg.
Qed.

(** X14. A keystream with a negative element makes the analyzer raise
    [ValueError]: [bin(b)[2:]] of a negative [b] starts with the letter
    [b], on which [int()] fails.  No report is returned. *)
Theorem nist_negative_element (ks : list Z) :
  Exists (fun b => b < 0) ks ->
  nist_randomness_tests ks = Raise ValueError.
Proof.
  intros H. unfold nist_randomness_tests.
  now rewrite expand_bits_negative.
Qed.


Lemma complement_table :
  forallb (fun b => if list_eq_dec Z.eq_dec (byte_bits_be (byte_complement b))
                                   (map bit_flip (byte_bits_be b))
                    then true else false) (range 256) = true.
Proof. vm_compute. reflexivity. Qed.

Lemma byte_bits_be_complement b :
  is_byte b ->
  byte_bits_be (byte_complement b) = map bit_flip (byte_bits_be b).
Proof.
  intros Hb. pose proof complement_table as H.
  rewrite forallb_forall in H. specialize (H b).
  assert (Hin : In b (range 256)).
  { unfold range. apply in_map_iff. exists (Z.to_nat b).
    split; [unfold is_byte in Hb; lia|]. apply in_seq. unfold is_byte in Hb. lia. }
  specialize (H Hin).
  destruct (list_eq_dec Z.eq_dec _ _); [assumption|discriminate].
Qed.

Lemma bit_expansion_complement ks :
  Forall is_byte ks ->
  bit_expansion (map byte_complement ks) = map bit_flip (bit_expansion ks).
Proof.
  induction 1 as [|b ks Hb _ IH]; [reflexivity|].
  cbn [map bit_expansion flat_map].
  change (flat_map byte_bits_be (map byte_complement ks))
    with (bit_expansion (map byte_complement ks)).
  change (flat_map byte_bits_be ks) with (bit_expansion ks).
  rewrite map_app, IH, byte_bits_be_complement by assumption. reflexivity.
Qed.

Lemma changes_flip bits : changes (map bit_flip bits) = changes bits.
Proof.
  induction bits as [|a [|b rest] IH]; try reflexivity.
  cbn [map changes] in *. rewrite IH. unfold bit_flip.
  destruct (Z.eqb_spec (1 - a) (1 - b)), (Z.eqb_spec a b); lia.
Qed.

Lemma complement_is_byte ks :
  Forall is_byte ks -> Forall is_byte (map byte_complement ks).
Proof.
  intros H. apply Forall_map. eapply Forall_impl; [|exact H].
  unfold is_byte, byte_complement. intros; lia.
Qed.

(** X15. The runs test does not tell a keystream of bytes from its bitwise
    complement: the two have the same number of runs and the same number
    of bits, so whenever both reports are returned their [runs_test]
    entries are equal. *)
Theorem runs_test_complement (ks : list Z) (r r' : report) :
  Forall is_byte ks -> 8 * len ks <= sys_maxsize ->
  nist_randomness_tests ks = Ok r ->
  nist_randomness_tests (map byte_complement ks) = Ok r' ->
  count_runs (bit_expansion (map byte_complement ks))
    = count_runs (bit_expansion ks) /\
  runs_test r' = runs_test r.
Proof.
  intros Hb Hlen H H'.
  assert (Hch : changes (bit_expansion (map byte_complement ks))
                = changes (bit_expansion ks)).
  { now rewrite bit_expansion_complement, changes_flip. }
  split; [rewrite !count_runs_changes, Hch; reflexivity|].
  pose proof (nist_returns_nonempty ks r H) as Hne.
  assert (Hne' : map byte_complement ks <> [])
    by (destruct ks; [congruence|discriminate]).
  assert (Hl : len (map byte_complement ks) = len ks).
  { unfold len. now rewrite length_map. }
  rewrite (nist_nonempty ks Hne Hb Hlen) in H.
  rewrite (nist_nonempty _ Hne' (complement_is_byte ks Hb)) in H'
    by (rewrite Hl; exact Hlen).
  destruct (np_corrcoef _ _); cbn [bind] in H; [|discriminate].
  destruct (np_corrcoef _ _); cbn [bind] in H'; [|discriminate].
  apply Ok_inj in H. apply Ok_inj in H'. subst r r'. cbn [runs_test].
  now rewrite Hl, Hch.
Qed.

End ExpansionFacts.

(* ================================================================= *)
(** * Facts: the entropy estimate, and the generator composed with the analyzers *)


Module FloatPositive.

Import FloatFacts FloatOrder.

Lemma shr_fexp_pos m e l :
  0 < m -> -1074 <= e ->
  0 < shr_m (fst (shr_fexp 53 1024 m e l)) /\
  -1074 <= snd (shr_fexp 53 1024 m e l).
Proof.
  intros Hm He. unfold shr_fexp. rewrite fexp_eq.
  set (n := Z.max (Zdigits2 m + e - 53) (-1074) - e).
  set (x := shr_record_of_loc m l).
  assert (Hx : 0 <= shr_m x) by (unfold x; rewrite shr_m_of_loc; lia).
  destruct (shr_spec x e n Hx) as (E1 & E2 & _).
  rewrite E1, E2. unfold x. rewrite shr_m_of_loc.
  split; [|lia].
  pose proof (Zdigits2_bounds m Hm) as [B1 _].
  assert (Hd : 1 <= Zdigits2 m) by (destruct m; simpl; lia).
  assert (Hn : Z.max n 0 <= Zdigits2 m - 1) by (unfold n; lia).
  assert (Hp : 2 ^ Z.max n 0 <= m).
  { apply Z.le_trans with (2 := B1). apply Z.pow_le_mono_r; lia. }
  assert (H0 : 0 < 2 ^ Z.max n 0) by (apply Z.pow_pos_nonneg; lia).
  apply Z.div_str_pos. lia.
Qed.

(** A positive value that is not below the smallest exponent is not rounded
    to zero. *)
Lemma round_float_pos s m e l :
  0 < m -> -1074 <= e ->
  match round_float s m e l with S754_zero _ => False | _ => True end.
Proof.
  intros Hm He.
  unfold round_float, DBL_MANT_DIG, DBL_MAX_EXP, binary_round_aux.
  pose proof (shr_fexp_pos m e l Hm He) as [A1 A2].
  destruct (shr_fexp 53 1024 m e l) as [x1 e1]. cbn [fst snd] in A1, A2.
  pose proof (round_nearest_even_bounds x1) as Hr.
  set (m2 := round_nearest_even (shr_m x1) (loc_of_shr_record x1)) in *.
  pose proof (shr_fexp_pos m2 e1 loc_Exact ltac:(lia) A2) as [B1 _].
  destruct (shr_fexp 53 1024 m2 e1 loc_Exact) as [x3 e3]. cbn [fst] in B1.
  destruct (shr_m x3); try lia.
  destruct (e3 <=? 1024 - 53); exact I.
Qed.

(** The correctly rounded quotient of two positive integers is positive,
    unless it is below the smallest subnormal. *)
Lemma of_ratio_pos a b k :
  0 < a -> 0 < b -> b <= a * 2 ^ 1074 -> 0 <= k <= 971 -> a <= b * 2 ^ k ->
  exists m e, of_ratio a b = S754_finite false m e /\ Zpos m <= 2 ^ (k - e).
Proof.
  intros Ha Hb Hlow Hk Hab.
  pose proof (of_ratio_nonneg_le a b k ltac:(lia) Hb Hk Hab) as Hle.
  assert (Hnz : match of_ratio a b with S754_zero _ => False | _ => True end).
  { unfold of_ratio. destruct a as [|p|p]; try lia.
    replace (Z.pos p <? 0) with false by reflexivity.
    replace (b <? 0) with false by (symmetry; apply Z.ltb_ge; lia).
    rewrite (Z.abs_eq b) by lia. cbn [Z.abs xorb].
    unfold SFdiv_core_binary, DBL_MANT_DIG, DBL_MAX_EXP. rewrite fexp_eq.
    set (d1 := Zdigits2 (Zpos p)). set (d2 := Zdigits2 b).
    set (e' := Z.min _ (0 - 0)).
    assert (He : -1074 <= e' <= 0) by (unfold e'; lia).
    set (m' := match 0 - 0 - e' with
               | 0 => Z.pos p
               | Z.pos _ => Z.shiftl (Z.pos p) (0 - 0 - e')
               | Z.neg _ => 0
               end).
    assert (Hm' : m' = Zpos p * 2 ^ (- e')).
    { unfold m'. destruct (0 - 0 - e') as [|s|s] eqn:E; try lia.
      - replace (- e') with 0 by lia. lia.
      - rewrite Z.shiftl_mul_pow2 by lia. f_equal. f_equal. lia. }
    assert (Hge : b <= m').
    { rewrite Hm'.
      pose proof (Zdigits2_bounds (Zpos p) ltac:(lia)) as [P1 _].
      pose proof (Zdigits2_bounds b Hb) as [_ P2].
      fold d1 in P1. fold d2 in P2.
      assert (Hd1 : 1 <= d1) by (unfold d1; simpl; lia).
      assert (Hd2 : 1 <= d2) by (unfold d2; destruct b; simpl; lia).
      destruct (Z.eq_dec e' (-1074)) as [->|Hne]; [exact Hlow|].
      destruct (Z.eq_dec e' 0) as [E0|Hne0].
      - rewrite E0. change (2 ^ (- 0)) with 1.
        assert (d2 + 53 <= d1) by (unfold e' in E0; lia).
        assert (2 ^ d2 <= 2 ^ (d1 - 1)) by (apply Z.pow_le_mono_r; lia).
        lia.
      - assert (Ee : - e' = 53 + d2 - d1) by (unfold e'; lia).
        rewrite Ee.
        assert (2 ^ (d1 - 1) * 2 ^ (53 + d2 - d1) = 2 ^ (52 + d2)).
        { rewrite <- Z.pow_add_r by lia. f_equal. lia. }
        assert (2 ^ d2 <= 2 ^ (52 + d2)) by (apply Z.pow_le_mono_r; lia).
        assert (0 < 2 ^ (53 + d2 - d1)) by (apply Z.pow_pos_nonneg; lia).
        nia. }
    pose proof (Z_div_mod m' b ltac:(lia)) as Hdm.
    destruct (Z.div_eucl m' b) as [q r]. destruct Hdm as [Hdm Hr].
    apply round_float_pos; [nia|lia]. }
  unfold nonneg_le in Hle.
  destruct (of_ratio a b) as [s| | |s m e]; cbn [mag_le_signed] in Hle;
    try contradiction.
  destruct Hle as [-> Hle]. eauto.
Qed.

Lemma div_eucl_diag n k : 0 < n -> Z.div_eucl (n * k) n = (k, 0).
Proof.
  intros Hn. pose proof (Z_div_mod (n * k) n ltac:(lia)) as H.
  destruct (Z.div_eucl (n * k) n) as [q r]. destruct H as [H1 H2].
  assert (q = k) by nia. subst q. f_equal. lia.
Qed.

(** [n / n] is [1.0]. *)
Lemma of_ratio_diag n : 0 < n -> of_ratio n n = of_Z 1.
Proof.
  intros Hn. unfold of_ratio. destruct n as [|p|p]; try lia.
  cbn [Z.abs Z.ltb Z.compare xorb].
  unfold SFdiv_core_binary, DBL_MANT_DIG, DBL_MAX_EXP.
  replace (Zdigits2 (Z.pos p) + 0 - (Zdigits2 (Z.pos p) + 0)) with 0 by lia.
  change (Z.min (fexp 53 1024 0) (0 - 0)) with (-53).
  change (0 - 0 - -53) with 53. cbv iota.
  rewrite Z.shiftl_mul_pow2 by lia.
  rewrite div_eucl_diag by lia.
  rewrite new_location_exact.
  vm_compute. reflexivity.
Qed.

End FloatPositive.

Section EntropyFacts.

Context {mathlib : MathLib}.

Import FloatFacts FloatPositive.

Lemma total_cons kv c : total (kv :: c) = snd kv + total c.
Proof. reflexivity. Qed.

Lemma counter_add_total x c : total (counter_add x c) = total c + 1.
Proof.
  induction c as [|[k n] c IH]; cbn [counter_add]; [reflexivity|].
  destruct (k =? x); rewrite !total_cons; cbn [snd]; lia.
Qed.

Lemma counter_add_positive x c :
  Forall (fun kv => 1 <= snd kv) c ->
  Forall (fun kv => 1 <= snd kv) (counter_add x c).
Proof.
  induction 1 as [|[k n] c Hk Hc IH]; cbn [counter_add].
  - constructor; [cbn; lia|constructor].
  - destruct (k =? x); constructor; cbn [snd] in *; auto; lia.
Qed.

Lemma Counter_invariant data c :
  Forall (fun kv => 1 <= snd kv) c ->
  Forall (fun kv => 1 <= snd kv)
         (fold_left (fun c x => counter_add x c) data c) /\
  total (fold_left (fun c x => counter_add x c) data c) = total c + len data.
Proof.
  revert c. induction data as [|x data IH]; intros c Hc; cbn [fold_left].
  - unfold len. cbn. split; [assumption|lia].
  - destruct (IH (counter_add x c) (counter_add_positive x c Hc)) as [H1 H2].
    split; [assumption|]. rewrite H2, counter_add_total. unfold len.
    cbn [List.length]. lia.
Qed.

Lemma count_le_total c :
  Forall (fun kv => 1 <= snd kv) c ->
  Forall (fun n => 1 <= n <= total c) (values c).
Proof.
  induction 1 as [|[k n] c Hk Hc IH]; cbn [values map]; [constructor|].
  assert (H0 : 0 <= total c).
  { clear IH Hk. induction Hc as [|[k' n'] c' ? ? IH']; [cbn; lia|].
      rewrite total_cons. lia. }
  rewrite total_cons. cbn [snd] in *.
  constructor; [lia|].
  eapply Forall_impl; [|exact IH]. cbn beta. intros; lia.
Qed.

Lemma Counter_counts data :
  Forall (fun n => 1 <= n <= len data) (values (Counter data)).
Proof.
  destruct (Counter_invariant data [] (Forall_nil _)) as [H1 H2].
  fold (Counter data) in H1, H2. cbn [total fold_right] in H2.
  rewrite Z.add_0_l in H2. rewrite <- H2. now apply count_le_total.
Qed.

Lemma entropy_loop_returns counts length entropy :
  length <= sys_maxsize ->
  Forall (fun n => 1 <= n <= length) counts ->
  (forall x, unit_positive x -> exists y, math_log2 x = Ok y) ->
  exists h, entropy_loop counts length entropy = Ok h.
Proof.
  intros Hmax Hc Hlog. revert entropy.
  induction Hc as [|n counts Hn _ IH]; intros entropy; cbn [entropy_loop].
  - eauto.
  - destruct (py_int_truediv_ok n length 0) as [E _]; try lia.
    rewrite E. cbn [bind].
    destruct (of_ratio_pos n length 0) as (m & e & Ep & Hp); try lia.
    { unfold sys_maxsize in Hmax.
      assert (2 ^ 63 <= 2 ^ 1074) by (apply Z.pow_le_mono_r; lia). nia. }
    destruct (Hlog (of_ratio n length)) as [y Ey].
    { rewrite Ep. exact Hp. }
    rewrite Ey. cbn [bind]. apply IH.
Qed.

(** X11. [shannon_entropy] returns [0.0] on empty data without calling
    [log2]; on non-empty data every quotient [count / length] is a float of
    [(0, 1]], so the call returns as soon as [math.log2] returns on that
    interval: neither [ZeroDivisionError] nor a math domain error can
    arise. *)
Theorem shannon_entropy_returns (data : list Z) :
  len data <= sys_maxsize ->
  (forall x, unit_positive x -> exists y, math_log2 x = Ok y) ->
  shannon_entropy [] = Ok zero /\
  exists h, shannon_entropy data = Ok h.
Proof.
  intros Hmax Hlog. split; [reflexivity|].
  destruct data as [|x data]; [now exists zero|].
  unfold shannon_entropy.
  apply entropy_loop_returns; [assumption| |assumption].
  apply Counter_counts.
Qed.

Lemma Counter_repeat x n k :
  fold_left (fun c y => counter_add y c) (repeat x n) [(x, k)]
  = [(x, k + Z.of_nat n)].
Proof.
  revert k. induction n as [|n IH]; intros k; cbn [repeat fold_left].
  - f_equal. f_equal. lia.
  - cbn [counter_add]. rewrite Z.eqb_refl, IH. f_equal. f_equal. lia.
Qed.

(** X12. The entropy estimate of a constant non-empty sequence is [0.0]:
    the counter has one entry, [count / length] is exactly [1.0], and
    [0.0 - 1.0 * log2(1.0)] is [0.0] (given that [math.log2(1.0)] is
    [0.0]). *)
Theorem shannon_entropy_constant (x : Z) (n : nat) :
  math_log2 (of_Z 1) = Ok zero ->
  shannon_entropy (repeat x (S n)) = Ok zero.
Proof.
  intros Hlog. unfold shannon_entropy. cbn [repeat].
  unfold Counter. cbn [fold_left counter_add]. rewrite Counter_repeat.
  cbn [values map snd entropy_loop]. unfold len. cbn [List.length].
  rewrite repeat_length.
  replace (Z.of_nat (S n)) with (1 + Z.of_nat n) by lia.
  unfold py_int_truediv.
  replace (1 + Z.of_nat n =? 0) with false by (symmetry; apply Z.eqb_neq; lia).
  rewrite of_ratio_diag by lia.
  change (of_Z 1) with (S754_finite false 4503599627370496 (-52)) in *.
  cbn [bind]. rewrite Hlog. cbn [bind]. reflexivity.
Qed.

End EntropyFacts.

Section CompositionFacts.

Context {hashlib : Hashlib} {numpy : NumPy} {mathlib : MathLib}.

Lemma pure_step_acc errno alpha beta gamma z ks :
  pure_step errno alpha beta gamma (z, ks)
  = (s <- pure_step errno alpha beta gamma (z, []) ;;
     Ok (fst s, ks ++ snd s)).
Proof.
  unfold pure_step. cbn [fst snd].
  destruct (fractal_function _ _ _ _ _ _) as [z'|]; cbn [bind]; [|reflexivity].
  destruct (extract_byte z'); reflexivity.
Qed.

Lemma iterate_acc errno k alpha beta gamma n z ks :
  iterate errno k alpha beta gamma n (z, ks)
  = (s <- iterate errno k alpha beta gamma n (z, []) ;;
     Ok (fst s, ks ++ snd s)).
Proof.
  revert k z ks. induction n as [|n IH]; intros k z ks; cbn [iterate bind].
  - cbn [fst snd]. now rewrite app_nil_r.
  - rewrite pure_step_acc.
    destruct (pure_step (errno k) alpha beta gamma (z, [])) as [[z1 b1]|];
      cbn [bind]; [|reflexivity].
    cbn [fst snd]. rewrite IH, (IH (S k) z1 b1).
    destruct (iterate errno (S k) alpha beta gamma n (z1, [])) as [[z2 b2]|];
      cbn [bind]; [|reflexivity].
    cbn [fst snd]. now rewrite app_assoc.
Qed.

Lemma iterate_cycle errno k0 alpha beta gamma p z cyc k :
  (forall i, (i < k)%nat ->
     iterate errno (k0 + i * p) alpha beta gamma p (z, []) = Ok (z, cyc)) ->
  iterate errno k0 alpha beta gamma (k * p) (z, [])
  = Ok (z, List.concat (repeat cyc k)).
Proof.
  revert k0. induction k as [|k IH]; intros k0 H; [reflexivity|].
  cbn [Nat.mul repeat List.concat]. rewrite iterate_add.
  pose proof (H 0%nat ltac:(lia)) as H0.
  rewrite Nat.mul_0_l, Nat.add_0_r in H0. rewrite H0. cbn [bind].
  rewrite iterate_acc, IH; [reflexivity|].
  intros i Hi. specialize (H (S i) ltac:(lia)).
  now replace (k0 + p + i * p)%nat with (k0 + S i * p)%nat by lia.
Qed.

(** X10. The state [z] is all the generator carries from one iteration to
    the next: if the state reached after [j] iterations is reached again
    [p] iterations later, in each of [k] rounds, the keystream of length
    [j + k * p] is the first [j] bytes followed by [k] copies of the [p]
    bytes of the cycle.  The iterations are those of a call made in the
    world [w], with what they see of [errno] there. *)
Theorem keystream_cycles
    (password : string) (seed z : cnum) (j p k : nat) (w : world)
    (head cyc : list Z) :
  iterate (errno_seen w) (map_calls w)
          (window_to_complex (alpha_window password))
          (window_to_complex (beta_window password))
          (window_to_complex (gamma_window password)) j (seed, [])
    = Ok (z, head) ->
  (forall i, (i < k)%nat ->
     iterate (errno_seen w) (map_calls w + j + i * p)
             (window_to_complex (alpha_window password))
             (window_to_complex (beta_window password))
             (window_to_complex (gamma_window password)) p (z, [])
       = Ok (z, cyc)) ->
  fst (generate_keystream password (Z.of_nat (j + k * p)) seed w)
  = Ok (head ++ List.concat (repeat cyc k)).
Proof.
  intros Hj Hp. rewrite generate_keystream_result, keystream_of_eq.
  rewrite Nat2Z.id, iterate_add, Hj. cbn [bind].
  rewrite iterate_acc, (iterate_cycle _ _ _ _ _ p z cyc k Hp). reflexivity.
Qed.

Lemma generated_keystream_bytes password n seed w ks :
  fst (generate_keystream password n seed w) = Ok ks ->
  List.length ks = Z.to_nat n /\ Forall is_byte ks.
Proof.
  rewrite generate_keystream_result, keystream_of_eq. intros H.
  destruct (iterate _ _ _ _ _ _ _) as [[z' ks']|] eqn:E; cbn [bind snd] in H;
    [|discriminate].
  apply Ok_inj in H. subst ks'.
  apply iterate_appends in E. destruct E as (bs & -> & Hl & Hb).
  cbn [app]. auto.
Qed.

(** X16. The generator composed with the two analyzers, as the test driver
    calls them (lines 140-143): for a length [n <= 0] the keystream is
    empty, [shannon_entropy] returns [0.0] and [nist_randomness_tests]
    raises [ZeroDivisionError]; for [n >= 1] whatever the generator returns
    is a non-empty list of bytes on which [shannon_entropy] returns (as
    soon as [math.log2] returns on [(0, 1]]) and on which
    [nist_randomness_tests] returns its report once [corrcoef] has
    returned. *)
Theorem analysis_of_generated_keystream
    (password : string) (n : Z) (seed : cnum) (w : world) (ks : list Z) :
  fst (generate_keystream password n seed w) = Ok ks ->
  8 * n <= sys_maxsize ->
  (n <= 0 ->
   shannon_entropy ks = Ok zero /\
   nist_randomness_tests ks = Raise ZeroDivisionError) /\
  (0 < n ->
   ((forall x, unit_positive x -> exists y, math_log2 x = Ok y) ->
    exists h, shannon_entropy ks = Ok h) /\
   (forall c,
      np_corrcoef (removelast (bit_expansion ks)) (tl (bit_expansion ks))
        = Ok c ->
      exists f r,
        nist_randomness_tests ks
        = Ok {| frequency_test := f; runs_test := r;
                autocorrelation := ltb (fabs c) (literal 2 100) |})).
Proof.
  intros H Hmax.
  destruct (generated_keystream_bytes _ _ _ _ _ H) as [Hlen Hb].
  split.
  - intros Hn. replace (Z.to_nat n) with 0%nat in Hlen by lia.
    destruct ks; [|discriminate]. split; reflexivity.
  - intros Hn.
    assert (Hne : ks <> []).
    { intros ->. cbn in Hlen. lia. }
    assert (Hl : len ks = n) by (unfold len; lia).
    split.
    + intros Hlog.
      destruct ks as [|b ks]; [congruence|].
      unfold shannon_entropy.
      apply entropy_loop_returns; [lia| |assumption].
      apply Counter_counts.
    + intros c Hc.
      rewrite (nist_nonempty ks Hne Hb) by lia.
      rewrite Hc. cbn [bind]. eauto.
Qed.

End CompositionFacts.

(* ================================================================= *)
(** * Facts: the loop body on the result of the try block *)


Module FloatLower.

Import FloatFacts FloatOrder FloatExact.

Lemma shr_fexp_ge m e l k :
  0 < m -> -1074 <= k -> 2 ^ (k - e) <= m ->
  0 < shr_m (fst (shr_fexp 53 1024 m e l)) /\
  2 ^ (k - snd (shr_fexp 53 1024 m e l)) <= shr_m (fst (shr_fexp 53 1024 m e l)).
Proof.
  intros Hm Hk Hb. unfold shr_fexp. rewrite fexp_eq.
  set (n := Z.max (Zdigits2 m + e - 53) (-1074) - e).
  set (x := shr_record_of_loc m l).
  assert (Hx : 0 <= shr_m x) by (unfold x; rewrite shr_m_of_loc; lia).
  destruct (shr_spec x e n Hx) as (E1 & E2 & _).
  rewrite E1, E2. unfold x. rewrite shr_m_of_loc.
  pose proof (Zdigits2_bounds m Hm) as [B1 B2].
  assert (Hd : 1 <= Zdigits2 m) by (destruct m; simpl; lia).
  destruct (Z.le_gt_cases n 0) as [Hn|Hn].
  - replace (Z.max n 0) with 0 by lia.
    rewrite Z.div_1_r, Z.add_0_r. auto.
  - replace (Z.max n 0) with n by lia.
    assert (Hpn : 0 < 2 ^ n) by (apply Z.pow_pos_nonneg; lia).
    destruct (Z.le_gt_cases (e + n) k) as [Hle|Hgt].
    + assert (Hp : 0 < 2 ^ (k - (e + n))) by (apply Z.pow_pos_nonneg; lia).
      assert (H2 : 2 ^ (k - e) = 2 ^ n * 2 ^ (k - (e + n))).
      { rewrite <- Z.pow_add_r by lia. f_equal. lia. }
      assert (Hq : 2 ^ (k - (e + n)) <= m / 2 ^ n).
      { apply Z.div_le_lower_bound; lia. }
      lia.
    + rewrite (Z.pow_neg_r 2 (k - (e + n))) by lia.
      assert (Hn' : n <= Zdigits2 m - 1) by (unfold n in *; lia).
      assert (Hp : 2 ^ n <= m).
      { apply Z.le_trans with (2 := B1). apply Z.pow_le_mono_r; lia. }
      pose proof (Z.div_str_pos m (2 ^ n) ltac:(lia)). lia.
Qed.

Lemma shr_fexp_lt m e l :
  0 <= m ->
  0 <= shr_m (fst (shr_fexp 53 1024 m e l)) < 2 ^ 53.
Proof.
  intros Hm. unfold shr_fexp. rewrite fexp_eq.
  set (n := Z.max (Zdigits2 m + e - 53) (-1074) - e).
  set (x := shr_record_of_loc m l).
  assert (Hx : 0 <= shr_m x) by (unfold x; rewrite shr_m_of_loc; lia).
  destruct (shr_spec x e n Hx) as (_ & E2 & _).
  rewrite E2. unfold x. rewrite shr_m_of_loc.
  assert (Hpn : 0 < 2 ^ Z.max n 0) by (apply Z.pow_pos_nonneg; lia).
  split; [apply Z.div_pos; lia|].
  apply Z.div_lt_upper_bound; [lia|].
  destruct (Z.eq_dec m 0) as [->|Hne]; [lia|].
  pose proof (Zdigits2_bounds m ltac:(lia)) as [_ B2].
  apply Z.lt_le_trans with (1 := B2).
  rewrite <- Z.pow_add_r by lia.
  apply Z.pow_le_mono_r; [lia|]. unfold n. lia.
Qed.

Lemma round_float_rounded s m e l : 0 <= m -> rounded s (round_float s m e l).
Proof.
  intros Hm.
  unfold round_float, DBL_MANT_DIG, DBL_MAX_EXP, binary_round_aux.
  pose proof (shr_fexp_lt m e l Hm) as [A1 _].
  destruct (shr_fexp 53 1024 m e l) as [x1 e1]. cbn [fst] in A1.
  pose proof (round_nearest_even_bounds x1) as Hr.
  set (m2 := round_nearest_even (shr_m x1) (loc_of_shr_record x1)) in *.
  pose proof (shr_fexp_lt m2 e1 loc_Exact ltac:(lia)) as [B1 B2].
  destruct (shr_fexp 53 1024 m2 e1 loc_Exact) as [x3 e3]. cbn [fst] in B1, B2.
  destruct (shr_m x3); try lia; [exact I|].
  destruct (e3 <=? 1024 - 53); cbn [rounded]; auto.
Qed.

(** Rounding does not take a value of at least [2^k] below [2^k]. *)
Lemma round_float_ge s m e l k :
  0 < m -> -1074 <= k -> 2 ^ (k - e) <= m ->
  ge_pow2 (round_float s m e l) k.
Proof.
  intros Hm Hk Hb.
  unfold round_float, DBL_MANT_DIG, DBL_MAX_EXP, binary_round_aux.
  pose proof (shr_fexp_ge m e l k Hm Hk Hb) as [A1 A2].
  destruct (shr_fexp 53 1024 m e l) as [x1 e1]. cbn [fst snd] in A1, A2.
  pose proof (round_nearest_even_bounds x1) as Hr.
  set (m2 := round_nearest_even (shr_m x1) (loc_of_shr_record x1)) in *.
  pose proof (shr_fexp_ge m2 e1 loc_Exact k ltac:(lia) Hk ltac:(lia)) as [B1 B2].
  destruct (shr_fexp 53 1024 m2 e1 loc_Exact) as [x3 e3]. cbn [fst snd] in B1, B2.
  destruct (shr_m x3); try lia.
  destruct (e3 <=? 1024 - 53); cbn [ge_pow2]; auto.
Qed.

(** The rounded square root of [M * 4^ez >= 4^j] is at least [2^j]. *)
Lemma sqrt_round_ge M ez j :
  0 < M -> -1074 <= j -> (ez <= j -> 2 ^ (2 * (j - ez)) <= M) ->
  let '(q, e, l) := SFsqrt_core_binary 53 1024 M (2 * ez) in
  ge_pow2 (round_float false q e l) j /\ rounded false (round_float false q e l).
Proof.
  intros HM Hj Hb. unfold SFsqrt_core_binary.
  set (e' := Z.min _ (Z.div2 (2 * ez))).
  assert (He : e' <= ez).
  { unfold e'. rewrite (Z.div2_div (2 * ez)), Z.mul_comm, Z.div_mul by lia. lia. }
  set (m' := match 2 * ez - 2 * e' with
             | 0 => M
             | Z.pos _ => Z.shiftl M (2 * ez - 2 * e')
             | Z.neg _ => 0
             end).
  assert (Hm' : m' = M * 2 ^ (2 * (ez - e'))).
  { unfold m'. destruct (2 * ez - 2 * e') as [|s|s] eqn:E; try lia.
    - replace (2 * (ez - e')) with 0 by lia. lia.
    - rewrite Z.shiftl_mul_pow2 by lia. f_equal. f_equal. lia. }
  assert (Hs : 0 < 2 ^ (2 * (ez - e'))) by (apply Z.pow_pos_nonneg; lia).
  pose proof (Z.sqrtrem_spec m' ltac:(nia)) as Hsq.
  destruct (Z.sqrtrem m') as [q r]. destruct Hsq as [Hq Hr].
  assert (Hq0 : 0 < q) by nia.
  split; [|apply round_float_rounded; lia].
  apply round_float_ge; try lia.
  destruct (Z.le_gt_cases e' j) as [Hle|Hgt];
    [|rewrite Z.pow_neg_r by lia; lia].
  set (T := 2 ^ (j - e')).
  assert (HT : 0 < T) by (apply Z.pow_pos_nonneg; lia).
  assert (HTT : T * T <= m').
  { unfold T. rewrite <- Z.pow_add_r by lia. rewrite Hm'.
    destruct (Z.le_gt_cases ez j) as [H1|H1].
    - specialize (Hb H1).
      replace (j - e' + (j - e')) with (2 * (j - ez) + 2 * (ez - e')) by lia.
      rewrite Z.pow_add_r by lia.
      apply Z.mul_le_mono_nonneg_r; lia.
    - apply Z.le_trans with (2 ^ (2 * (ez - e'))); [apply Z.pow_le_mono_r; lia|].
      nia. }
  nia.
Qed.

Lemma sqrt_round_rounded M ez :
  0 < M ->
  let '(q, e, l) := SFsqrt_core_binary 53 1024 M (2 * ez) in
  rounded false (round_float false q e l).
Proof.
  intros HM. unfold SFsqrt_core_binary.
  set (e' := Z.min _ (Z.div2 (2 * ez))).
  set (m' := match 2 * ez - 2 * e' with
             | 0 => M
             | Z.pos _ => Z.shiftl M (2 * ez - 2 * e')
             | Z.neg _ => 0
             end).
  assert (Hm' : 0 <= m').
  { unfold m'. destruct (2 * ez - 2 * e') as [|s|s]; try lia.
    apply Z.shiftl_nonneg. lia. }
  pose proof (Z.sqrtrem_spec m' Hm') as Hsq.
  destruct (Z.sqrtrem m') as [q r]. destruct Hsq as [Hq Hr].
  apply round_float_rounded. lia.
Qed.

(** A finite float is below the power of two above its leading bit. *)
Lemma leading_bit_mag m e s : mag_le (S754_finite s m e) (leading_bit m e + 1).
Proof.
  cbn [mag_le]. unfold leading_bit.
  pose proof (Zdigits2_bounds (Zpos m) ltac:(lia)) as [_ B].
  replace (Zdigits2 (Z.pos m) + e - 1 + 1 - e) with (Zdigits2 (Zpos m)) by lia.
  lia.
Qed.

Lemma leading_bit_le m e :
  2 ^ (leading_bit m e - e) <= Zpos m.
Proof.
  unfold leading_bit.
  pose proof (Zdigits2_bounds (Zpos m) ltac:(lia)) as [B _].
  replace (Zdigits2 (Z.pos m) + e - 1 - e) with (Zdigits2 (Zpos m) - 1) by lia.
  exact B.
Qed.

Lemma valid_mantissa s m e :
  valid_float (S754_finite s m e) = true -> Zpos m < 2 ^ 53.
Proof.
  intros H. destruct (valid_float_digits _ _ _ H) as [Hd _].
  pose proof (Zdigits2_bounds (Zpos m) ltac:(lia)) as [_ B].
  apply Z.lt_le_trans with (1 := B). apply Z.pow_le_mono_r; lia.
Qed.

Lemma valid_machine x : valid_float x = true -> machine_float x.
Proof.
  destruct x as [s|s| |s m e]; cbn [machine_float]; auto.
  intros H. split; [exact (valid_mantissa _ _ _ H)|].
  now destruct (valid_float_finite _ _ _ H).
Qed.

(** [hypot] of two finite parts: rounded, and not below a part. *)
Lemma hypot_finite_finite sa ma ea sb mb eb :
  rounded false (hypot (S754_finite sa ma ea) (S754_finite sb mb eb)) /\
  (-1074 <= leading_bit ma ea ->
   ge_pow2 (hypot (S754_finite sa ma ea) (S754_finite sb mb eb))
           (leading_bit ma ea)) /\
  (-1074 <= leading_bit mb eb ->
   ge_pow2 (hypot (S754_finite sa ma ea) (S754_finite sb mb eb))
           (leading_bit mb eb)).
Proof.
  cbn [hypot]. unfold DBL_MANT_DIG, DBL_MAX_EXP.
  set (ez := Z.min ea eb).
  set (X := Zpos ma * 2 ^ (ea - ez)).
  set (Y := Zpos mb * 2 ^ (eb - ez)).
  assert (HpX : 0 < 2 ^ (ea - ez)) by (apply Z.pow_pos_nonneg; unfold ez; lia).
  assert (HpY : 0 < 2 ^ (eb - ez)) by (apply Z.pow_pos_nonneg; unfold ez; lia).
  assert (HX : 0 < X) by (unfold X; nia).
  assert (HY : 0 < Y) by (unfold Y; nia).
  assert (HM : 0 < X * X + Y * Y) by nia.
  assert (GX : forall j, j = leading_bit ma ea -> ez <= j ->
                2 ^ (2 * (j - ez)) <= X * X + Y * Y).
  { intros j -> Hj. pose proof (leading_bit_le ma ea) as Hl.
    assert (H2 : 2 ^ (leading_bit ma ea - ez) <= X).
    { unfold X.
      replace (leading_bit ma ea - ez)
        with ((leading_bit ma ea - ea) + (ea - ez)) by lia.
      rewrite Z.pow_add_r;
        [|unfold leading_bit; cbn [Zdigits2]; lia|unfold ez; lia].
      apply Z.mul_le_mono_nonneg_r; lia. }
    replace (2 * (leading_bit ma ea - ez))
      with ((leading_bit ma ea - ez) + (leading_bit ma ea - ez)) by lia.
    rewrite Z.pow_add_r by lia.
    assert (0 < 2 ^ (leading_bit ma ea - ez)) by (apply Z.pow_pos_nonneg; lia).
    nia. }
  assert (GY : forall j, j = leading_bit mb eb -> ez <= j ->
                2 ^ (2 * (j - ez)) <= X * X + Y * Y).
  { intros j -> Hj. pose proof (leading_bit_le mb eb) as Hl.
    assert (H2 : 2 ^ (leading_bit mb eb - ez) <= Y).
    { unfold Y.
      replace (leading_bit mb eb - ez)
        with ((leading_bit mb eb - eb) + (eb - ez)) by lia.
      rewrite Z.pow_add_r;
        [|unfold leading_bit; cbn [Zdigits2]; lia|unfold ez; lia].
      apply Z.mul_le_mono_nonneg_r; lia. }
    replace (2 * (leading_bit mb eb - ez))
      with ((leading_bit mb eb - ez) + (leading_bit mb eb - ez)) by lia.
    rewrite Z.pow_add_r by lia.
    assert (0 < 2 ^ (leading_bit mb eb - ez)) by (apply Z.pow_pos_nonneg; lia).
    nia. }
  pose proof (sqrt_round_ge (X * X + Y * Y) ez (leading_bit ma ea) HM) as SA.
  pose proof (sqrt_round_ge (X * X + Y * Y) ez (leading_bit mb eb) HM) as SB.
  pose proof (sqrt_round_rounded (X * X + Y * Y) ez HM) as S0.
  destruct (SFsqrt_core_binary 53 1024 (X * X + Y * Y) (2 * ez)) as [[q e] l].
  split; [exact S0|split].
  - intros Hj. apply SA; [exact Hj|]. apply GX. reflexivity.
  - intros Hj. apply SB; [exact Hj|]. apply GY. reflexivity.
Qed.


(** The quotient of [|x| <= 2^a] by [|y| >= 2^c] is at most [2^(a-c)]. *)
Lemma div_mag_le x sy my ey a c :
  mag_le x a -> 2 ^ (c - ey) <= Zpos my -> -1074 <= a - c <= 971 ->
  mag_le (div x (S754_finite sy my ey)) (a - c).
Proof.
  intros Hx Hy Hk.
  destruct x as [sx| | |sx mx ex]; cbn [mag_le] in Hx; try contradiction;
    [exact I|].
  pose proof (pow2_pos_exponent _ _ Hx) as Hax.
  unfold div, SFdiv. apply (mag_le_signed_weaken (xorb sx sy)).
  unfold SFdiv_core_binary, DBL_MANT_DIG, DBL_MAX_EXP. rewrite fexp_eq.
  set (d1 := Zdigits2 (Zpos mx)). set (d2 := Zdigits2 (Zpos my)).
  set (e' := Z.min _ (ex - ey)).
  assert (Hd1 : d1 <= a - ex + 1) by (apply Zdigits2_le; lia).
  assert (Hd2 : c - ey + 1 <= d2).
  { pose proof (Zdigits2_bounds (Zpos my) ltac:(lia)) as [_ B]. fold d2 in B.
    assert (1 <= d2) by (unfold d2; cbn [Zdigits2]; lia).
    destruct (Z.le_gt_cases (c - ey) 0); [lia|].
    assert (H2 : 2 ^ (c - ey) < 2 ^ d2) by lia.
    apply Z.pow_lt_mono_r_iff in H2; lia. }
  assert (He : e' <= a - c /\ e' <= ex - ey) by (unfold e'; lia).
  set (m' := match ex - ey - e' with
             | 0 => Z.pos mx
             | Z.pos _ => Z.shiftl (Z.pos mx) (ex - ey - e')
             | Z.neg _ => 0
             end).
  assert (Hm' : m' = Zpos mx * 2 ^ (ex - ey - e')).
  { unfold m'. destruct (ex - ey - e') as [|s|s] eqn:E; try lia.
    rewrite Z.shiftl_mul_pow2 by lia. reflexivity. }
  pose proof (Z_div_mod m' (Zpos my) ltac:(lia)) as Hdm.
  destruct (Z.div_eucl m' (Zpos my)) as [q r]. destruct Hdm as [Hdm Hr].
  assert (Hps : 0 < 2 ^ (ex - ey - e')) by (apply Z.pow_pos_nonneg; lia).
  assert (Hq : 0 <= q) by nia.
  apply round_float_mag_le; try lia.
  assert (Hi : inexact (new_location (Zpos my) r) <= (if r =? 0 then 0 else 1)).
  { destruct (Z.eqb_spec r 0) as [->|Hne].
    - rewrite new_location_exact. simpl. lia.
    - apply inexact_range. }
  assert (Hup : m' <= 2 ^ (a - ey - e')).
  { rewrite Hm'. replace (a - ey - e') with ((a - ex) + (ex - ey - e')) by lia.
    rewrite Z.pow_add_r by lia.
    apply Z.mul_le_mono_nonneg_r; lia. }
  destruct (Z.le_gt_cases 0 (c - ey)) as [Hc|Hc].
  - assert (Hsplit : 2 ^ (a - ey - e') = 2 ^ (a - c - e') * 2 ^ (c - ey)).
    { rewrite <- Z.pow_add_r by lia. f_equal. lia. }
    assert (HK : 0 < 2 ^ (a - c - e')) by (apply Z.pow_pos_nonneg; lia).
    assert (HP : 0 < 2 ^ (c - ey)) by (apply Z.pow_pos_nonneg; lia).
    destruct (Z.eqb_spec r 0); nia.
  - assert (Hlt : 2 * 2 ^ (a - ey - e') <= 2 ^ (a - c - e')).
    { rewrite <- Z.pow_succ_r by lia. apply Z.pow_le_mono_r; lia. }
    assert (HK : 0 < 2 ^ (a - ey - e')) by (apply Z.pow_pos_nonneg; lia).
    destruct (Z.eqb_spec r 0); nia.
Qed.

End FloatLower.

Section StepFacts.

Context {hashlib : Hashlib} {numpy : NumPy}.

Import FloatFacts FloatOrder FloatExact FloatLower.

Lemma hypot_parts a b :
  is_finite a = true -> is_finite b = true ->
  machine_float a -> machine_float b ->
  rounded false (hypot a b) /\
  (forall s m e, a = S754_finite s m e -> -1074 <= leading_bit m e ->
     ge_pow2 (hypot a b) (leading_bit m e)) /\
  (forall s m e, b = S754_finite s m e -> -1074 <= leading_bit m e ->
     ge_pow2 (hypot a b) (leading_bit m e)).
Proof.
  intros Fa Fb Va Vb.
  destruct a as [sa| | |sa ma ea]; try discriminate;
    destruct b as [sb| | |sb mb eb]; try discriminate.
  - cbn [hypot SFabs rounded]. repeat split; intros; discriminate.
  - cbn [hypot SFabs rounded ge_pow2].
    split; [split; [reflexivity|exact (proj1 Vb)]|].
    split; intros s m e E; [discriminate|].
    injection E as <- <- <-. intros _. apply leading_bit_le.
  - cbn [hypot SFabs rounded ge_pow2].
    split; [split; [reflexivity|exact (proj1 Va)]|].
    split; intros s m e E; [|discriminate].
    injection E as <- <- <-. intros _. apply leading_bit_le.
  - destruct (hypot_finite_finite sa ma ea sb mb eb) as (R & GA & GB).
    split; [exact R|].
    split; intros s m e E; injection E as <- <- <-; assumption.
Qed.

Lemma mag_le_zero_sub x s k : mag_le x k -> mag_le (sub x (S754_zero s)) k.
Proof.
  destruct x as [sx| | |sx mx ex]; cbn [mag_le]; try contradiction; auto.
  intros _. destruct sx, s; exact I.
Qed.

Lemma mag_le_zero_add x s k : mag_le x k -> mag_le (add (S754_zero s) x) k.
Proof.
  destruct x as [sx| | |sx mx ex]; cbn [mag_le]; try contradiction; auto.
  intros _. destruct s, sx; exact I.
Qed.

Lemma mag_le_add_zero x s k : mag_le x k -> mag_le (add x (S754_zero s)) k.
Proof.
  destruct x as [sx| | |sx mx ex]; cbn [mag_le]; try contradiction; auto.
  intros _. destruct sx, s; exact I.
Qed.

Lemma mul_zero_r x s k :
  mag_le x k -> exists s', mul x (S754_zero s) = S754_zero s'.
Proof.
  destruct x as [sx| | |sx mx ex]; cbn [mag_le]; try contradiction;
    intros _; eexists; reflexivity.
Qed.

(** One part [p] of the state, divided by a modulus [h > 100] that is not
    below it: [p * (1 / h)] is at most 2 in magnitude. *)
Lemma part_over_modulus p mh eh :
  is_finite p = true -> machine_float p ->
  -46 <= eh ->
  (forall s m e, p = S754_finite s m e -> -1074 <= leading_bit m e ->
     2 ^ (leading_bit m e - eh) <= Zpos mh) ->
  mag_le (div (of_Z 1) (S754_finite false mh eh)) 46 /\
  mag_le (mul p (div (of_Z 1) (S754_finite false mh eh))) 1.
Proof.
  intros Fp Vp He Hge.
  assert (H1 : mag_le (of_Z 1) 0) by (vm_compute; discriminate).
  assert (Hlow : 2 ^ (-46 - eh) <= Zpos mh).
  { destruct (Z.eq_dec eh (-46)) as [->|]; [simpl; lia|].
    rewrite Z.pow_neg_r by lia. lia. }
  pose proof (div_mag_le (of_Z 1) false mh eh 0 (-46) H1 Hlow ltac:(lia)) as D0.
  split; [exact D0|].
  destruct p as [sp| | |sp mp ep]; try discriminate.
  - destruct (div (of_Z 1) (S754_finite false mh eh)); cbn [mag_le] in D0;
      try contradiction; exact I.
  - set (lb := leading_bit mp ep).
    destruct Vp as [Hm53 Hmax].
    assert (Hd : Zdigits2 (Zpos mp) <= 53).
    { pose proof (Zdigits2_bounds (Zpos mp) ltac:(lia)) as [B _].
      destruct (Z.le_gt_cases (Zdigits2 (Zpos mp)) 53) as [?|G]; [assumption|].
      assert (2 ^ 53 <= 2 ^ (Zdigits2 (Zpos mp) - 1))
        by (apply Z.pow_le_mono_r; lia).
      lia. }
    assert (Hlb : lb <= 1023) by (unfold lb, leading_bit; lia).
    set (c := Z.max lb (-46)).
    assert (Hc : 2 ^ (c - eh) <= Zpos mh).
    { unfold c. destruct (Z.le_gt_cases (-46) lb) as [H|H].
      - replace (Z.max lb (-46)) with lb by lia.
        apply (Hge sp mp ep eq_refl). fold lb. lia.
      - replace (Z.max lb (-46)) with (-46) by lia. exact Hlow. }
    pose proof (div_mag_le (of_Z 1) false mh eh 0 c H1 Hc ltac:(unfold c; lia))
      as D.
    pose proof (leading_bit_mag mp ep sp) as Hp. fold lb in Hp.
    apply (mag_le_weaken _ _ (c + 1)) in Hp; [|unfold c; lia].
    pose proof (mul_mag_le _ _ (c + 1) (0 - c) ltac:(lia) Hp D) as Hm.
    replace (c + 1 + (0 - c)) with 1 in Hm by lia. exact Hm.
Qed.

(** numpy's quotient by a positive real modulus [h]: both parts are
    multiplied by [1 / h]. *)
Lemma np_c_quot_by_modulus a b mh eh :
  np_c_quot (NpComplex128 a b) (of_float64 (S754_finite false mh eh))
  = NpComplex128
      (mul (add a (mul b (S754_zero false)))
           (div (of_Z 1) (S754_finite false mh eh)))
      (mul (sub b (mul a (S754_zero false)))
           (div (of_Z 1) (S754_finite false mh eh))).
Proof. reflexivity. Qed.

Lemma mul_add_zero_bound p s scl k0 k :
  is_finite p = true -> mag_le scl k0 -> mag_le (mul p scl) k ->
  mag_le (mul (add p (S754_zero s)) scl) k.
Proof.
  intros Fp Hs Hm. destruct p as [sp| | |sp mp ep]; try discriminate.
  - destruct scl as [ss| | |ss ms es]; cbn [mag_le] in Hs; try contradiction;
      destruct sp, s; exact I.
  - exact Hm.
Qed.

Lemma mul_sub_zero_bound p s scl k0 k :
  is_finite p = true -> mag_le scl k0 -> mag_le (mul p scl) k ->
  mag_le (mul (sub p (S754_zero s)) scl) k.
Proof.
  intros Fp Hs Hm. destruct p as [sp| | |sp mp ep]; try discriminate.
  - destruct scl as [ss| | |ss ms es]; cbn [mag_le] in Hs; try contradiction;
      destruct sp, s; exact I.
  - exact Hm.
Qed.

Lemma mul_finite_zero p s :
  is_finite p = true -> exists s', mul p (S754_zero s) = S754_zero s'.
Proof.
  destruct p; try discriminate; intros _; eexists; reflexivity.
Qed.

(** [q * max_mag] for a quotient [q] whose parts are at most 2. *)
Lemma scale_to_max_mag q1 q2 :
  mag_le q1 1 -> mag_le q2 1 ->
  mag_le (real (c_mul (NpComplex128 q1 q2) (of_float default_max_mag))) 8 /\
  mag_le (imag (c_mul (NpComplex128 q1 q2) (of_float default_max_mag))) 8.
Proof.
  intros H1 H2.
  assert (Hm : mag_le default_max_mag 7) by (vm_compute; discriminate).
  unfold c_mul. rewrite real_mk_like, imag_mk_like.
  cbn [real imag of_float]. unfold zero.
  destruct (mul_zero_r q1 false 1 H1) as [s1 E1].
  destruct (mul_zero_r q2 false 1 H2) as [s2 E2].
  rewrite E1, E2. split.
  - apply mag_le_zero_sub. apply (mul_mag_le q1 default_max_mag 1 7); auto; lia.
  - apply mag_le_zero_add. apply (mul_mag_le q2 default_max_mag 1 7); auto; lia.
Qed.

Lemma clamp_applied a b mh eh :
  is_finite a = true -> is_finite b = true ->
  mag_le (div (of_Z 1) (S754_finite false mh eh)) 46 ->
  mag_le (mul a (div (of_Z 1) (S754_finite false mh eh))) 1 ->
  mag_le (mul b (div (of_Z 1) (S754_finite false mh eh))) 1 ->
  exists z',
    (q <- c_div (NpComplex128 a b)
            (modulus_operand (NpComplex128 a b) (S754_finite false mh eh)) ;;
     Ok (c_mul q (of_float default_max_mag))) = Ok z' /\
    mag_le (real z') 8 /\ mag_le (imag z') 8.
Proof.
  intros Fa Fb S0 Sa Sb.
  unfold c_div, modulus_operand. cbn [is_numpy orb bind].
  rewrite np_c_quot_by_modulus.
  destruct (mul_finite_zero a false Fa) as [sa Ea].
  destruct (mul_finite_zero b false Fb) as [sb Eb].
  rewrite Ea, Eb.
  eexists. split; [reflexivity|].
  apply scale_to_max_mag.
  - now apply (mul_add_zero_bound a sb _ 46 1).
  - now apply (mul_sub_zero_bound b sa _ 46 1).
Qed.

Lemma ltb_max_mag mh eh :
  ltb default_max_mag (S754_finite false mh eh)
  = match -46 ?= eh with
    | Lt => true
    | Gt => false
    | Eq => match Pos.compare_cont Eq 7036874417766400 mh with
            | Lt => true
            | _ => false
            end
    end.
Proof.
  change default_max_mag with (S754_finite false 7036874417766400 (-46)).
  unfold ltb, SFltb, SFcompare.
  destruct (-46 ?= eh); try reflexivity.
Qed.

(** The clamp of a numpy complex with finite parts and a finite modulus
    returns a number whose parts are at most [2^8] in magnitude. *)
Lemma clamp_numpy_finite erange a b :
  is_finite a = true -> is_finite b = true ->
  machine_float a -> machine_float b ->
  is_finite (hypot a b) = true ->
  exists z', clamp erange (NpComplex128 a b) default_max_mag = Ok z' /\
             mag_le (real z') 8 /\ mag_le (imag z') 8.
Proof.
  intros Fa Fb Va Vb Fh.
  destruct (hypot_parts a b Fa Fb Va Vb) as (R & GA & GB).
  unfold clamp, c_abs. cbn [real imag bind].
  destruct (hypot a b) as [sh| | |sh mh eh] eqn:Eh; try discriminate.
  - (* the modulus is zero: both parts are below the smallest subnormal *)
    change (ltb default_max_mag (S754_zero sh)) with false. cbv iota.
    eexists. split; [reflexivity|]. cbn [real imag].
    split.
    + destruct a as [sa| | |sa ma ea]; try discriminate; [exact I|].
      destruct (Z.le_gt_cases (-1074) (leading_bit ma ea)) as [H|H].
      * exact (False_ind _ (GA sa ma ea eq_refl H)).
      * apply (mag_le_weaken _ (leading_bit ma ea + 1)); [lia|].
        apply leading_bit_mag.
    + destruct b as [sb| | |sb mb eb]; try discriminate; [exact I|].
      destruct (Z.le_gt_cases (-1074) (leading_bit mb eb)) as [H|H].
      * exact (False_ind _ (GB sb mb eb eq_refl H)).
      * apply (mag_le_weaken _ (leading_bit mb eb + 1)); [lia|].
        apply leading_bit_mag.
  - cbn [rounded] in R. destruct R as [-> Hmh].
    rewrite ltb_max_mag.
    assert (Hpart : forall p,
      is_finite p = true ->
      (forall s m e, p = S754_finite s m e -> -1074 <= leading_bit m e ->
         2 ^ (leading_bit m e - eh) <= Zpos mh) ->
      eh <= -46 -> mag_le p 8).
    { intros p Fp Hge He.
      destruct p as [sp| | |sp mp ep]; try discriminate; [exact I|].
      apply (mag_le_weaken _ (leading_bit mp ep + 1)); [|apply leading_bit_mag].
      destruct (Z.le_gt_cases (-1074) (leading_bit mp ep)) as [H|H]; [|lia].
      specialize (Hge sp mp ep eq_refl H).
      assert (H2 : 2 ^ (leading_bit mp ep - eh) < 2 ^ 53) by lia.
      destruct (Z.le_gt_cases (leading_bit mp ep - eh) 0); [lia|].
      apply Z.pow_lt_mono_r_iff in H2; lia. }
    destruct (Z.compare_spec (-46) eh) as [He|He|He].
    + (* same exponent as 100.0 *)
      destruct (Pos.compare_cont Eq 7036874417766400 mh) eqn:Ec.
      * eexists. split; [reflexivity|]. cbn [real imag].
        split; apply Hpart; auto; lia.
      * destruct (part_over_modulus a mh eh Fa Va ltac:(lia) GA) as [S0 Sa].
        destruct (part_over_modulus b mh eh Fb Vb ltac:(lia) GB) as [_ Sb].
        now apply clamp_applied.
      * eexists. split; [reflexivity|]. cbn [real imag].
        split; apply Hpart; auto; lia.
    + destruct (part_over_modulus a mh eh Fa Va ltac:(lia) GA) as [S0 Sa].
      destruct (part_over_modulus b mh eh Fb Vb ltac:(lia) GB) as [_ Sb].
      now apply clamp_applied.
    + eexists. split; [reflexivity|]. cbn [real imag].
      split; apply Hpart; auto; lia.
Qed.

Lemma frac_part_bounded x k :
  0 <= k <= 900 -> mag_le x k ->
  exists n f,
    py_int_of_float (fabs x) = Ok n /\ py_float_of_int n = Ok f /\
    mag_le (sub (fabs x) f) (k + 1).
Proof.
  intros Hk Hx. destruct x as [s| | |s m e]; cbn [mag_le] in Hx;
    try contradiction.
  - exists 0, (S754_zero false). repeat split; exact I.
  - pose proof (pow2_pos_exponent _ _ Hx) as Hke.
    cbn [fabs SFabs py_int_of_float].
    set (t := if 0 <=? e then Z.pos m * 2 ^ e else Z.pos m / 2 ^ (- e)).
    assert (Ht : 0 <= t <= 2 ^ k).
    { unfold t. destruct (Z.leb_spec 0 e) as [He|He].
      - assert (0 < 2 ^ e) by (apply Z.pow_pos_nonneg; lia).
        split; [nia|].
        replace k with ((k - e) + e) at 1 by lia.
        rewrite Z.pow_add_r by lia.
        apply Z.mul_le_mono_nonneg_r; lia.
      - assert (0 < 2 ^ (- e)) by (apply Z.pow_pos_nonneg; lia).
        split; [apply Z.div_pos; lia|].
        apply Z.div_le_upper_bound; [lia|].
        rewrite <- Z.pow_add_r by lia.
        replace (- e + k) with (k - e) by lia. exact Hx. }
    destruct (py_float_of_int_ok t k ltac:(lia)) as [E1 E2];
      [rewrite Z.abs_eq; lia|].
    exists t, (of_Z t). split; [reflexivity|]. split; [exact E1|].
    apply sub_mag_le; [lia|exact Hx|exact E2].
Qed.

Lemma scaled_int_bounded fr k :
  0 <= k <= 950 -> mag_le fr k ->
  exists r, py_int_of_float (mul fr (of_Z (2 ^ 20))) = Ok r.
Proof.
  intros Hk H.
  assert (H20 : mag_le (of_Z (2 ^ 20)) 20) by (vm_compute; discriminate).
  pose proof (mul_mag_le fr (of_Z (2 ^ 20)) k 20 ltac:(lia) H H20) as Hm.
  destruct (mul fr (of_Z (2 ^ 20))) as [s| | |s m e]; simpl in Hm;
    try contradiction; eexists; reflexivity.
Qed.

Lemma extract_byte_bounded z k :
  0 <= k <= 900 -> mag_le (real z) k -> mag_le (imag z) k ->
  exists b, extract_byte z = Ok b /\ is_byte b.
Proof.
  intros Hk Hr Hi.
  destruct (frac_part_bounded _ k Hk Hr) as (n1 & f1 & A1 & A2 & A3).
  destruct (frac_part_bounded _ k Hk Hi) as (n2 & f2 & B1 & B2 & B3).
  destruct (scaled_int_bounded _ (k + 1) ltac:(lia) A3) as (r1 & R1).
  destruct (scaled_int_bounded _ (k + 1) ltac:(lia) B3) as (r2 & R2).
  unfold extract_byte.
  rewrite A1. cbn [bind]. rewrite A2. cbn [bind].
  rewrite B1. cbn [bind]. rewrite B2. cbn [bind].
  change (py_float_of_int (2 ^ 20)) with (Ok (of_Z (2 ^ 20))). cbn [bind].
  rewrite R1. cbn [bind]. rewrite R2. cbn [bind].
  eexists. split; [reflexivity|]. apply land_0xFF_is_byte.
Qed.

(** The hypot of two finite parts is a zero, a finite float or the
    positive infinity. *)
Lemma clamp_numpy_result erange a b :
  is_finite a = true -> is_finite b = true ->
  machine_float a -> machine_float b ->
  exists z', clamp erange (NpComplex128 a b) default_max_mag = Ok z' /\
             mag_le (real z') 8 /\ mag_le (imag z') 8.
Proof.
  intros Fa Fb Va Vb.
  destruct (is_finite (hypot a b)) eqn:Fh.
  - now apply clamp_numpy_finite.
  - destruct (hypot_parts a b Fa Fb Va Vb) as (R & _ & _).
    assert (Eh : hypot a b = S754_infinity false).
    { destruct (hypot a b); cbn [rounded is_finite] in *; try discriminate;
        try contradiction. now subst. }
    destruct (clamp_numpy_overflow erange a b Fa Fb Eh) as (s1 & s2 & E).
    rewrite E. eexists. split; [reflexivity|]. split; exact I.
Qed.

(** X17. The loop body on a finite result: whenever the [try] block
    returns a number whose two parts are finite floats, [fractal_function]
    returns a state whose parts are at most [2^8] in magnitude (the output
    clamp divides by a modulus that is not below a part, or returns zero
    when the modulus overflows), the byte extraction succeeds on it, and
    the iteration appends a byte and goes on. *)
Theorem keystream_step_finite_result
    (z z1 alpha beta gamma r : cnum)
    (start_time : float) (length i : Z) (ks : list Z) (w : world) :
  clamp (erange_in (errno_seen w (map_calls w))) z default_max_mag = Ok z1 ->
  map_body (erange_try (errno_seen w (map_calls w))) z1 alpha beta gamma
    = Ok r ->
  finite_state r = true ->
  valid_float (real r) = true -> valid_float (imag r) = true ->
  exists z' b,
    fractal_function (errno_seen w (map_calls w)) z alpha beta gamma
      default_max_mag = Ok z' /\
    mag_le (real z') 8 /\ mag_le (imag z') 8 /\
    extract_byte z' = Ok b /\ is_byte b /\
    fst (keystream_step alpha beta gamma start_time length i (z, ks) w)
      = Ok (z', ks ++ [b]).
Proof.
  intros Hc Hm Hf Vr Vi.
  destruct (map_body_numpy _ _ _ _ _ _ Hm) as (a & b & ->).
  unfold finite_state in Hf. cbn [real imag] in *.
  apply andb_prop in Hf. destruct Hf as [Fa Fb].
  destruct (clamp_numpy_result (erange_out (errno_seen w (map_calls w)))
              a b Fa Fb (valid_machine _ Vr) (valid_machine _ Vi))
    as (z' & Ez & Br & Bi).
  destruct (extract_byte_bounded z' 8 ltac:(lia) Br Bi) as (byte & Eb & Hb).
  assert (Hff : fractal_function (errno_seen w (map_calls w)) z alpha beta
                  gamma default_max_mag = Ok z').
  { unfold fractal_function. rewrite Hc. cbn [bind]. rewrite Hm.
    cbn [try_except bind]. exact Ez. }
  exists z', byte.
  split; [exact Hff|]. split; [exact Br|]. split; [exact Bi|].
  split; [exact Eb|]. split; [exact Hb|].
  rewrite keystream_step_result. unfold pure_step. cbn [fst snd].
  rewrite Hff. cbn [bind]. rewrite Eb. reflexivity.
Qed.

End StepFacts.

Section StepFacts2.

Context {hashlib : Hashlib} {numpy : NumPy}.

Import FloatFacts FloatOrder FloatExact FloatLower.

Lemma extract_byte_nan_imag a :
  is_finite a = true -> valid_float a = true ->
  extract_byte (NpComplex128 a nan) = Raise ValueError.
Proof.
  intros Fa Va.
  destruct (frac_part_ok a Fa Va) as (n & f & A1 & A2 & _).
  unfold extract_byte. cbn [real imag].
  rewrite A1. cbn [bind]. rewrite A2. reflexivity.
Qed.

Lemma clamp_extract_table erange a b :
  is_finite a && is_finite b = false ->
  is_finite a && is_nan b = false ->
  match clamp erange (NpComplex128 a b) default_max_mag with
  | Ok z' =>
      has_nan z' && match extract_byte z' with
                    | Raise ValueError => true
                    | _ => false
                    end
  | Raise _ => false
  end = true.
Proof.
  destruct a as [sa|sa| |sa ma ea]; destruct b as [sb|sb| |sb mb eb];
    cbn [is_finite is_nan andb]; intros H1 H2;
    try discriminate H1; try discriminate H2;
    vm_compute; reflexivity.
Qed.

(** The output clamp and the byte extraction on a result of the [try]
    block that is not finite. *)
Lemma clamp_extract_not_finite erange a b :
  valid_float a = true ->
  is_finite a && is_finite b = false ->
  exists z', clamp erange (NpComplex128 a b) default_max_mag = Ok z' /\
             has_nan z' = true /\ extract_byte z' = Raise ValueError.
Proof.
  intros Va Hf.
  destruct (is_finite a && is_nan b) eqn:Hn.
  - apply andb_prop in Hn. destruct Hn as [Fa Nb].
    destruct b; try discriminate Nb.
    exists (NpComplex128 a nan).
    split; [destruct a; try discriminate Fa; reflexivity|].
    split; [unfold has_nan; cbn [real imag is_nan]; apply orb_true_r|].
    now apply extract_byte_nan_imag.
  - pose proof (clamp_extract_table erange a b Hf Hn) as H.
    destruct (clamp erange (NpComplex128 a b) default_max_mag) as [z'|];
      [|discriminate H].
    apply andb_prop in H. destruct H as [H1 H2].
    exists z'. split; [reflexivity|]. split; [exact H1|].
    destruct (extract_byte z') as [|[]]; try discriminate H2. reflexivity.
Qed.

(** X18. The loop body on a result that is not finite: when the [try]
    block returns a number with a NaN or an infinite part, the output
    clamp raises nothing and returns a state with a NaN ([result /
    abs(result)] of an infinite part is a NaN), and [int()] in the byte
    extraction raises [ValueError], which ends the generator. *)
Theorem keystream_step_not_finite_result
    (z z1 alpha beta gamma r : cnum)
    (start_time : float) (length i : Z) (ks : list Z) (w : world) :
  clamp (erange_in (errno_seen w (map_calls w))) z default_max_mag = Ok z1 ->
  map_body (erange_try (errno_seen w (map_calls w))) z1 alpha beta gamma
    = Ok r ->
  valid_float (real r) = true ->
  finite_state r = false ->
  exists z',
    fractal_function (errno_seen w (map_calls w)) z alpha beta gamma
      default_max_mag = Ok z' /\
    has_nan z' = true /\
    extract_byte z' = Raise ValueError /\
    fst (keystream_step alpha beta gamma start_time length i (z, ks) w)
      = Raise ValueError.
Proof.
  intros Hc Hm Vr Hf.
  destruct (map_body_numpy _ _ _ _ _ _ Hm) as (a & b & ->).
  unfold finite_state in Hf. cbn [real imag] in *.
  destruct (clamp_extract_not_finite
              (erange_out (errno_seen w (map_calls w))) a b Vr Hf)
    as (z' & Ez & Hn & Ee).
  assert (Hff : fractal_function (errno_seen w (map_calls w)) z alpha beta
                  gamma default_max_mag = Ok z').
  { unfold fractal_function. rewrite Hc. cbn [bind]. rewrite Hm.
    cbn [try_except bind]. exact Ez. }
  exists z'. split; [exact Hff|]. split; [exact Hn|]. split; [exact Ee|].
  rewrite keystream_step_result. unfold pure_step. cbn [fst snd].
  rewrite Hff. cbn [bind]. rewrite Ee. reflexivity.
Qed.

(** The output clamp on a result with an infinite part: [abs] returns the
    infinity, and [result / inf * max_mag] is NaN in both parts. *)
Lemma clamp_infinite erange a b :
  is_infinite a || is_infinite b = true ->
  clamp erange (NpComplex128 a b) default_max_mag
  = Ok (NpComplex128 nan nan).
Proof.
  destruct a as [sa|sa| |sa ma ea]; destruct b as [sb|sb| |sb mb eb];
    cbn [is_infinite orb]; intros H; try discriminate H;
    vm_compute; reflexivity.
Qed.

(** C5, where the code leaves it.  numpy signals an overflow by returning
    an infinity: nothing is raised inside the [try] block, so the [except]
    clause does not run.  When the [try] block returns a result with an
    infinite part, [fractal_function] returns [nan+nanj], not [0+0i], and
    the loop body of the generator raises [ValueError] at [int()] of line
    81: the generation aborts. *)
Theorem fractal_function_overflow_not_caught
    (z z1 alpha beta gamma r : cnum)
    (start_time : float) (length i : Z) (ks : list Z) (w : world) :
  clamp (erange_in (errno_seen w (map_calls w))) z default_max_mag = Ok z1 ->
  map_body (erange_try (errno_seen w (map_calls w))) z1 alpha beta gamma
    = Ok r ->
  is_infinite (real r) || is_infinite (imag r) = true ->
  fractal_function (errno_seen w (map_calls w)) z alpha beta gamma
    default_max_mag = Ok (NpComplex128 nan nan) /\
  fst (keystream_step alpha beta gamma start_time length i (z, ks) w)
    = Raise ValueError.
Proof.
  intros Hc Hm Hi.
  destruct (map_body_numpy _ _ _ _ _ _ Hm) as (a & b & ->).
  cbn [real imag] in Hi.
  assert (Hff : fractal_function (errno_seen w (map_calls w)) z alpha beta
                  gamma default_max_mag = Ok (NpComplex128 nan nan)).
  { unfold fractal_function. rewrite Hc. cbn [bind]. rewrite Hm.
    cbn [try_except bind]. now apply clamp_infinite. }
  split; [exact Hff|].
  rewrite keystream_step_result. unfold pure_step. cbn [fst snd].
  rewrite Hff. reflexivity.
Qed.

End StepFacts2.

Lemma Raise_inj {A} (e1 e2 : exn) : @Raise A e1 = Raise e2 -> e1 = e2.
Proof. congruence. Qed.

Section ExceptionFacts.

Context {hashlib : Hashlib} {numpy : NumPy}.

(** The division [z / abs(z)] of the clamp is reached only with a modulus
    above [max_mag]: it does not divide by zero. *)
Lemma c_div_by_modulus_returns z a :
  ltb default_max_mag a = true ->
  exists q, c_div z (modulus_operand z a) = Ok q.
Proof.
  intros Ha. unfold c_div, modulus_operand.
  destruct z as [re im|re im]; cbn [is_numpy orb]; [|eauto].
  unfold py_c_quot, of_float. cbn [real imag].
  destruct a as [s|s| |s m e]; try discriminate Ha;
    (destruct s; try discriminate Ha; eexists; reflexivity).
Qed.

Lemma c_abs_raises erange z e :
  c_abs erange z = Raise e ->
  e = OverflowError /\ (modulus_overflows z \/ stale_erange erange z).
Proof.
  unfold c_abs, modulus_overflows, stale_erange, finite_state, has_nan.
  intros Ea.
  destruct z as [re im|re im]; [|discriminate Ea].
  cbn [real imag is_numpy] in *.
  destruct (is_finite re && is_finite im) eqn:Ef.
  - destruct (is_finite (hypot re im)); [discriminate Ea|].
    apply Raise_inj in Ea. auto.
  - destruct (is_infinite re || is_infinite im) eqn:Ei; [discriminate Ea|].
    destruct erange; [|discriminate Ea].
    apply Raise_inj in Ea. split; [auto|]. right.
    repeat split.
    destruct re; try discriminate Ei; destruct im; try discriminate Ei;
      try discriminate Ef; reflexivity.
Qed.

Lemma clamp_raises erange z e :
  clamp erange z default_max_mag = Raise e ->
  e = OverflowError /\ (modulus_overflows z \/ stale_erange erange z).
Proof.
  unfold clamp. intros H.
  destruct (c_abs erange z) as [a|e'] eqn:Ea; cbn [bind] in H.
  - destruct (ltb default_max_mag a) eqn:El; [|discriminate H].
    destruct (c_div_by_modulus_returns z a El) as [q Eq].
    rewrite Eq in H. discriminate H.
  - apply Raise_inj in H. subst e'. now apply c_abs_raises in Ea.
Qed.

Lemma clamp_numpy_returns erange re im :
  exists z', clamp erange (NpComplex128 re im) default_max_mag = Ok z'.
Proof.
  destruct (clamp erange (NpComplex128 re im) default_max_mag) as [z'|e] eqn:E;
    [eauto|].
  apply clamp_raises in E.
  destruct E as (_ & [(Hn & _)|(_ & Hn & _)]); discriminate Hn.
Qed.

Lemma map_body_result erange z alpha beta gamma :
  match map_body erange z alpha beta gamma with
  | Ok r => is_numpy r = true
  | Raise e => e = OverflowError \/ numpy_raises e
  end.
Proof.
  unfold map_body.
  destruct (py_float_mod_two_pi_returns (real z)) as (zr & -> & _).
  destruct (py_float_mod_two_pi_returns (imag z)) as (zi & -> & _).
  cbn [bind]. unfold np_complex.
  destruct (np_sin _) as [p|e] eqn:Es; cbn [bind];
    [|right; left; eauto].
  destruct (np_cos _) as [q|e] eqn:Ec; cbn [bind];
    [|right; right; left; eauto].
  destruct (c_abs erange (PyComplex zr zi)) as [a|e] eqn:Ea; cbn [bind];
    [|left; now apply c_abs_raises in Ea].
  destruct (np_exp _) as [x|e] eqn:Ee; cbn [bind];
    [|right; right; right; eauto].
  unfold c_add, mk_like. cbn [is_numpy orb]. rewrite ?orb_true_r.
  reflexivity.
Qed.

(** After the input clamp, the map step raises only what numpy raises and
    the [except] clause lets through. *)
Lemma map_and_output_clamp_raises e1 e2 z1 alpha beta gamma e :
  (result <- try_except (map_body e1 z1 alpha beta gamma) overflow_or_fpe
               (Ok (PyComplex (of_Z 0) (of_Z 0))) ;;
   clamp e2 result default_max_mag) = Raise e ->
  numpy_raises e /\ overflow_or_fpe e = false.
Proof.
  intros H.
  pose proof (map_body_result e1 z1 alpha beta gamma) as Hb.
  destruct (map_body e1 z1 alpha beta gamma) as [r|x]; cbn [try_except] in H.
  - cbn [bind] in H. destruct r as [re im|re im]; [discriminate Hb|].
    destruct (clamp_numpy_returns e2 re im) as [z' E']. rewrite E' in H.
    discriminate H.
  - destruct (overflow_or_fpe x) eqn:Ec; cbn [bind] in H.
    + change (of_Z 0) with zero in H. rewrite clamp_zero in H. discriminate H.
    + apply Raise_inj in H. subst x.
      destruct Hb as [->|Hb]; [discriminate Ec|auto].
Qed.

(** X19. The exceptions of the map step.  [fractal_function] raises only
    in two ways.  One is [OverflowError] from [abs(z)] of the input clamp,
    on a Python [complex]: with finite parts whose modulus overflows, or
    with a NaN part and no infinite one when [errno] still holds [ERANGE]
    from an earlier call.  The other is an exception of a numpy call that
    the [except] clause does not catch.  The division by [abs(z)] never
    divides by zero, and the output clamp raises nothing. *)
Theorem fractal_function_raises_only
    (errno : errno_view) (z alpha beta gamma : cnum) (e : exn) :
  fractal_function errno z alpha beta gamma default_max_mag = Raise e ->
  (e = OverflowError /\
   (modulus_overflows z \/ stale_erange (erange_in errno) z)) \/
  (numpy_raises e /\ overflow_or_fpe e = false).
Proof.
  unfold fractal_function. intros H.
  destruct (clamp (erange_in errno) z default_max_mag) as [z1|e1] eqn:E1;
    cbn [bind] in H.
  - right. eapply map_and_output_clamp_raises. exact H.
  - left. apply Raise_inj in H. subst e1. now apply clamp_raises.
Qed.

Lemma py_int_of_float_raises x e :
  py_int_of_float x = Raise e -> e = ValueError \/ e = OverflowError.
Proof.
  destruct x; cbn [py_int_of_float]; intros H; try discriminate H;
    apply Raise_inj in H; auto.
Qed.

Lemma py_float_of_int_raises n e :
  py_float_of_int n = Raise e -> e = OverflowError.
Proof.
  unfold py_float_of_int. destruct (of_Z n); intros H; try discriminate H.
  now apply Raise_inj in H.
Qed.

Lemma extract_byte_raises z e :
  extract_byte z = Raise e -> e = ValueError \/ e = OverflowError.
Proof.
  unfold extract_byte. intros H.
  repeat match type of H with
         | bind (py_int_of_float ?x) _ = Raise _ =>
             let E := fresh "E" in
             destruct (py_int_of_float x) eqn:E; cbn [bind] in H;
             [clear E|apply Raise_inj in H; subst;
                      now apply py_int_of_float_raises in E]
         | bind (py_float_of_int ?x) _ = Raise _ =>
             let E := fresh "E" in
             destruct (py_float_of_int x) eqn:E; cbn [bind] in H;
             [clear E|apply Raise_inj in H; subst;
                      apply py_float_of_int_raises in E; auto]
         end.
  discriminate H.
Qed.

Lemma iterate_raises errno k alpha beta gamma n s e :
  iterate errno k alpha beta gamma n s = Raise e ->
  e = ValueError \/ e = OverflowError \/
  (numpy_raises e /\ overflow_or_fpe e = false).
Proof.
  revert k s. induction n as [|n IH]; intros k s H; [discriminate H|].
  cbn [iterate] in H.
  destruct (pure_step (errno k) alpha beta gamma s) as [s'|e'] eqn:Es;
    cbn [bind] in H; [now apply IH in H|].
  apply Raise_inj in H. subst e'. unfold pure_step in Es.
  destruct (fractal_function _ _ _ _ _ _) as [z|e'] eqn:Ef; cbn [bind] in Es.
  - destruct (extract_byte z) as [b|e'] eqn:Eb; cbn [bind] in Es;
      [discriminate Es|].
    apply Raise_inj in Es. subst e'.
    apply extract_byte_raises in Eb. tauto.
  - apply Raise_inj in Es. subst e'. unfold fractal_function in Ef.
    destruct (clamp _ (fst s) default_max_mag) as [z1|e1] eqn:E1;
      cbn [bind] in Ef.
    + apply map_and_output_clamp_raises in Ef. auto.
    + apply Raise_inj in Ef. subst e1. apply clamp_raises in E1.
      destruct E1 as [-> _]. auto.
Qed.

(** X20. The exceptions of the generator.  Whatever the password, the
    length and the seed, [generate_keystream] raises only [ValueError],
    [OverflowError], or an exception of a numpy call that the [except]
    clause does not catch: no [ZeroDivisionError] of its own, and no
    [FloatingPointError]. *)
Theorem generate_keystream_exceptions
    (password : string) (length : Z) (seed : cnum) (w : world) (e : exn) :
  fst (generate_keystream password length seed w) = Raise e ->
  e = ValueError \/ e = OverflowError \/
  (numpy_raises e /\ overflow_or_fpe e = false).
Proof.
  rewrite generate_keystream_result, keystream_of_eq. intros H.
  destruct (iterate _ _ _ _ _ _ _) as [s|e'] eqn:Ei; cbn [bind] in H;
    [discriminate H|].
  apply Raise_inj in H. subst e'. eapply iterate_raises; eassumption.
Qed.

End ExceptionFacts.

(* ================================================================= *)
(** * Facts: every result of the arithmetic is in the range of binary64 *)

Module FloatRange.

Import FloatFacts FloatOrder FloatExact FloatLower.

Lemma round_float_machine s m e l :
  0 <= m -> machine_float (round_float s m e l).
Proof.
  intros Hm.
  unfold round_float, DBL_MANT_DIG, DBL_MAX_EXP, binary_round_aux.
  pose proof (shr_fexp_lt m e l Hm) as [A1 _].
  destruct (shr_fexp 53 1024 m e l) as [x1 e1]. cbn [fst] in A1.
  pose proof (round_nearest_even_bounds x1) as Hr.
  set (m2 := round_nearest_even (shr_m x1) (loc_of_shr_record x1)) in *.
  pose proof (shr_fexp_lt m2 e1 loc_Exact ltac:(lia)) as [B1 B2].
  destruct (shr_fexp 53 1024 m2 e1 loc_Exact) as [x3 e3]. cbn [fst] in B1, B2.
  destruct (shr_m x3); try lia; [exact I|].
  destruct (Z.leb_spec e3 (1024 - 53)); cbn [machine_float]; [lia|exact I].
Qed.

Lemma binary_round_machine s m e :
  machine_float (binary_round 53 1024 s m e).
Proof.
  unfold binary_round.
  destruct (shl_align m e _) as [mz ez].
  apply (round_float_machine s (Zpos mz) ez loc_Exact). lia.
Qed.

Lemma binary_normalize_machine m e s :
  machine_float (binary_normalize 53 1024 m e s).
Proof.
  unfold binary_normalize. destruct m; [exact I| |]; apply binary_round_machine.
Qed.

Lemma mul_machine x y : machine_float (mul x y).
Proof.
  destruct x as [sx|sx| |sx mx ex]; destruct y as [sy|sy| |sy my ey];
    try exact I.
  apply (round_float_machine (xorb sx sy) (Zpos (mx * my)) (ex + ey) loc_Exact).
  lia.
Qed.

Lemma div_core_nonneg m1 e1 m2 e2 :
  0 <= m1 -> 0 < m2 ->
  0 <= fst (fst (SFdiv_core_binary 53 1024 m1 e1 m2 e2)).
Proof.
  intros H1 H2. unfold SFdiv_core_binary.
  set (s := e1 - e2 - _).
  set (m' := match s with Z0 => m1 | Zpos _ => Z.shiftl m1 s | Zneg _ => 0 end).
  assert (Hm : 0 <= m').
  { unfold m'. destruct s; try lia. apply Z.shiftl_nonneg. lia. }
  pose proof (Z.div_pos m' m2 Hm H2) as Hq. unfold Z.div in Hq.
  destruct (Z.div_eucl m' m2) as [q r]. exact Hq.
Qed.

Lemma div_machine x y : machine_float (div x y).
Proof.
  destruct x as [sx|sx| |sx mx ex]; destruct y as [sy|sy| |sy my ey];
    try exact I.
  unfold div, SFdiv.
  pose proof (div_core_nonneg (Zpos mx) ex (Zpos my) ey ltac:(lia) ltac:(lia))
    as Hq.
  unfold DBL_MANT_DIG, DBL_MAX_EXP.
  destruct (SFdiv_core_binary 53 1024 (Zpos mx) ex (Zpos my) ey) as [[q e] l].
  cbn [fst] in Hq. now apply round_float_machine.
Qed.

Lemma add_machine x y :
  machine_float x -> machine_float y -> machine_float (add x y).
Proof.
  intros Hx Hy.
  destruct x as [sx|sx| |sx mx ex]; destruct y as [sy|sy| |sy my ey];
    try exact I; try assumption;
    try (destruct sx, sy; exact I).
  apply binary_normalize_machine.
Qed.

Lemma neg_machine x : machine_float x -> machine_float (neg x).
Proof. destruct x; auto. Qed.

Lemma fabs_machine x : machine_float x -> machine_float (fabs x).
Proof. destruct x; auto. Qed.

Lemma sub_machine x y :
  machine_float x -> machine_float y -> machine_float (sub x y).
Proof.
  intros Hx Hy.
  destruct x as [sx|sx| |sx mx ex]; destruct y as [sy|sy| |sy my ey];
    try exact I; try assumption;
    try (destruct sx, sy; exact I).
  apply binary_normalize_machine.
Qed.

Lemma add_as_sub x y : add x y = sub x (neg y).
Proof.
  destruct x as [sx|sx| |sx mx ex]; destruct y as [sy|sy| |sy my ey];
    try reflexivity;
    try (destruct sx, sy; reflexivity).
Qed.

Lemma mag_le_neg x k : mag_le x k -> mag_le (neg x) k.
Proof. destruct x; auto. Qed.

Lemma add_mag_le x y k :
  -1074 <= k + 1 <= 971 ->
  mag_le x k -> mag_le y k -> mag_le (add x y) (k + 1).
Proof.
  intros Hk Hx Hy. rewrite add_as_sub.
  apply sub_mag_le; auto using mag_le_neg.
Qed.

End FloatRange.

(* ================================================================= *)
(** * Facts: the states of a run *)

Section RegularFacts.

Context {hashlib : Hashlib} {numpy : NumPy}.

Import FloatFacts FloatOrder FloatExact FloatLower FloatRange.

Lemma c_mul_machine a b : machine_state (c_mul a b).
Proof.
  unfold machine_state, c_mul. rewrite real_mk_like, imag_mk_like.
  split; [apply sub_machine|apply add_machine]; apply mul_machine.
Qed.

Lemma c_add_machine a b :
  machine_state a -> machine_state b -> machine_state (c_add a b).
Proof.
  unfold machine_state, c_add. rewrite real_mk_like, imag_mk_like.
  intros [A1 A2] [B1 B2]. split; now apply add_machine.
Qed.

Lemma clamp_machine erange z z' :
  clamp erange z default_max_mag = Ok z' ->
  machine_state z -> machine_state z'.
Proof.
  unfold clamp. intros H Hz.
  destruct (c_abs erange z) as [a|]; cbn [bind] in H; [|discriminate H].
  destruct (ltb default_max_mag a).
  - destruct (c_div z _) as [q|]; cbn [bind] in H; [|discriminate H].
    apply Ok_inj in H. subst z'. apply c_mul_machine.
  - apply Ok_inj in H. now subst z'.
Qed.

Lemma map_body_machine erange z alpha beta gamma r :
  numpy_floats ->
  map_body erange z alpha beta gamma = Ok r -> machine_state r.
Proof.
  intros (Hsin & Hcos & Hexp). unfold map_body. intros H.
  destruct (py_float_mod (real z) two_pi) as [zr|]; cbn [bind] in H;
    [|discriminate H].
  destruct (py_float_mod (imag z) two_pi) as [zi|]; cbn [bind] in H;
    [|discriminate H].
  destruct (np_sin _) as [q1|] eqn:E1; cbn [np_complex bind] in H;
    [|discriminate H].
  destruct (np_cos _) as [q2|]; cbn [np_complex bind] in H; [|discriminate H].
  destruct (c_abs _ _) as [m|]; cbn [bind] in H; [|discriminate H].
  destruct (np_exp _) as [e|]; cbn [bind] in H; [|discriminate H].
  apply Ok_inj in H. subst r.
  destruct (Hsin _ _ E1) as [V1 V2].
  apply c_add_machine; [apply c_add_machine|]; try apply c_mul_machine.
  split; cbn [real imag]; now apply valid_machine.
Qed.

Lemma zero_machine : machine_state (PyComplex zero zero).
Proof. split; exact I. Qed.

(** Whatever the state, the state a map step returns is within the range
    of binary64. *)
Lemma fractal_function_machine errno z alpha beta gamma z' :
  numpy_floats ->
  fractal_function errno z alpha beta gamma default_max_mag = Ok z' ->
  machine_state z'.
Proof.
  intros Hnp. unfold fractal_function. intros H.
  destruct (clamp _ z default_max_mag) as [z1|]; cbn [bind] in H;
    [|discriminate H].
  destruct (map_body _ z1 alpha beta gamma) as [r|x] eqn:Em;
    cbn [try_except] in H.
  - cbn [bind] in H. apply (clamp_machine _ _ _ H).
    eapply map_body_machine; eassumption.
  - destruct (overflow_or_fpe x); cbn [bind] in H; [|discriminate H].
    apply (clamp_machine _ _ _ H). exact zero_machine.
Qed.

(** The byte extraction returns on finite states only. *)
Lemma extract_byte_finite z b :
  extract_byte z = Ok b -> finite_state z = true.
Proof.
  unfold extract_byte, finite_state. intros H.
  destruct (real z) as [s|s| |s m e]; try discriminate H;
    cbn [fabs SFabs py_int_of_float bind] in H;
    (destruct (py_float_of_int _); cbn [bind] in H; [|discriminate H]);
    (destruct (imag z) as [s'|s'| |s' m' e']; try discriminate H; reflexivity).
Qed.

(** [hypot] is never negative. *)
Lemma hypot_nonneg x y :
  match hypot x y with
  | S754_finite s _ _ | S754_infinity s => s = false
  | _ => True
  end.
Proof.
  destruct x as [sx|sx| |sx mx ex]; destruct y as [sy|sy| |sy my ey];
    try exact I; try reflexivity.
  destruct (hypot_finite_finite sx mx ex sy my ey) as [R _].
  destruct (hypot _ _); cbn [rounded] in R; try exact I; tauto.
Qed.

Lemma le_two_pi_mag m :
  le_dyadic false m 7074237752028440 (-50) -> mag_le m 3.
Proof.
  destruct m as [s| | |s mm e]; cbn [le_dyadic mag_le]; auto.
  intros (_ & He & Hm).
  apply Z.le_trans with (1 := Hm).
  replace (3 - e) with (53 + (-50 - e)) by lia.
  rewrite Z.pow_add_r by lia.
  apply Z.mul_le_mono_nonneg_r; [apply Z.pow_nonneg; lia|]. lia.
Qed.

(** The reduced state of a finite state: finite, and below 8. *)
Lemma z_safe_finite z :
  finite_state z = true ->
  exists zr zi,
    py_float_mod (real z) two_pi = Ok zr /\
    py_float_mod (imag z) two_pi = Ok zi /\
    mag_le zr 3 /\ mag_le zi 3.
Proof.
  unfold finite_state. intros H. apply andb_prop in H. destruct H as [Fr Fi].
  destruct (py_float_mod_le (real z) _ _ two_pi_canonical ltac:(lia) Fr)
    as (zr & Er & Br).
  destruct (py_float_mod_le (imag z) _ _ two_pi_canonical ltac:(lia) Fi)
    as (zi & Ei & Bi).
  exists zr, zi. rewrite two_pi_eq. auto using le_two_pi_mag.
Qed.

End RegularFacts.

Section ClampFacts.

Context {hashlib : Hashlib} {numpy : NumPy}.

Import FloatFacts FloatOrder FloatExact FloatLower FloatRange.

(** One part [p] of a state divided by a modulus [h > 100] that is not
    below it: [p / h] is at most 2 in magnitude. *)
Lemma part_div_modulus p mh eh :
  is_finite p = true -> machine_float p ->
  -46 <= eh ->
  (forall s m e, p = S754_finite s m e -> -1074 <= leading_bit m e ->
     2 ^ (leading_bit m e - eh) <= Zpos mh) ->
  mag_le (div p (S754_finite false mh eh)) 1.
Proof.
  intros Fp Vp He Hge.
  assert (Hlow : 2 ^ (-46 - eh) <= Zpos mh).
  { destruct (Z.eq_dec eh (-46)) as [->|]; [simpl; lia|].
    rewrite Z.pow_neg_r by lia. lia. }
  destruct p as [sp| | |sp mp ep]; try discriminate Fp; [exact I|].
  set (lb := leading_bit mp ep).
  destruct Vp as [Hm53 Hmax].
  assert (Hd : Zdigits2 (Zpos mp) <= 53).
  { pose proof (Zdigits2_bounds (Zpos mp) ltac:(lia)) as [B _].
    destruct (Z.le_gt_cases (Zdigits2 (Zpos mp)) 53) as [?|G]; [assumption|].
    assert (2 ^ 53 <= 2 ^ (Zdigits2 (Zpos mp) - 1))
      by (apply Z.pow_le_mono_r; lia).
    lia. }
  assert (Hlb : lb <= 1023) by (unfold lb, leading_bit; lia).
  set (c := Z.max lb (-46)).
  assert (Hc : 2 ^ (c - eh) <= Zpos mh).
  { unfold c. destruct (Z.le_gt_cases (-46) lb) as [H|H].
    - replace (Z.max lb (-46)) with lb by lia.
      apply (Hge sp mp ep eq_refl). fold lb. lia.
    - replace (Z.max lb (-46)) with (-46) by lia. exact Hlow. }
  pose proof (leading_bit_mag mp ep sp) as Hp. fold lb in Hp.
  apply (mag_le_weaken _ _ (c + 1)) in Hp; [|unfold c; lia].
  pose proof (div_mag_le _ false mh eh (c + 1) c Hp Hc ltac:(lia)) as D.
  replace (c + 1 - c) with 1 in D by lia. exact D.
Qed.

Lemma add_zero_cases p s :
  is_finite p = true ->
  add p (S754_zero s) = p \/ exists s', add p (S754_zero s) = S754_zero s'.
Proof.
  destruct p as [sp| | |sp mp ep]; try discriminate; intros _.
  - right. destruct sp, s; eexists; reflexivity.
  - left. reflexivity.
Qed.

Lemma sub_zero_cases p s :
  is_finite p = true ->
  sub p (S754_zero s) = p \/ exists s', sub p (S754_zero s) = S754_zero s'.
Proof.
  destruct p as [sp| | |sp mp ep]; try discriminate; intros _.
  - right. destruct sp, s; eexists; reflexivity.
  - left. reflexivity.
Qed.

(** [q * max_mag] for a quotient [q] whose parts are at most 2. *)
Lemma scale_to_max_mag_py q1 q2 :
  mag_le q1 1 -> mag_le q2 1 ->
  mag_le (real (c_mul (PyComplex q1 q2) (of_float default_max_mag))) 8 /\
  mag_le (imag (c_mul (PyComplex q1 q2) (of_float default_max_mag))) 8.
Proof.
  intros H1 H2.
  assert (Hm : mag_le default_max_mag 7) by (vm_compute; discriminate).
  unfold c_mul. rewrite real_mk_like, imag_mk_like.
  cbn [real imag of_float]. unfold zero.
  destruct (mul_zero_r q1 false 1 H1) as [s1 E1].
  destruct (mul_zero_r q2 false 1 H2) as [s2 E2].
  rewrite E1, E2. split.
  - apply mag_le_zero_sub. apply (mul_mag_le q1 default_max_mag 1 7); auto; lia.
  - apply mag_le_zero_add. apply (mul_mag_le q2 default_max_mag 1 7); auto; lia.
Qed.

Lemma py_clamp_applied a b mh eh :
  is_finite a = true -> is_finite b = true ->
  mag_le (div a (S754_finite false mh eh)) 1 ->
  mag_le (div b (S754_finite false mh eh)) 1 ->
  exists z',
    (q <- c_div (PyComplex a b)
            (modulus_operand (PyComplex a b) (S754_finite false mh eh)) ;;
     Ok (c_mul q (of_float default_max_mag))) = Ok z' /\
    mag_le (real z') 8 /\ mag_le (imag z') 8.
Proof.
  intros Fa Fb Sa Sb.
  unfold c_div, modulus_operand. cbn [is_numpy orb].
  unfold py_c_quot, of_float. cbn [real imag].
  change (leb (fabs zero) (fabs (S754_finite false mh eh))) with true.
  change (eqb (fabs (S754_finite false mh eh)) zero) with false.
  cbv iota.
  change (div zero (S754_finite false mh eh)) with (S754_zero false).
  change (mul zero (S754_zero false)) with (S754_zero false).
  change (add (S754_finite false mh eh) (S754_zero false))
    with (S754_finite false mh eh).
  destruct (mul_finite_zero a false Fa) as [sa Ea].
  destruct (mul_finite_zero b false Fb) as [sb Eb].
  rewrite Ea, Eb. cbn [bind].
  eexists. split; [reflexivity|].
  apply scale_to_max_mag_py.
  - destruct (add_zero_cases a sb Fa) as [->|[s' ->]]; [exact Sa|exact I].
  - destruct (sub_zero_cases b sa Fb) as [->|[s' ->]]; [exact Sb|exact I].
Qed.

(** The clamp of a Python complex with finite parts and a finite modulus
    returns a number whose parts are at most [2^8] in magnitude. *)
Lemma clamp_python_finite erange a b :
  is_finite a = true -> is_finite b = true ->
  machine_float a -> machine_float b ->
  is_finite (hypot a b) = true ->
  exists z', clamp erange (PyComplex a b) default_max_mag = Ok z' /\
             mag_le (real z') 8 /\ mag_le (imag z') 8.
Proof.
  intros Fa Fb Va Vb Fh.
  destruct (hypot_parts a b Fa Fb Va Vb) as (R & GA & GB).
  unfold clamp, c_abs. cbn [real imag]. rewrite Fa, Fb, Fh. cbn [andb bind].
  destruct (hypot a b) as [sh| | |sh mh eh] eqn:Eh; try discriminate.
  - change (ltb default_max_mag (S754_zero sh)) with false. cbv iota.
    eexists. split; [reflexivity|]. cbn [real imag].
    split.
    + destruct a as [sa| | |sa ma ea]; try discriminate; [exact I|].
      destruct (Z.le_gt_cases (-1074) (leading_bit ma ea)) as [H|H].
      * exact (False_ind _ (GA sa ma ea eq_refl H)).
      * apply (mag_le_weaken _ (leading_bit ma ea + 1)); [lia|].
        apply leading_bit_mag.
    + destruct b as [sb| | |sb mb eb]; try discriminate; [exact I|].
      destruct (Z.le_gt_cases (-1074) (leading_bit mb eb)) as [H|H].
      * exact (False_ind _ (GB sb mb eb eq_refl H)).
      * apply (mag_le_weaken _ (leading_bit mb eb + 1)); [lia|].
        apply leading_bit_mag.
  - cbn [rounded] in R. destruct R as [-> Hmh].
    rewrite ltb_max_mag.
    assert (Hpart : forall p,
      is_finite p = true ->
      (forall s m e, p = S754_finite s m e -> -1074 <= leading_bit m e ->
         2 ^ (leading_bit m e - eh) <= Zpos mh) ->
      eh <= -46 -> mag_le p 8).
    { intros p Fp Hge He.
      destruct p as [sp| | |sp mp ep]; try discriminate; [exact I|].
      apply (mag_le_weaken _ (leading_bit mp ep + 1)); [|apply leading_bit_mag].
      destruct (Z.le_gt_cases (-1074) (leading_bit mp ep)) as [H|H]; [|lia].
      specialize (Hge sp mp ep eq_refl H).
      assert (H2 : 2 ^ (leading_bit mp ep - eh) < 2 ^ 53) by lia.
      destruct (Z.le_gt_cases (leading_bit mp ep - eh) 0); [lia|].
      apply Z.pow_lt_mono_r_iff in H2; lia. }
    destruct (Z.compare_spec (-46) eh) as [He|He|He].
    + destruct (Pos.compare_cont Eq 7036874417766400 mh) eqn:Ec.
      * eexists. split; [reflexivity|]. cbn [real imag].
        split; apply Hpart; auto; lia.
      * apply py_clamp_applied; auto; apply part_div_modulus; auto; lia.
      * eexists. split; [reflexivity|]. cbn [real imag].
        split; apply Hpart; auto; lia.
    + apply py_clamp_applied; auto; apply part_div_modulus; auto; lia.
    + eexists. split; [reflexivity|]. cbn [real imag].
      split; apply Hpart; auto; lia.
Qed.


(** The clamp of a finite state whose modulus fits does return. *)
Lemma clamp_returns erange z :
  finite_state z = true -> machine_state z -> modulus_fits z = true ->
  exists z1, clamp erange z default_max_mag = Ok z1 /\
             mag_le (real z1) 8 /\ mag_le (imag z1) 8.
Proof.
  unfold finite_state, machine_state, modulus_fits.
  destruct z as [a b|a b]; cbn [real imag is_numpy orb]; intros Hf [Va Vb] Hm;
    apply andb_prop in Hf; destruct Hf as [Fa Fb].
  - now apply clamp_python_finite.
  - now apply clamp_numpy_result.
Qed.

Lemma np_c_quot_kind a b : is_numpy (np_c_quot a b) = true.
Proof.
  unfold np_c_quot.
  destruct (leb _ _); [destruct (_ && _)|]; reflexivity.
Qed.

Lemma is_numpy_mk_like a b re im :
  is_numpy (mk_like a b re im) = is_numpy a || is_numpy b.
Proof. unfold mk_like. now destruct (is_numpy a || is_numpy b). Qed.



Lemma clamp_numpy_kind erange a b z' :
  clamp erange (NpComplex128 a b) default_max_mag = Ok z' ->
  is_numpy z' = true.
Proof.
  unfold clamp, c_abs. cbn [bind real imag].
  destruct (ltb default_max_mag (hypot a b)).
  - unfold c_div. cbn [is_numpy orb bind]. intros H. apply Ok_inj in H.
    subst z'. unfold c_mul. now rewrite is_numpy_mk_like, np_c_quot_kind.
  - intros H. apply Ok_inj in H. subst z'. reflexivity.
Qed.

End ClampFacts.

(* ================================================================= *)
(** * Facts: what a run depends on *)

Section ErrnoFacts.

Context {hashlib : Hashlib} {numpy : NumPy}.

Import FloatFacts FloatOrder FloatExact FloatLower FloatRange.

(** ** A finite state reads no [errno] *)







(** ** Two runs that return agree *)

Lemma c_abs_value erange z a :
  c_abs erange z = Ok a -> a = hypot (real z) (imag z).
Proof.
  unfold c_abs. destruct z as [re im|re im]; cbn [real imag].
  - destruct (is_finite re && is_finite im).
    + destruct (is_finite (hypot re im)); intros H; [|discriminate H].
      now apply Ok_inj in H.
    + destruct (is_infinite re || is_infinite im);
        [|destruct erange]; intros H; try discriminate H;
        now apply Ok_inj in H.
  - intros H. now apply Ok_inj in H.
Qed.






End ErrnoFacts.

Section ReturnFacts.

Context {hashlib : Hashlib} {numpy : NumPy}.

Import FloatFacts FloatOrder FloatExact FloatLower FloatRange.

Lemma c_add_mag_le a b k :
  -1074 <= k + 1 <= 971 ->
  mag_le (real a) k -> mag_le (imag a) k ->
  mag_le (real b) k -> mag_le (imag b) k ->
  mag_le (real (c_add a b)) (k + 1) /\ mag_le (imag (c_add a b)) (k + 1).
Proof.
  intros Hk A1 A2 B1 B2. unfold c_add. rewrite real_mk_like, imag_mk_like.
  split; now apply add_mag_le.
Qed.

Lemma c_mul_mag_le a b j k :
  -1074 <= j + k <= 970 ->
  mag_le (real a) j -> mag_le (imag a) j ->
  mag_le (real b) k -> mag_le (imag b) k ->
  mag_le (real (c_mul a b)) (j + k + 1) /\
  mag_le (imag (c_mul a b)) (j + k + 1).
Proof.
  intros Hk A1 A2 B1 B2. unfold c_mul. rewrite real_mk_like, imag_mk_like.
  split; [apply sub_mag_le|apply add_mag_le]; try lia;
    apply mul_mag_le; auto; lia.
Qed.

(** The parameters derived from a password are at most 2 in magnitude. *)
Lemma window_mag_le bs :
  List.length bs = 8%nat ->
  mag_le (real (window_to_complex bs)) 1 /\
  mag_le (imag (window_to_complex bs)) 1.
Proof.
  intros Hlen. pose proof (be_uint_range bs) as Hv. rewrite Hlen in Hv.
  change (256 ^ Z.of_nat 8) with (2 ^ 64) in Hv.
  set (v := be_uint bs) in *.
  assert (Hlow : 0 <= Z.land v 0xFFFF <= 2 ^ 16 - 1).
  { change 0xFFFF with (Z.ones 16). rewrite Z.land_ones by lia.
    pose proof (Z.mod_pos_bound v (2 ^ 16) ltac:(lia)). lia. }
  destruct (py_int_truediv_ok v (2 ^ 64 - 1) 0) as [E1 B1]; try lia.
  destruct (py_int_truediv_ok (Z.land v 0xFFFF) (2 ^ 16 - 1) 0) as [E2 B2];
    try lia.
  unfold window_to_complex. fold v. cbn [real imag].
  split; now apply scale_to_square.
Qed.

(** The result of the arithmetic of the [try] block, bounded from bounds
    on what the numpy calls returned. *)
Lemma try_result_bounded t1 c beta gamma zs y :
  mag_le (real t1) 64 -> mag_le (imag t1) 64 ->
  mag_le (real c) 64 -> mag_le (imag c) 64 ->
  mag_le (real beta) 1 -> mag_le (imag beta) 1 ->
  mag_le (real gamma) 1 -> mag_le (imag gamma) 1 ->
  mag_le (real zs) 3 -> mag_le (imag zs) 3 ->
  mag_le y 64 ->
  finite_state (c_add (c_add t1 (c_mul beta c))
                      (c_mul (c_mul gamma zs) (of_float64 y))) = true.
Proof.
  intros T1 T2 C1 C2 B1 B2 G1 G2 Z1 Z2 Y.
  destruct (c_mul_mag_le beta c 1 64 ltac:(lia) B1 B2 C1 C2) as [P1 P2].
  destruct (c_add_mag_le t1 (c_mul beta c) 66 ltac:(lia)) as [S1 S2];
    try assumption; try (eapply mag_le_weaken; [|eassumption]; lia).
  destruct (c_mul_mag_le gamma zs 1 3 ltac:(lia) G1 G2 Z1 Z2) as [Q1 Q2].
  destruct (c_mul_mag_le (c_mul gamma zs) (of_float64 y) 5 64 ltac:(lia))
    as [R1 R2]; try assumption; [exact I|].
  destruct (c_add_mag_le (c_add t1 (c_mul beta c))
              (c_mul (c_mul gamma zs) (of_float64 y)) 70 ltac:(lia))
    as [U1 U2]; try (eapply mag_le_weaken; [|eassumption]; lia).
  unfold finite_state.
  now rewrite (mag_le_finite _ _ U1), (mag_le_finite _ _ U2).
Qed.

Lemma half_mag : mag_le (literal 5 10) (-1).
Proof. vm_compute. discriminate. Qed.

(** The argument of [np.cos]: [0.5 * z_safe]. *)
Lemma half_z_safe_bounded zr zi :
  mag_le zr 3 -> mag_le zi 3 ->
  mag_le (real (c_mul (of_float (literal 5 10)) (PyComplex zr zi))) 4 /\
  mag_le (imag (c_mul (of_float (literal 5 10)) (PyComplex zr zi))) 4.
Proof.
  intros Hr Hi. unfold c_mul. rewrite real_mk_like, imag_mk_like.
  cbn [real imag of_float].
  assert (Z0 : forall k, mag_le zero k) by (intros; exact I).
  split.
  - apply (mag_le_weaken _ 3); [lia|]. apply (sub_mag_le _ _ 2); [lia| |].
    + apply (mul_mag_le _ _ (-1) 3); auto using half_mag. lia.
    + apply (mul_mag_le _ _ (-1) 3); auto. lia.
  - apply (mag_le_weaken _ 3); [lia|]. apply (add_mag_le _ _ 2); [lia| |].
    + apply (mul_mag_le _ _ (-1) 3); auto using half_mag. lia.
    + apply (mul_mag_le _ _ (-1) 3); auto. lia.
Qed.

Lemma neg_hypot_nonpositive x y a :
  is_finite (hypot x y) = true -> a = hypot x y -> nonpositive (neg a).
Proof.
  intros Hf ->. pose proof (hypot_nonneg x y) as Hs.
  destruct (hypot x y) as [s|s| |s m e]; try discriminate Hf; [exact I|].
  subst s. exact I.
Qed.

(** On a finite state whose modulus fits, with numpy calls that return
    finite values, the loop body returns: it appends a byte and leaves a
    state of the same kind. *)
Lemma pure_step_returns errno alpha beta gamma z ks :
  numpy_floats -> numpy_bounded ->
  mag_le (real alpha) 1 -> mag_le (imag alpha) 1 ->
  mag_le (real beta) 1 -> mag_le (imag beta) 1 ->
  mag_le (real gamma) 1 -> mag_le (imag gamma) 1 ->
  finite_state z = true -> machine_state z -> modulus_fits z = true ->
  exists z' b,
    pure_step errno alpha beta gamma (z, ks) = Ok (z', ks ++ [b]) /\
    is_byte b /\
    finite_state z' = true /\ machine_state z' /\ modulus_fits z' = true.
Proof.
  intros Hnf (Hsin & Hcos & Hexp) A1 A2 B1 B2 G1 G2 Hf Hm Hfit.
  destruct (clamp_returns (erange_in errno) z Hf Hm Hfit)
    as (z1 & Ec & Z1 & Z2).
  assert (F1 : finite_state z1 = true).
  { unfold finite_state.
    now rewrite (mag_le_finite _ _ Z1), (mag_le_finite _ _ Z2). }
  destruct (z_safe_finite z1 F1) as (zr & zi & Er & Ei & Hr & Hi).
  assert (Hstep : forall z',
            fractal_function errno z alpha beta gamma default_max_mag = Ok z' ->
            mag_le (real z') 8 -> mag_le (imag z') 8 ->
            modulus_fits z' = true ->
            exists z'' b,
              pure_step errno alpha beta gamma (z, ks) = Ok (z'', ks ++ [b]) /\
              is_byte b /\ finite_state z'' = true /\ machine_state z'' /\
              modulus_fits z'' = true).
  { intros z' Ef R1 R2 Hk.
    destruct (extract_byte_bounded z' 8 ltac:(lia) R1 R2) as (b & Eb & Hb).
    exists z', b. unfold pure_step. cbn [fst snd]. rewrite Ef. cbn [bind].
    rewrite Eb. cbn [bind].
    split; [reflexivity|]. split; [exact Hb|].
    split; [eapply extract_byte_finite; eassumption|].
    split; [eapply fractal_function_machine; eassumption|exact Hk]. }
  assert (Hzero : map_body (erange_try errno) z1 alpha beta gamma
                  = Raise OverflowError ->
            fractal_function errno z alpha beta gamma default_max_mag
            = Ok (PyComplex zero zero)).
  { intros E. unfold fractal_function. rewrite Ec. cbn [bind]. rewrite E.
    cbn [try_except overflow_or_fpe bind]. apply clamp_zero. }
  destruct (map_body (erange_try errno) z1 alpha beta gamma) as [r|x] eqn:Em.
  - (* the try block returns *)
    assert (Fr : finite_state r = true).
    { revert Em. unfold map_body. rewrite Er, Ei. cbn [bind].
      destruct (c_add_mag_le (PyComplex zr zi) alpha 3 ltac:(lia)) as [W1 W2];
        try assumption; try (eapply mag_le_weaken; [|eassumption]; lia).
      destruct (Hsin (real (c_add (PyComplex zr zi) alpha),
                      imag (c_add (PyComplex zr zi) alpha)) W1 W2)
        as (q1 & -> & S1 & S2).
      cbn [np_complex bind fst snd].
      destruct (half_z_safe_bounded zr zi Hr Hi) as [H1 H2].
      destruct (Hcos (real (c_mul (of_float (literal 5 10)) (PyComplex zr zi)),
                      imag (c_mul (of_float (literal 5 10)) (PyComplex zr zi)))
                  H1 H2) as (q2 & -> & C1 & C2).
      cbn [np_complex bind fst snd].
      destruct (c_abs (erange_try errno) (PyComplex zr zi)) as [a|] eqn:Ea;
        cbn [bind]; [|intros H; discriminate H].
      assert (Fa : is_finite (hypot zr zi) = true).
      { unfold c_abs in Ea. cbn [real imag] in Ea.
        rewrite (mag_le_finite _ _ Hr), (mag_le_finite _ _ Hi) in Ea.
        cbn [andb] in Ea.
        destruct (is_finite (hypot zr zi)); [reflexivity|discriminate Ea]. }
      apply c_abs_value in Ea. cbn [real imag] in Ea.
      destruct (Hexp (neg a) (neg_hypot_nonpositive zr zi a Fa Ea))
        as (y & -> & Y).
      cbn [bind]. intros H. apply Ok_inj in H. subst r.
      now apply try_result_bounded. }
    pose proof (map_body_machine _ _ _ _ _ _ Hnf Em) as Mr.
    destruct (map_body_numpy _ _ _ _ _ _ Em) as (a & b & ->).
    unfold finite_state in Fr. cbn [real imag] in Fr.
    apply andb_prop in Fr. destruct Fr as [Fa Fb]. destruct Mr as [Ma Mb].
    cbn [real imag] in Ma, Mb.
    destruct (clamp_numpy_result (erange_out errno) a b Fa Fb Ma Mb)
      as (z' & Ez & R1 & R2).
    apply (Hstep z'); auto.
    + unfold fractal_function. rewrite Ec. cbn [bind]. rewrite Em.
      cbn [try_except bind]. exact Ez.
    + unfold modulus_fits. now rewrite (clamp_numpy_kind _ _ _ _ Ez).
  - (* it raises: only [abs(z_safe)] can, and the exception is caught *)
    assert (Hx : x = OverflowError).
    { revert Em. unfold map_body. rewrite Er, Ei. cbn [bind].
      destruct (c_add_mag_le (PyComplex zr zi) alpha 3 ltac:(lia)) as [W1 W2];
        try assumption; try (eapply mag_le_weaken; [|eassumption]; lia).
      destruct (Hsin (real (c_add (PyComplex zr zi) alpha),
                      imag (c_add (PyComplex zr zi) alpha)) W1 W2)
        as (q1 & -> & S1 & S2).
      cbn [np_complex bind fst snd].
      destruct (half_z_safe_bounded zr zi Hr Hi) as [H1 H2].
      destruct (Hcos (real (c_mul (of_float (literal 5 10)) (PyComplex zr zi)),
                      imag (c_mul (of_float (literal 5 10)) (PyComplex zr zi)))
                  H1 H2) as (q2 & -> & C1 & C2).
      cbn [np_complex bind fst snd].
      destruct (c_abs (erange_try errno) (PyComplex zr zi)) as [a|x'] eqn:Ea;
        cbn [bind].
      - assert (Fa : is_finite (hypot zr zi) = true).
        { unfold c_abs in Ea. cbn [real imag] in Ea.
          rewrite (mag_le_finite _ _ Hr), (mag_le_finite _ _ Hi) in Ea.
          cbn [andb] in Ea.
          destruct (is_finite (hypot zr zi)); [reflexivity|discriminate Ea]. }
        apply c_abs_value in Ea. cbn [real imag] in Ea.
        destruct (Hexp (neg a) (neg_hypot_nonpositive zr zi a Fa Ea))
          as (y & -> & Y).
        cbn [bind]. intros H. discriminate H.
      - intros H. apply Raise_inj in H. subst x'.
        apply c_abs_raises in Ea. tauto. }
    subst x. apply (Hstep (PyComplex zero zero)); auto; exact I.
Qed.

Lemma iterate_returns errno k alpha beta gamma n z ks :
  numpy_floats -> numpy_bounded ->
  mag_le (real alpha) 1 -> mag_le (imag alpha) 1 ->
  mag_le (real beta) 1 -> mag_le (imag beta) 1 ->
  mag_le (real gamma) 1 -> mag_le (imag gamma) 1 ->
  finite_state z = true -> machine_state z -> modulus_fits z = true ->
  exists s, iterate errno k alpha beta gamma n (z, ks) = Ok s.
Proof.
  intros Hnf Hnb A1 A2 B1 B2 G1 G2. revert k z ks.
  induction n as [|n IH]; intros k z ks Hf Hm Hfit; [eexists; reflexivity|].
  cbn [iterate].
  destruct (pure_step_returns (errno k) alpha beta gamma z ks Hnf Hnb
              A1 A2 B1 B2 G1 G2 Hf Hm Hfit)
    as (z' & b & -> & _ & Hf' & Hm' & Hfit').
  cbn [bind]. now apply IH.
Qed.

End ReturnFacts.

Section RunFacts.

Context {hashlib : Hashlib} {numpy : NumPy}.

Import FloatFacts FloatOrder FloatExact FloatLower FloatRange.






(** C2, as amended.  For every password and every seed, the call of length
    0 returns the empty sequence; a call of length [n >= 0] that returns
    gives exactly [n] elements, each an integer of [[0,255]]; and the call
    does return when the seed has two finite parts and a modulus [abs(seed)]
    that does not overflow, the numpy calls returning finite binary64
    values on the bounded arguments the loop passes them. *)
Theorem generate_keystream_length_range
    (password : string) (n : Z) (seed : cnum) (w : world) :
  fst (generate_keystream password 0 seed w) = Ok [] /\
  (forall ks,
     0 <= n ->
     fst (generate_keystream password n seed w) = Ok ks ->
     len ks = n /\ Forall is_byte ks) /\
  (0 <= n ->
   numpy_floats -> numpy_bounded ->
   finite_state seed = true ->
   valid_float (real seed) = true -> valid_float (imag seed) = true ->
   modulus_fits seed = true ->
   exists ks,
     fst (generate_keystream password n seed w) = Ok ks /\
     len ks = n /\ Forall is_byte ks).
Proof.
  rewrite !generate_keystream_result, !keystream_of_eq.
  assert (Hlen : forall ks,
            0 <= n ->
            (s <- iterate (errno_seen w) (map_calls w)
                    (window_to_complex (alpha_window password))
                    (window_to_complex (beta_window password))
                    (window_to_complex (gamma_window password))
                    (Z.to_nat n) (seed, []) ;; Ok (snd s)) = Ok ks ->
            len ks = n /\ Forall is_byte ks).
  { intros ks Hn H.
    destruct (iterate _ _ _ _ _ _ _) as [[z ks']|] eqn:E; cbn [bind] in H;
      [|discriminate H].
    apply Ok_inj in H. subst ks. cbn [snd].
    destruct (iterate_appends _ _ _ _ _ _ _ _ _ _ E) as (bs & -> & Hl & Hall).
    cbn [app]. split; [unfold len; lia|exact Hall]. }
  split; [reflexivity|]. split; [exact Hlen|].
  intros Hn Hnf Hnb Hf V1 V2 Hfit.
  destruct (windows_length password) as (La & Lb & Lg).
  destruct (window_mag_le _ La) as [A1 A2].
  destruct (window_mag_le _ Lb) as [B1 B2].
  destruct (window_mag_le _ Lg) as [G1 G2].
  destruct (iterate_returns (errno_seen w) (map_calls w)
              (window_to_complex (alpha_window password))
              (window_to_complex (beta_window password))
              (window_to_complex (gamma_window password))
              (Z.to_nat n) seed [] Hnf Hnb A1 A2 B1 B2 G1 G2 Hf
              (conj (valid_machine _ V1) (valid_machine _ V2)) Hfit)
    as [s Es].
  exists (snd s). split; [now rewrite Es|].
  apply Hlen; [exact Hn|]. now rewrite Es.
Qed.


End RunFacts.

(* ================================================================= *)
(** * The model on concrete inputs *)

Module Runs.

Import Fixture Standins.

(** The literals of the source are the doubles CPython reads:
    [(0.9).hex() = 0x1.ccccccccccccdp-1], [(1.1).hex() =
    0x1.199999999999ap+0], [(0.02).hex() = 0x1.47ae147ae147bp-6]. *)
Example literals_as_in_cpython :
  literal 9 10 = S754_finite false 0x1ccccccccccccd (-53) /\
  literal 11 10 = S754_finite false 0x1199999999999a (-52) /\
  literal 2 100 = S754_finite false 0x147ae147ae147b (-58) /\
  np_pi = S754_finite false 0x1921fb54442d18 (-51).
Proof. vm_compute. repeat split. Qed.

(** [bytes_to_complex(b'test' + bytes(4))] is
    [-0x1.7351918000000p-3 - 2j], as CPython computes it. *)
Example bytes_to_complex_test :
  bytes_to_complex (list_byte_of_string "test"%string ++ repeat x00 4)
  = Ok (PyComplex (S754_finite true 0x17351918000000 (-55))
                  (S754_finite true 0x10000000000000 (-51))).
Proof. vm_compute. reflexivity. Qed.

(** [v / (2**64 - 1)] divides the two integers and rounds once; dividing
    the two converted floats rounds three times and can differ:
    for [v = 2**63 + 2**10] the first is [0x1.0000000000001p-1], the
    second [0.5]. *)
Example int_division_rounds_once :
  of_ratio (2 ^ 63 + 2 ^ 10) (2 ^ 64 - 1)
    = S754_finite false 0x10000000000001 (-53) /\
  div (of_Z (2 ^ 63 + 2 ^ 10)) (of_Z (2 ^ 64 - 1))
    = S754_finite false 0x10000000000000 (-53).
Proof. vm_compute. repeat split. Qed.

(** [1.1 * 200 / 2] is [110.00000000000001], above the exact bound 110. *)
Example runs_upper_200 :
  runs_upper 200 = S754_finite false 0x1b800000000001 (-46) /\
  (110 < to_Q (runs_upper 200))%Q /\
  runs_lower 200 = of_Z 90.
Proof. vm_compute. repeat split. Qed.

(** Values as CPython 3.11 computes them (on the two clamped inputs its C
    library's [hypot] returns the correctly rounded modulus): the clamp
    [z / abs(z) * 100.0] of [1e6+1e6j] and of [123456.7+7654.321j], the
    product [(1.2-0.7j) * (0.3+2.5j)], the remainder [-100.0 % (2*pi)] and
    the byte read off [12.34567-7.654321j]. *)
Example cpython_cross_checks :
  clamp false (PyComplex (of_Z 1000000) (of_Z 1000000)) default_max_mag
    = Ok (PyComplex (S754_finite false 4975821619160760 (-46))
                    (S754_finite false 4975821619160760 (-46))) /\
  clamp false (PyComplex (literal 1234567 10) (literal 7654321 1000))
    default_max_mag
    = Ok (PyComplex (S754_finite false 7023388393180477 (-46))
                    (S754_finite false 6967206383333115 (-50))) /\
  c_mul (PyComplex (literal 12 10) (literal (-7) 10))
        (PyComplex (literal 3 10) (literal 25 10))
    = PyComplex (S754_finite false 4751297606875873 (-51))
                (S754_finite false 6282521480181842 (-51)) /\
  py_float_mod (of_Z (-100)) two_pi
    = Ok (S754_finite false 0x10fdaa22168c00 (-53)) /\
  extract_byte (PyComplex (literal 1234567 100000) (literal (-7654321) 1000000))
    = Ok 196.
Proof. vm_compute. repeat split. Qed.

(** The modulus of [0.5+0.3j], correctly rounded: [0x1.2a8b73e294fb5p-1]. *)
Example hypot_rounds_once :
  hypot (literal 5 10) (literal 3 10)
  = S754_finite false 0x12a8b73e294fb5 (-53).
Proof. vm_compute. reflexivity. Qed.

(** The rescaling of the clamp is exact only up to rounding: clamping
    [100+3j] gives a number whose [abs] is [100.00000000000001]. *)
Example clamp_rounds_above_max_mag :
  clamp false (PyComplex (of_Z 100) (of_Z 3)) default_max_mag
    = Ok (PyComplex (S754_finite false 7033709960127184 (-46))
                    (S754_finite false 6752361561722096 (-51))) /\
  c_abs false (PyComplex (S754_finite false 7033709960127184 (-46))
                         (S754_finite false 6752361561722096 (-51)))
    = Ok (S754_finite false 7036874417766401 (-46)) /\
  ltb default_max_mag (S754_finite false 7036874417766401 (-46)) = true.
Proof. vm_compute. repeat split. Qed.

Lemma ks110_bytes : Forall is_byte ks110.
Proof. repeat constructor; unfold is_byte; lia. Qed.

Lemma steady_numpy_floats : numpy_floats (numpy := steady_numpy).
Proof.
  unfold numpy_floats; cbn [np_sin np_cos np_exp steady_numpy].
  split; [|split]; intros p q Hq; injection Hq as <-;
    vm_compute; try split; reflexivity.
Qed.

Lemma steady_numpy_bounded : numpy_bounded (numpy := steady_numpy).
Proof.
  unfold numpy_bounded; cbn [np_sin np_cos np_exp steady_numpy].
  split; [|split]; intros; eexists; (split; [reflexivity|]);
    try split; vm_compute; first [exact I | discriminate].
Qed.



(** C2, the claim as stated fails: with a NaN seed the first iteration
    raises [ValueError] and no sequence is returned. *)
Lemma generate_keystream_nan_seed_raises :
  fst (generate_keystream (hashlib := pad_hashlib) (numpy := quiet_numpy)
         "test"%string 1 (PyComplex nan nan) still_world)
  = Raise ValueError.
Proof. vm_compute. reflexivity. Qed.

Lemma generate_keystream_length_range_witness :
  exists ks,
    fst (generate_keystream (hashlib := pad_hashlib) (numpy := steady_numpy)
           "test"%string 5 default_seed still_world) = Ok ks /\
    len ks = 5 /\ Forall is_byte ks.
Proof.
  refine (proj2 (proj2 (generate_keystream_length_range
           (hashlib := pad_hashlib) (numpy := steady_numpy)
           "test"%string 5 default_seed still_world)) _ _ _ _ _ _ _).
  - lia.
  - exact steady_numpy_floats.
  - exact steady_numpy_bounded.
  - reflexivity.
  - vm_compute. reflexivity.
  - vm_compute. reflexivity.
  - vm_compute. reflexivity.
Defined.

(** C5, on an overflow: [sin] returns an infinity, the map step returns
    [nan+nanj] and the loop body raises. *)
Lemma fractal_function_overflow_not_caught_witness :
  fractal_function (numpy := infinite_numpy)
    (errno_seen still_world (map_calls still_world))
    default_seed default_seed default_seed default_seed default_max_mag
    = Ok (NpComplex128 nan nan) /\
  fst (keystream_step (numpy := infinite_numpy)
         default_seed default_seed default_seed zero 3 1
         (default_seed, [7]) still_world)
    = Raise ValueError.
Proof.
  apply (fractal_function_overflow_not_caught (numpy := infinite_numpy)
           default_seed default_seed default_seed default_seed default_seed
           (NpComplex128 (S754_infinity false)
                         (S754_finite true 7185167316457160 (-58)))).
  - vm_compute. reflexivity.
  - vm_compute. reflexivity.
  - reflexivity.
Defined.

(** When a numpy call does raise, as under [errstate(all='raise')], the
    exception is caught. *)
Example fractal_function_catches_raised :
  fractal_function (numpy := raising_numpy) errno_clear
    default_seed default_seed default_seed default_seed default_max_mag
  = Ok (PyComplex zero zero).
Proof. vm_compute. reflexivity. Qed.

(** C6, the claim as stated fails: a negative length is answered with the
    empty sequence. *)
Lemma generate_keystream_minus_one :
  fst (generate_keystream (hashlib := pad_hashlib) (numpy := quiet_numpy)
         "test"%string (-1) default_seed still_world)
  = Ok [].
Proof. vm_compute. reflexivity. Qed.

Lemma generate_keystream_negative_length_witness :
  fst (generate_keystream (hashlib := pad_hashlib) (numpy := quiet_numpy)
         "test"%string (-3) default_seed running_world)
  = Ok [].
Proof.
  apply (generate_keystream_negative_length
           (hashlib := pad_hashlib) (numpy := quiet_numpy)).
  lia.
Defined.

(** C7, the claim as stated fails: for these 25 bytes [runs = 110] and
    [N = 200]; 110 is not below [1.1 * 200 / 2 = 110], yet the runs test
    passes. *)
Lemma runs_test_passes_at_exact_bound :
  nist_randomness_tests (numpy := quiet_numpy) ks110
    = Ok {| frequency_test := true; runs_test := true;
            autocorrelation := true |} /\
  count_runs (bit_expansion ks110) = 110 /\
  len (bit_expansion ks110) = 200 /\
  strictly_between_exact 110 200 = false.
Proof. vm_compute. repeat split. Qed.

Lemma runs_test_float_bounds_witness :
  len (bit_expansion ks110) = 8 * len ks110 /\
  expand_bits ks110 [] = Ok (bit_expansion ks110) /\
  count_runs (bit_expansion ks110) = 1 + changes (bit_expansion ks110) /\
  (true = true <->
   (to_Q (runs_lower (8 * len ks110))
      < inject_Z (1 + changes (bit_expansion ks110)))%Q /\
   (inject_Z (1 + changes (bit_expansion ks110))
      < to_Q (runs_upper (8 * len ks110)))%Q).
Proof.
  apply (runs_test_float_bounds (numpy := quiet_numpy) ks110
           {| frequency_test := true; runs_test := true;
              autocorrelation := true |}).
  - exact ks110_bytes.
  - vm_compute. discriminate.
  - vm_compute. reflexivity.
Defined.

Lemma short_bit_sequence_raises_witness :
  nist_randomness_tests (numpy := quiet_numpy) [] = Raise ZeroDivisionError.
Proof.
  apply (short_bit_sequence_raises (numpy := quiet_numpy) [] []).
  - reflexivity.
  - vm_compute. discriminate.
Defined.


Lemma nist_division_by_zero_iff_empty_witness :
  nist_randomness_tests (numpy := quiet_numpy) [] = Raise ZeroDivisionError /\
  ([85; 15] <> [] ->
   (exists freq,
      py_int_truediv (sum (bit_expansion [85; 15]))
                     (len (bit_expansion [85; 15])) = Ok freq) /\
   (exists freq_passed runs_passed,
      nist_randomness_tests (numpy := quiet_numpy) [85; 15] =
      Ok {| frequency_test := freq_passed;
            runs_test := runs_passed;
            autocorrelation := ltb (fabs zero) (literal 2 100) |})).
Proof.
  apply (nist_division_by_zero_iff_empty (numpy := quiet_numpy) [85; 15] zero).
  - repeat constructor; unfold is_byte; lia.
  - vm_compute. discriminate.
  - reflexivity.
Defined.

End Runs.


(* ================================================================= *)
(** * Further runs of the model on concrete inputs *)

Module MoreRuns.

Import Fixture Standins.

Lemma quiet_numpy_returns : numpy_returns (numpy := quiet_numpy).
Proof. repeat split; intros; eexists; reflexivity. Qed.

Lemma bytes_to_complex_short_witness :
  bytes_to_complex [x61; x62; x63] = Ok (window_to_complex [x61; x62; x63]) /\
  in_square (window_to_complex [x61; x62; x63]).
Proof.
  apply (bytes_to_complex_short [x61; x62; x63]).
  cbn [List.length]. lia.
Defined.

Lemma bytes_to_complex_imag_low_bytes_witness :
  exists re,
    bytes_to_complex (repeat x00 6 ++ [x12; x34])
    = Ok (PyComplex re (imag_of_low_bytes x12 x34)).
Proof.
  apply (bytes_to_complex_imag_low_bytes (repeat x00 6) x12 x34).
  cbn [repeat List.length]. lia.
Defined.

Lemma py_float_mod_two_pi_range_witness :
  (exists m, py_float_mod (of_Z (-100)) two_pi = Ok m /\
             is_finite m = true /\ (0 <= to_Q m <= to_Q two_pi)%Q) /\
  py_float_mod (literal (-1) (10 ^ 20)) two_pi = Ok two_pi.
Proof.
  apply (py_float_mod_two_pi_range (of_Z (-100))).
  reflexivity.
Defined.

Lemma fractal_function_modulus_overflow_gives_zero_witness :
  exists s1 s2,
    fractal_function (numpy := huge_numpy) errno_clear
      default_seed default_seed default_seed default_seed default_max_mag
    = Ok (NpComplex128 (S754_zero s1) (S754_zero s2)).
Proof.
  apply (fractal_function_modulus_overflow_gives_zero (numpy := huge_numpy)
           errno_clear
           default_seed default_seed default_seed default_seed default_seed
           DBL_MAX DBL_MAX).
  - vm_compute. reflexivity.
  - vm_compute. reflexivity.
  - reflexivity.
  - reflexivity.
  - vm_compute. reflexivity.
Defined.

Lemma extract_byte_finite_state_witness :
  exists b,
    extract_byte (PyComplex (literal 1234567 100000)
                            (literal (-7654321) 1000000)) = Ok b /\
    is_byte b.
Proof.
  apply (extract_byte_finite_state
           (PyComplex (literal 1234567 100000) (literal (-7654321) 1000000)));
    vm_compute; reflexivity.
Defined.

Lemma extract_byte_not_finite_witness :
  extract_byte (PyComplex (of_Z 1) (S754_infinity false))
  = Raise (extract_byte_error (PyComplex (of_Z 1) (S754_infinity false))).
Proof.
  apply (extract_byte_not_finite (PyComplex (of_Z 1) (S754_infinity false)));
    vm_compute; reflexivity.
Defined.

Lemma extract_byte_low_bits_witness :
  exists r i,
    scaled_fraction (real (PyComplex (literal 1234567 100000)
                                     (literal (-7654321) 1000000))) = Ok r /\
    scaled_fraction (imag (PyComplex (literal 1234567 100000)
                                     (literal (-7654321) 1000000))) = Ok i /\
    196 = Z.lxor (r mod 256) (i mod 256).
Proof.
  apply (extract_byte_low_bits
           (PyComplex (literal 1234567 100000) (literal (-7654321) 1000000))
           196).
  vm_compute. reflexivity.
Defined.

Lemma generate_keystream_seed_not_finite_witness :
  fst (generate_keystream (hashlib := pad_hashlib) (numpy := quiet_numpy)
         "test"%string 1 (PyComplex (S754_infinity false) zero) still_world)
  = Raise ValueError.
Proof.
  apply (generate_keystream_seed_not_finite
           (hashlib := pad_hashlib) (numpy := quiet_numpy)).
  - lia.
  - exact quiet_numpy_returns.
  - reflexivity.
  - reflexivity.
  - reflexivity.
Defined.

Lemma generate_keystream_output_witness :
  snd (generate_keystream (hashlib := pad_hashlib) (numpy := quiet_numpy)
         "test"%string 3 default_seed running_world)
  = {| clock := clock running_world;
       clock_reads := (S (clock_reads running_world)
                       + Z.to_nat (progress_count 3))%nat;
       stdout := stdout running_world ++ Generating 3
                 :: map (progress_line running_world 3)
                        (seq 0 (Z.to_nat (progress_count 3)));
       errno_seen := errno_seen running_world;
       map_calls := (map_calls running_world + Z.to_nat 3)%nat |}.
Proof.
  apply (generate_keystream_output
           (hashlib := pad_hashlib) (numpy := quiet_numpy)
           "test"%string 3 default_seed running_world [33; 32; 248]).
  vm_compute. reflexivity.
Defined.

Lemma keystream_cycles_witness :
  fst (generate_keystream (hashlib := pad_hashlib) (numpy := raising_numpy)
         "test"%string (Z.of_nat (1 + 3 * 1)) default_seed still_world)
  = Ok ([0] ++ List.concat (repeat [0] 3)).
Proof.
  apply (keystream_cycles (hashlib := pad_hashlib) (numpy := raising_numpy)
           "test"%string default_seed (PyComplex zero zero) 1 1 3 still_world
           [0] [0]).
  - vm_compute. reflexivity.
  - intros i _. vm_compute. reflexivity.
Defined.

Lemma shannon_entropy_returns_witness :
  shannon_entropy (mathlib := flat_log2) [] = Ok zero /\
  exists h, shannon_entropy (mathlib := flat_log2) [1; 2; 1] = Ok h.
Proof.
  apply (shannon_entropy_returns (mathlib := flat_log2) [1; 2; 1]).
  - vm_compute. discriminate.
  - intros x _. exists zero. reflexivity.
Defined.

Lemma shannon_entropy_constant_witness :
  shannon_entropy (mathlib := flat_log2) (repeat 7 (S 4)) = Ok zero.
Proof.
  apply (shannon_entropy_constant (mathlib := flat_log2) 7 4).
  reflexivity.
Defined.

Lemma byte_bits_round_trip_witness :
  exists bits,
    byte_bits 300 = Ok bits /\
    Forall is_bit bits /\
    bits_value bits = 300 /\
    len bits = Z.max 8 (bit_length 300).
Proof.
  apply (byte_bits_round_trip 300). lia.
Defined.

Lemma nist_negative_element_witness :
  nist_randomness_tests (numpy := quiet_numpy) [1; -1] = Raise ValueError.
Proof.
  apply (nist_negative_element (numpy := quiet_numpy) [1; -1]).
  apply Exists_cons_tl. apply Exists_cons_hd. lia.
Defined.

Lemma runs_test_complement_witness :
  count_runs (bit_expansion (map byte_complement [85; 15]))
    = count_runs (bit_expansion [85; 15]) /\
  runs_test {| frequency_test := true; runs_test := false;
               autocorrelation := true |}
  = runs_test {| frequency_test := true; runs_test := false;
                 autocorrelation := true |}.
Proof.
  apply (runs_test_complement (numpy := quiet_numpy) [85; 15]).
  - repeat constructor; unfold is_byte; lia.
  - vm_compute. discriminate.
  - vm_compute. reflexivity.
  - vm_compute. reflexivity.
Defined.

Lemma analysis_of_generated_keystream_witness :
  (2 <= 0 ->
   shannon_entropy (mathlib := flat_log2) [33; 32] = Ok zero /\
   nist_randomness_tests (numpy := quiet_numpy) [33; 32]
     = Raise ZeroDivisionError) /\
  (0 < 2 ->
   ((forall x, unit_positive x ->
       exists y, math_log2 (MathLib := flat_log2) x = Ok y) ->
    exists h, shannon_entropy (mathlib := flat_log2) [33; 32] = Ok h) /\
   (forall c,
      np_corrcoef (NumPy := quiet_numpy)
        (removelast (bit_expansion [33; 32])) (tl (bit_expansion [33; 32]))
        = Ok c ->
      exists f r,
        nist_randomness_tests (numpy := quiet_numpy) [33; 32]
        = Ok {| frequency_test := f; runs_test := r;
                autocorrelation := ltb (fabs c) (literal 2 100) |})).
Proof.
  apply (analysis_of_generated_keystream
           (hashlib := pad_hashlib) (numpy := quiet_numpy)
           (mathlib := flat_log2)
           "test"%string 2 default_seed still_world [33; 32]).
  - vm_compute. reflexivity.
  - vm_compute. discriminate.
Defined.

Lemma keystream_step_finite_result_witness :
  exists z' b,
    fractal_function (numpy := wide_numpy)
      (errno_seen still_world (map_calls still_world))
      default_seed default_seed default_seed default_seed default_max_mag
      = Ok z' /\
    mag_le (real z') 8 /\ mag_le (imag z') 8 /\
    extract_byte z' = Ok b /\ is_byte b /\
    fst (keystream_step (numpy := wide_numpy)
           default_seed default_seed default_seed zero 3 1
           (default_seed, [7]) still_world)
      = Ok (z', [7] ++ [b]).
Proof.
  apply (keystream_step_finite_result (numpy := wide_numpy)
           default_seed default_seed default_seed default_seed default_seed
           (NpComplex128 (S754_finite false 8589934477794841 (-33))
                         (S754_finite false 8589934377865327 (-33)))).
  - vm_compute. reflexivity.
  - vm_compute. reflexivity.
  - reflexivity.
  - vm_compute. reflexivity.
  - vm_compute. reflexivity.
Defined.

Lemma keystream_step_not_finite_result_witness :
  exists z',
    fractal_function (numpy := infinite_numpy)
      (errno_seen still_world (map_calls still_world))
      default_seed default_seed default_seed default_seed default_max_mag
      = Ok z' /\
    has_nan z' = true /\
    extract_byte z' = Raise ValueError /\
    fst (keystream_step (numpy := infinite_numpy)
           default_seed default_seed default_seed zero 3 1
           (default_seed, [7]) still_world)
      = Raise ValueError.
Proof.
  apply (keystream_step_not_finite_result (numpy := infinite_numpy)
           default_seed default_seed default_seed default_seed default_seed
           (NpComplex128 (S754_infinity false)
                         (S754_finite true 7185167316457160 (-58)))).
  - vm_compute. reflexivity.
  - vm_compute. reflexivity.
  - reflexivity.
  - reflexivity.
Defined.

Lemma fractal_function_raises_only_witness :
  (OverflowError = OverflowError /\
   (modulus_overflows (PyComplex nan zero) \/
    stale_erange (erange_in errno_stale) (PyComplex nan zero))) \/
  (numpy_raises (numpy := quiet_numpy) OverflowError /\
   overflow_or_fpe OverflowError = false).
Proof.
  apply (fractal_function_raises_only (numpy := quiet_numpy) errno_stale
           (PyComplex nan zero) default_seed default_seed default_seed
           OverflowError).
  vm_compute. reflexivity.
Defined.

Lemma generate_keystream_exceptions_witness :
  ValueError = ValueError \/ ValueError = OverflowError \/
  (numpy_raises (numpy := quiet_numpy) ValueError /\
   overflow_or_fpe ValueError = false).
Proof.
  apply (generate_keystream_exceptions
           (hashlib := pad_hashlib) (numpy := quiet_numpy)
           "test"%string 2 (PyComplex nan zero) still_world ValueError).
  vm_compute. reflexivity.
Defined.

End MoreRuns.
